(** * Nebula Studio text-to-video synthesizer: compositor, timeline and
      render driver

    A shallow embedding of the page component's pure helpers
    ([splitSentences], [createPaletteTimeline], [wrapLines]), of the frame
    loop of [renderTimelineToVideo] and of the state handling of
    [handleGenerate] / [reset], followed by the properties of the
    specification that are stated about them.

    Conventions.
    - A JavaScript string is the list of its UTF-16 code units.
    - JavaScript numbers are IEEE doubles.  The frame loop of the render
      driver is given twice, both executable: over the exact rationals [Q]
      ([render_loop]), and with every operation rounded to the nearest
      double ([Binary64.f64], [Doubles.render_loop]).  For whole frames per
      second and seconds per scene, which is all that the sliders of the
      page produce, and up to [2 ^ 51] frames, the two take the same
      course; what is stated of the exact loop is stated for whole
      settings.  The trigonometric opacity
      and geometry formulas are over the reals [R], the exact values that
      the doubles approximate. *)

From Stdlib Require Import Strings.String Strings.Ascii.
From Stdlib Require Import Decimal DecimalString DecimalNat.
From Stdlib Require Import Bool Arith ZArith NArith.
From Stdlib Require Import QArith Qround Qpower.
From Stdlib Require PrimFloat SpecFloat FloatOps.
From Stdlib Require Import Reals Qreals Psatz.
From Stdlib Require Import List.
Import ListNotations.

(* ===================================================================== *)
(** ** JavaScript strings *)
(* ===================================================================== *)

Module JsString.

(** One UTF-16 code unit. *)
Definition code_unit := N.

Definition jsstring := list code_unit.

(** An ASCII literal as a JavaScript string. *)
Definition lit (s : string) : jsstring :=
  map N_of_ascii (list_ascii_of_string s).

(** [Boolean(s)] for a string: the empty string is the only falsy one. *)
Definition truthy (s : jsstring) : bool :=
  match s with [] => false | _ :: _ => true end.

(** ECMAScript WhiteSpace and LineTerminator code points: what
    [String.prototype.trim] strips and what the regular expression atom
    [\s] matches.  All of them are single code units. *)
Definition is_white_space (c : code_unit) : bool :=
  ((9 <=? c) && (c <=? 13)           (* TAB LF VT FF CR *)
   || (c =? 32)                      (* SPACE *)
   || (c =? 160)                     (* NO-BREAK SPACE *)
   || (c =? 5760)                    (* U+1680 *)
   || ((8192 <=? c) && (c <=? 8202)) (* U+2000 .. U+200A *)
   || (c =? 8232) || (c =? 8233)     (* LS, PS *)
   || (c =? 8239) || (c =? 8287)     (* U+202F, U+205F *)
   || (c =? 12288)                   (* U+3000 *)
   || (c =? 65279))%N.               (* U+FEFF *)

Fixpoint drop_while (f : code_unit -> bool) (s : jsstring) : jsstring :=
  match s with
  | [] => []
  | c :: r => if f c then drop_while f r else s
  end.

(** [s.trim()] *)
Definition trim (s : jsstring) : jsstring :=
  rev (drop_while is_white_space (rev (drop_while is_white_space s))).

(** [s.split(/[...]+/)] for a character class [sep] repeated one or more
    times.  The pattern never matches the empty string and a match is
    greedy, so a maximal run of [sep] units is one separator.  [cur] is the
    piece being collected (reversed), [in_run] tells that the previous unit
    belonged to the separator being skipped.  As in JavaScript a separator
    at the very start or end leaves an empty piece there, and the empty
    input gives the one-element list holding the empty string. *)
Fixpoint split_go (sep : code_unit -> bool) (in_run : bool)
         (cur : jsstring) (s : jsstring) : list jsstring :=
  match s with
  | [] => [rev cur]
  | c :: r =>
      if sep c then
        if in_run then split_go sep true cur r
        else rev cur :: split_go sep true [] r
      else split_go sep false (c :: cur) r
  end.

Definition split_runs (sep : code_unit -> bool) (s : jsstring)
  : list jsstring :=
  split_go sep false [] s.

(** [lines.join(" ")] *)
Fixpoint join_sp (l : list jsstring) : jsstring :=
  match l with
  | [] => []
  | [x] => x
  | x :: r => x ++ 32%N :: join_sp r
  end.

(** *** Specification-side vocabulary *)

(** Putting [c] in front of the first piece. *)
Definition cons_unit (c : code_unit) (acc : list jsstring) : list jsstring :=
  match acc with
  | [] => [[c]]
  | p :: ps => (c :: p) :: ps
  end.

(** Cutting at every single separator unit (the textbook split). *)
Definition split_each (sep : code_unit -> bool) (s : jsstring)
  : list jsstring :=
  fold_right (fun c acc => if sep c then [] :: acc else cons_unit c acc)
             [[]] s.

(** Putting [p] in front of the first piece. *)
Definition prepend (p : jsstring) (l : list jsstring) : list jsstring :=
  match l with
  | [] => [p]
  | x :: xs => (p ++ x) :: xs
  end.

(** No unit of [w] is a separator. *)
Definition sep_free (sep : code_unit -> bool) (w : jsstring) : Prop :=
  Forall (fun c => sep c = false) w.

(** The maximal separator-free stretches of [s], in input order: what
    splitting on runs of separators leaves once a run counts as one
    boundary. *)
Definition fields (sep : code_unit -> bool) (s : jsstring) : list jsstring :=
  filter truthy (split_each sep s).

Definition all_white (s : jsstring) : bool := forallb is_white_space s.

(** A text that neither starts nor ends with white space. *)
Definition edges_clean (s : jsstring) : Prop :=
  match s with
  | [] => True
  | c :: _ =>
      is_white_space c = false /\ is_white_space (last s c) = false
  end.

End JsString.

Import JsString.

(* ===================================================================== *)
(** ** Sentence segmenter *)
(* ===================================================================== *)

(** The character class [[\n\.!?]]. *)
Definition is_sentence_sep (c : code_unit) : bool :=
  ((c =? 10) || (c =? 46) || (c =? 33) || (c =? 63))%N.

(** [input.split(/[\n\.!?]+/).map(s => s.trim()).filter(Boolean)] *)
Definition splitSentences (input : jsstring) : list jsstring :=
  filter truthy (map trim (split_runs is_sentence_sep input)).

(** The segmenter in the words of the specification: the pieces between
    boundaries, each trimmed, the empty ones discarded. *)
Definition segment_spec (input : jsstring) : list jsstring :=
  filter truthy (map trim (fields is_sentence_sep input)).

(* ===================================================================== *)
(** ** Palettes and the timeline *)
(* ===================================================================== *)

Inductive VisualStyle : Type :=
  cosmic | tropical | noir | sunrise | aqua | mono.

(** A two-colour gradient, [[string, string]]. *)
Definition gradient : Type := (string * string)%type.

Open Scope string_scope.

Definition STYLE_PALETTES (style : VisualStyle) : list gradient :=
  match style with
  | cosmic =>
      [("#1b0033", "#5c00b3"); ("#0b1a4a", "#170e75");
       ("#2a0a4a", "#4a117a"); ("#05010f", "#2d1c7a")]
  | tropical =>
      [("#ff8a5c", "#ffd452"); ("#ff6b6b", "#ffd166");
       ("#ffbe0b", "#ffb4a2"); ("#ff9f1c", "#ffbf69")]
  | noir =>
      [("#0b0b0b", "#1f1f1f"); ("#111111", "#2b2b2b");
       ("#090909", "#202020"); ("#131313", "#292929")]
  | sunrise =>
      [("#ff758f", "#ffe2e2"); ("#ff9b73", "#ffc773");
       ("#ff6f91", "#ff9671"); ("#f9ada0", "#f8ede3")]
  | aqua =>
      [("#003f5c", "#2f4b7c"); ("#005377", "#3185fc");
       ("#2f4b7c", "#00b8a9"); ("#1f4068", "#2a9d8f")]
  | mono =>
      [("#111827", "#374151"); ("#0f172a", "#1f2937");
       ("#18181b", "#27272a"); ("#1a202c", "#2d3748")]
  end.

(** [palette] is an option because an array read can give [undefined]. *)
Record TimelineSlice : Type := mkSlice {
  sentence : jsstring;
  index : nat;
  palette : option gradient
}.

(** [palettes[index % palettes.length]]: the remainder by zero is NaN and
    an array read at NaN or beyond the end is [undefined]. *)
Definition palette_at (palettes : list gradient) (index : nat)
  : option gradient :=
  match length palettes with
  | O => None
  | S _ => nth_error palettes (index mod length palettes)
  end.

(** [array.map((x, i) => f x i)], counting from [i]. *)
Fixpoint map_indexed {A B : Type} (f : A -> nat -> B) (i : nat) (l : list A)
  : list B :=
  match l with
  | [] => []
  | x :: r => f x i :: map_indexed f (S i) r
  end.

Definition createPaletteTimeline (sentences : list jsstring)
           (style : VisualStyle) : list TimelineSlice :=
  let palettes := STYLE_PALETTES style in
  map_indexed (fun sentence index =>
                 mkSlice sentence index (palette_at palettes index))
              0 sentences.

(** *** The same function once types are erased

    [VisualStyle] exists only for the type checker.  In the emitted
    JavaScript the style is a string and [STYLE_PALETTES[style]] is a
    property read on an object literal, which also sees the properties that
    every object inherits from [Object.prototype]. *)

Definition style_key (style : VisualStyle) : string :=
  match style with
  | cosmic => "cosmic" | tropical => "tropical" | noir => "noir"
  | sunrise => "sunrise" | aqua => "aqua" | mono => "mono"
  end.

Definition all_styles : list VisualStyle :=
  [cosmic; tropical; noir; sunrise; aqua; mono].

Definition style_of_key (key : string) : option VisualStyle :=
  find (fun st => String.eqb (style_key st) key) all_styles.

Definition object_prototype_keys : list string :=
  ["constructor"; "hasOwnProperty"; "isPrototypeOf"; "propertyIsEnumerable";
   "toLocaleString"; "toString"; "valueOf"; "__proto__";
   "__defineGetter__"; "__defineSetter__";
   "__lookupGetter__"; "__lookupSetter__"].

Definition inherited_key (key : string) : bool :=
  existsb (String.eqb key) object_prototype_keys.

Inductive property_read : Type :=
| OwnPalettes (palettes : list gradient)
| Inherited      (* a function or the prototype object: no indexed entries *)
| Undefined.

Definition STYLE_PALETTES_read (key : string) : property_read :=
  match style_of_key key with
  | Some st => OwnPalettes (STYLE_PALETTES st)
  | None => if inherited_key key then Inherited else Undefined
  end.

Inductive completion (A : Type) : Type :=
| Normal (value : A)
| Throw (message : string).
Arguments Normal {A} value.
Arguments Throw {A} message.

(** The body of [createPaletteTimeline] on a raw key.  The callback reads
    [palettes.length]: on [undefined] that raises a TypeError, but only if
    the callback runs at all, that is if there is a sentence.  An inherited
    member has no indexed entries, so every scene gets [undefined]. *)
Definition createPaletteTimeline_erased (sentences : list jsstring)
           (key : string) : completion (list TimelineSlice) :=
  match STYLE_PALETTES_read key with
  | OwnPalettes palettes =>
      Normal (map_indexed (fun sentence index =>
                             mkSlice sentence index (palette_at palettes index))
                          0 sentences)
  | Inherited =>
      Normal (map_indexed (fun sentence index => mkSlice sentence index None)
                          0 sentences)
  | Undefined =>
      match sentences with
      | [] => Normal []
      | _ :: _ =>
          Throw "TypeError: Cannot read properties of undefined (reading 'length')"
      end
  end.

Close Scope string_scope.

(* ===================================================================== *)
(** ** Word wrapping *)
(* ===================================================================== *)

(** [a < b] on numbers, as a boolean. *)
Definition Qltb (a b : Q) : bool := negb (Qle_bool b a).

(** The loop of [wrapLines] over the remaining [words], with the lines
    pushed so far and the line under construction.  [measureText t] stands
    for [ctx.measureText(t).width]. *)
Fixpoint wrap_loop (measureText : jsstring -> Q) (maxWidth : Q)
         (words : list jsstring) (lines : list jsstring) (line : jsstring)
  : list jsstring * jsstring :=
  match words with
  | [] => (lines, line)
  | word :: rest =>
      let tentative := if truthy line then line ++ 32%N :: word else word in
      if Qltb maxWidth (measureText tentative) && truthy line
      then wrap_loop measureText maxWidth rest (lines ++ [line]) word
      else wrap_loop measureText maxWidth rest lines tentative
  end.

Definition wrapLines (measureText : jsstring -> Q) (text : jsstring)
           (maxWidth : Q) : list jsstring :=
  let words := split_runs is_white_space text in
  let '(lines, line) := wrap_loop measureText maxWidth words [] [] in
  if truthy line then lines ++ [line] else lines.

(** The whitespace-separated words of a text. *)
Definition words_of (text : jsstring) : list jsstring :=
  fields is_white_space text.

(** A line is acceptable when it fits or is one of the given words. *)
Definition fits_or_word (measureText : jsstring -> Q) (maxWidth : Q)
           (all : list jsstring) (l : jsstring) : Prop :=
  measureText l <= maxWidth \/ In l all.

(** A text measure for examples: one unit of width per code unit. *)
Definition unit_width (s : jsstring) : Q := inject_Z (Z.of_nat (length s)).

(* ===================================================================== *)
(** ** Frame compositor: the opacity formulas *)
(* ===================================================================== *)

Section Compositor.
Local Open Scope R_scope.

(** [Math.sin(Math.PI * Math.min(p, 1 - p))] *)
Definition titleOpacity (sliceProgress : R) : R :=
  sin (PI * Rmin sliceProgress (1 - sliceProgress)).

(** [Math.max(0.2, titleOpacity)], the value written to [ctx.globalAlpha]
    for the title. *)
Definition titleAlpha (sliceProgress : R) : R :=
  Rmax 0.2 (titleOpacity sliceProgress).

(** The value written to [ctx.globalAlpha] for caption line [lineIndex]
    of [lineCount]: [alpha] clamped below at 0, then at 0.15. *)
Definition lineAlpha (sliceProgress : R) (lineCount lineIndex : nat) : R :=
  let alpha :=
    Rmax 0
         (1 - Rabs (sliceProgress
                    - INR lineIndex / Rmax 1 (INR lineCount - 1)) * 2.4) in
  Rmax alpha 0.15.

Definition oscillation (sliceProgress : R) : R :=
  sin (sliceProgress * PI * 2).

Definition satelliteCount : nat := 6.

Definition satelliteAngle (sliceProgress : R) (i : nat) : R :=
  sliceProgress * PI * 2 + (INR i / INR satelliteCount) * PI * 2.

(** The alpha component interpolated into the satellite's
    [rgba(255,255,255,...)] fill style.  Nothing is applied to it between
    the computation and the string. *)
Definition satelliteOpacity (sliceProgress : R) (i : nat) : R :=
  0.3 + 0.4 * sin (satelliteAngle sliceProgress i + oscillation sliceProgress).

(** Every assignment to [ctx.globalAlpha] during one frame, in program
    order: title, reset for the watermark, one per caption line, the orbit
    ring, the satellites, the reset that closes the frame. *)
Definition globalAlpha_writes (sliceProgress : R) (lineCount : nat) : list R :=
  [titleAlpha sliceProgress; 1]
    ++ map (lineAlpha sliceProgress lineCount) (seq 0 lineCount)
    ++ [0.4; 0.9; 1].

Definition unit_interval (x : R) : Prop := 0 <= x <= 1.

(** Every alpha component that goes into a fill or stroke style during one
    frame: the wave bands, the title, the watermark, the caption, the orbit
    ring, then the six satellites. *)
Definition style_alphas (sliceProgress : R) : list R :=
  [0.08; 0.8; 0.04; 0.9; 0.35]
    ++ map (satelliteOpacity sliceProgress) (seq 0 satelliteCount).

End Compositor.

(* ===================================================================== *)
(** ** Render driver *)
(* ===================================================================== *)

Record GenerationSettings : Type := mkSettings {
  fps : Q;
  segmentSeconds : Q;
  style : VisualStyle
}.

(** What the driver needs of the canvas: its width, whether a 2D context
    can be had, and the text measure of that context. *)
Record Canvas : Type := mkCanvas {
  width : Q;
  context_available : bool;
  measureText : jsstring -> Q
}.

(** What one turn of the loop derives and draws. *)
Record Frame : Type := mkFrame {
  sliceIndex : Z;
  sliceProgress : Q;
  slice : TimelineSlice;
  colors : gradient;
  lines : list jsstring
}.

Record RenderLog : Type := mkLog {
  frames : list Frame;
  reports : list Q      (* the arguments of [onProgress], in order *)
}.

Section Driver.
Local Open Scope Q_scope.

(** Rounding toward zero, and the remainder [a % b] that goes with it.
    The loop never takes a remainder by zero: with no frames per scene the
    total is zero and no turn is made. *)
Definition Qtrunc (q : Q) : Z :=
  if Qle_bool 0 q then Qfloor q else Qceiling q.

Definition js_rem (a b : Q) : Q := a - b * inject_Z (Qtrunc (a / b)).

(** [timeline[i]] for a number [i] that is an integer. *)
Definition array_get {A : Type} (l : list A) (i : Z) : option A :=
  if (i <? 0)%Z then None else nth_error l (Z.to_nat i).

Definition segmentFrames (settings : GenerationSettings) : Q :=
  fps settings * segmentSeconds settings.

Definition totalFrames (settings : GenerationSettings)
           (timeline : list TimelineSlice) : Q :=
  segmentFrames settings * inject_Z (Z.of_nat (length timeline)).

(** The [while (currentFrame < totalFrames)] loop.  [fuel] bounds the
    number of turns; [None] means the bound was hit. *)
Fixpoint render_loop (fuel : nat) (canvas : Canvas)
         (timeline : list TimelineSlice) (segFrames total : Q)
         (currentFrame : Q) (log : RenderLog)
  : option (completion RenderLog) :=
  if Qltb currentFrame total then
    match fuel with
    | O => None
    | S fuel' =>
        let sliceIndex := Qfloor (currentFrame / segFrames) in
        let frameInSlice := js_rem currentFrame segFrames in
        let sliceProgress := frameInSlice / segFrames in
        match array_get timeline sliceIndex with
        | None =>
            Some (Throw
              "TypeError: Cannot read properties of undefined (reading 'palette')")
        | Some slice =>
            (* [drawGradientBackground] reads [colors[0]] *)
            match palette slice with
            | None =>
                Some (Throw
                  "TypeError: Cannot read properties of undefined (reading '0')")
            | Some colors =>
                let textAreaWidth := width canvas * (7 # 10) in
                let lines :=
                  wrapLines (measureText canvas) (sentence slice)
                            textAreaWidth in
                let currentFrame := currentFrame + 1 in
                render_loop fuel' canvas timeline segFrames total currentFrame
                  (mkLog (frames log
                            ++ [mkFrame sliceIndex sliceProgress slice colors
                                        lines])
                         (reports log ++ [currentFrame / total]))
            end
        end
    end
  else Some (Normal log).

(** Turns that always suffice: the loop counter grows by one from zero. *)
Definition enough_fuel (total : Q) : nat := Z.to_nat (Qceiling total).

Definition renderTimelineToVideo (canvas : Canvas)
           (timeline : list TimelineSlice) (settings : GenerationSettings)
  : option (completion RenderLog) :=
  if context_available canvas then
    let total := totalFrames settings timeline in
    render_loop (enough_fuel total) canvas timeline
                (segmentFrames settings) total 0 (mkLog [] [])
  else Some (Throw "Canvas context is not available.").

(** What [n] turns of the loop pass to [onProgress] when they start at
    [currentFrame]: the counter is incremented before it is reported. *)
Fixpoint reports_from (total : Q) (n : nat) (currentFrame : Q) : list Q :=
  match n with
  | O => []
  | S n' =>
      (currentFrame + 1) / total :: reports_from total n' (currentFrame + 1)
  end.

(** Every scene carries its gradient, as the type [TimelineSlice] of the
    source demands. *)
Definition palettes_defined (timeline : list TimelineSlice) : Prop :=
  Forall (fun sl => palette sl <> None) timeline.

(** A frame as the data model wants it: a scene of the timeline, and an
    intra-scene progress in [[0, 1)]. *)
Definition frame_ok (timeline : list TimelineSlice) (f : Frame) : Prop :=
  (0 <= sliceIndex f < Z.of_nat (length timeline))%Z
  /\ nth_error timeline (Z.to_nat (sliceIndex f)) = Some (slice f)
  /\ 0 <= sliceProgress f < 1.


End Driver.

(** A canvas and a one-scene timeline for concrete runs. *)
Definition demo_canvas : Canvas := mkCanvas 1280 true unit_width.

Definition demo_timeline : list TimelineSlice :=
  createPaletteTimeline [lit "a"] cosmic.

(** A configuration the sliders cannot produce but the types allow. *)
Definition half_second : GenerationSettings := mkSettings 1 (1 # 2) cosmic.

(* ===================================================================== *)
(** ** The page component: phase, object URLs, generate and reset *)
(* ===================================================================== *)

Module Page.

Inductive GenerationPhase : Type :=
  idle | preparing | rendering | encoding | complete | error.

(** An object URL, by the serial number the browser gave it. *)
Definition url := nat.

(** The [useState] cells of [Home] that the handlers write. *)
Record state : Type := mkState {
  phase : GenerationPhase;
  progress : Q;
  errorMessage : option string;
  videoUrl : option url
}.

Inductive url_call : Type :=
| revokeObjectURL (u : url)
| createObjectURL (u : url).

(** The component between two user events: the state cells, whether the
    prompt yields a sentence ([canGenerate]), the [videoUrl] that the
    cleanup of the installed effect closed over, and the calls made to
    the browser's URL registry so far. *)
Record component : Type := mkComponent {
  cells : state;
  canGenerate : bool;
  effect_videoUrl : option url;
  url_calls : list url_call
}.

(** What a handler does, in program order.  [await] marks a point where
    the handler is suspended and React commits the pending updates. *)
Inductive action : Type :=
| setVideoUrl (v : option url)
| setError (e : option string)
| setPhase (p : GenerationPhase)
| setProgress (q : Q)
| call (c : url_call)
| await.

(** How the environment answers one run of [handleGenerate]. *)
Inductive outcome : Type :=
| NoMediaRecorder                 (* [window.MediaRecorder] missing *)
| NoMimeType                      (* [pickMimeType()] gave null *)
| NoCanvas                        (* [canvasRef.current] is null *)
| NoContext                       (* [getContext("2d")] gave null *)
| RecordingFailed (msg : string)  (* [recorder.onerror] rejected the promise *)
| Encoded (fresh : url).          (* [createObjectURL(blob)] gave [fresh] *)

Open Scope string_scope.

Definition catch (msg : string) : list action :=
  [setPhase error; setError (Some msg)].

(** One [onProgress] call and the [await sleep(...)] after it. *)
Definition frame_actions (report : Q) : list action :=
  [setProgress report; await].

(** [handleGenerate], as seen by the render in which [videoUrl] had the
    given value; [frame_reports] are the driver's progress reports. *)
Definition handleGenerate (can : bool) (videoUrl : option url)
           (frame_reports : list Q) (o : outcome) : list action :=
  if negb can then [] else
    [setVideoUrl None; setError None; setPhase preparing; setProgress 0%Q]
    ++ match videoUrl with
       | Some u => [call (revokeObjectURL u); setVideoUrl None]
       | None => []
       end
    ++ match o with
       | NoMediaRecorder =>
           catch "MediaRecorder is not available in this environment."
       | NoMimeType =>
           catch "No supported video MIME type found for this browser."
       | NoCanvas =>
           catch "The rendering surface could not be prepared."
       | NoContext =>
           setPhase rendering :: catch "Canvas context is not available."
       | RecordingFailed msg =>
           setPhase rendering :: flat_map frame_actions frame_reports
           ++ [setPhase encoding; await] ++ catch msg
       | Encoded fresh =>
           setPhase rendering :: flat_map frame_actions frame_reports
           ++ [setPhase encoding; await;
               setPhase complete; setProgress 1%Q;
               call (createObjectURL fresh); setVideoUrl (Some fresh)]
       end.

Close Scope string_scope.

Definition reset : list action :=
  [setVideoUrl None; setProgress 0%Q; setPhase idle; setError None].

Definition url_eqb (a b : option url) : bool :=
  match a, b with
  | None, None => true
  | Some x, Some y => Nat.eqb x y
  | _, _ => false
  end.

(** React commits a render: the effect depends on [[videoUrl]], so when
    that cell differs from the value the installed effect saw, the old
    cleanup runs (revoking its URL if it had one) and the effect is
    installed again for the new value. *)
Definition commit (c : component) : component :=
  if url_eqb (effect_videoUrl c) (videoUrl (cells c)) then c
  else
    mkComponent (cells c) (canGenerate c) (videoUrl (cells c))
      (url_calls c
         ++ match effect_videoUrl c with
            | Some u => [revokeObjectURL u]
            | None => []
            end).

Definition exec (c : component) (a : action) : component :=
  let s := cells c in
  let with_cells s' :=
    mkComponent s' (canGenerate c) (effect_videoUrl c) (url_calls c) in
  match a with
  | setVideoUrl v =>
      with_cells (mkState (phase s) (progress s) (errorMessage s) v)
  | setError e =>
      with_cells (mkState (phase s) (progress s) e (videoUrl s))
  | setPhase p =>
      with_cells (mkState p (progress s) (errorMessage s) (videoUrl s))
  | setProgress q =>
      with_cells (mkState (phase s) q (errorMessage s) (videoUrl s))
  | call k =>
      mkComponent s (canGenerate c) (effect_videoUrl c) (url_calls c ++ [k])
  | await => commit c
  end.

Definition exec_all (c : component) (l : list action) : component :=
  fold_left exec l c.

Inductive event : Type :=
| Generate (frame_reports : list Q) (o : outcome)
| Reset.

(** The Render button is disabled while [!canGenerate] or while the phase
    is [rendering] or [encoding]. *)
Definition button_enabled (c : component) : bool :=
  canGenerate c
  && match phase (cells c) with
     | rendering | encoding => false
     | _ => true
     end.

Definition handler (c : component) (e : event) : list action :=
  match e with
  | Generate frame_reports o =>
      if button_enabled c
      then handleGenerate (canGenerate c) (videoUrl (cells c)) frame_reports o
      else []
  | Reset => reset
  end.

(** A user event handled to its end, followed by the commit of whatever
    it left pending. *)
Definition handle (c : component) (e : event) : component :=
  commit (exec_all c (handler c e)).

(** The phases written by a list of actions, in order. *)
Definition phase_writes (l : list action) : list GenerationPhase :=
  flat_map (fun a => match a with setPhase p => [p] | _ => [] end) l.

(** The phase history of a session: every value the cell takes. *)
Fixpoint phase_history (c : component) (es : list event)
  : list GenerationPhase :=
  match es with
  | [] => []
  | e :: rest => phase_writes (handler c e) ++ phase_history (handle c e) rest
  end.

(** Consecutive pairs of a history that starts in phase [p]. *)
Fixpoint transitions (p : GenerationPhase) (h : list GenerationPhase)
  : list (GenerationPhase * GenerationPhase) :=
  match h with
  | [] => []
  | q :: r => (p, q) :: transitions q r
  end.

Definition initial (can : bool) : component :=
  mkComponent (mkState idle 0%Q None None) can None [].

(** The chain of the specification. *)
Definition next_stage (p : GenerationPhase) : option GenerationPhase :=
  match p with
  | idle => Some preparing
  | preparing => Some rendering
  | rendering => Some encoding
  | encoding => Some complete
  | complete | error => None
  end.

Definition phase_eqb (a b : GenerationPhase) : bool :=
  match a, b with
  | idle, idle | preparing, preparing | rendering, rendering
  | encoding, encoding | complete, complete | error, error => true
  | _, _ => false
  end.

(** A transition the specification's state machine has: one step along
    the chain, or into [error] from a phase other than [idle]. *)
Definition on_chain (t : GenerationPhase * GenerationPhase) : bool :=
  let '(a, b) := t in
  match next_stage a with
  | Some b' => phase_eqb b b'
  | None => false
  end
  || (negb (phase_eqb a idle) && phase_eqb b error).

(** The other transitions the handlers make by construction: [reset]
    writes [idle] whatever the phase, and a new run starts with
    [preparing] from where the previous one ended. *)
Definition by_reset_or_restart (t : GenerationPhase * GenerationPhase)
  : bool :=
  let '(a, b) := t in
  phase_eqb b idle
  || (phase_eqb b preparing && (phase_eqb a complete || phase_eqb a error)).

(** The phases one run writes after [preparing], by outcome. *)
Definition run_phases (o : outcome) : list GenerationPhase :=
  match o with
  | NoMediaRecorder | NoMimeType | NoCanvas => [error]
  | NoContext => [rendering; error]
  | RecordingFailed _ => [rendering; encoding; error]
  | Encoded _ => [rendering; encoding; complete]
  end.

(** Where a handler leaves the phase. *)
Definition at_rest (p : GenerationPhase) : Prop :=
  p = idle \/ p = complete \/ p = error.

Definition expected (t : GenerationPhase * GenerationPhase) : Prop :=
  on_chain t || by_reset_or_restart t = true.

(** The part of the component that object URLs depend on: the
    [videoUrl] cell, the value the installed effect saw, the calls made;
    and what an action does to it. *)
Definition url_view : Type :=
  (option url * option url * list url_call)%type.

Definition urls (c : component) : url_view :=
  (videoUrl (cells c), effect_videoUrl c, url_calls c).

Definition commit_urls (t : url_view) : url_view :=
  let '(v, e, calls) := t in
  if url_eqb e v then t
  else (v, v, calls ++ match e with
                       | Some u => [revokeObjectURL u]
                       | None => []
                       end).

Definition exec_urls (t : url_view) (a : action) : url_view :=
  let '(v, e, calls) := t in
  match a with
  | setVideoUrl v' => (v', e, calls)
  | call k => (v, e, calls ++ [k])
  | await => commit_urls t
  | setError _ | setPhase _ | setProgress _ => t
  end.

(** Number of revocations of [u] among the calls. *)
Definition revocations (u : url) (l : list url_call) : nat :=
  length (filter (fun k => match k with
                           | revokeObjectURL v => Nat.eqb u v
                           | createObjectURL _ => false
                           end) l).

(** The calls made before the first [createObjectURL]. *)
Fixpoint before_create (l : list url_call) : list url_call :=
  match l with
  | [] => []
  | createObjectURL _ :: _ => []
  | k :: r => k :: before_create r
  end.

End Page.

(* ===================================================================== *)
(** ** Further parts of the page source *)
(* ===================================================================== *)

(** [canGenerate = sentences.length > 0] for the prompt in the text area. *)
Definition canGenerate_of (prompt : jsstring) : bool :=
  match splitSentences prompt with
  | [] => false
  | _ :: _ => true
  end.

(** A unit that can never be part of a sentence: a sentence terminator or
    white space. *)
Definition is_filler (c : code_unit) : bool :=
  is_sentence_sep c || is_white_space c.

(** [parts.join(d)] for a one-unit delimiter [d]. *)
Fixpoint join_unit (d : code_unit) (parts : list jsstring) : jsstring :=
  match parts with
  | [] => []
  | [x] => x
  | x :: r => x ++ d :: join_unit d r
  end.

(** What the segmenter returns: a non-empty text without terminators and
    without white space at either end. *)
Definition is_sentence (p : jsstring) : Prop :=
  p <> [] /\ sep_free is_sentence_sep p /\ edges_clean p.

(** Consecutive pairs of a list. *)
Definition adjacent {A : Type} (l : list A) : list (A * A) :=
  combine l (tl l).

(** [b] begins with the word [w], alone or followed by a blank. *)
Definition starts_with_word (w b : jsstring) : Prop :=
  b = w \/ exists rest, b = w ++ 32%N :: rest.

(** Why the wrap broke between the lines [a] and [b]: [b] begins with a
    word of the text that no longer went onto [a]. *)
Definition forced_break (measureText : jsstring -> Q) (maxWidth : Q)
           (all : list jsstring) (ab : jsstring * jsstring) : Prop :=
  exists w, In w all /\ starts_with_word w (snd ab)
            /\ maxWidth < measureText (fst ab ++ 32%N :: w).

(** The first unit of [l] is not white space. *)
Definition starts_clean (l : jsstring) : Prop :=
  match l with
  | [] => False
  | c :: _ => is_white_space c = false
  end.

(** The text width handed to [wrapLines] for a canvas. *)
Definition textAreaWidth (canvas : Canvas) : Q := width canvas * (7 # 10).

(** What the frame drawn at counter value [m] holds. *)
Definition frame_of_counter (canvas : Canvas) (timeline : list TimelineSlice)
           (segFrames : Q) (m : Z) (f : Frame) : Prop :=
  sliceIndex f = Qfloor (inject_Z m / segFrames)
  /\ (sliceProgress f == js_rem (inject_Z m) segFrames / segFrames)%Q
  /\ nth_error timeline (Z.to_nat (sliceIndex f)) = Some (slice f)
  /\ palette (slice f) = Some (colors f)
  /\ lines f = wrapLines (measureText canvas) (sentence (slice f))
                         (textAreaWidth canvas).

(* ===================================================================== *)
(** ** Numbers as the engine has them: IEEE 754 binary64 *)
(* ===================================================================== *)

(** A JavaScript number is a binary64 double, and every arithmetic
    operation returns the double nearest to the exact result, a tie going
    to the even significand.  [f64] is that rounding, on the exact value of
    the result: 53 bits of precision, the last bit never below [2 ^ -1074]
    (gradual underflow).  Results whose magnitude reaches [2 ^ 1024], which
    the engine turns into an infinity, are not covered; whatever is stated
    with [f64] below keeps its numbers far under that. *)
Module Binary64.
Local Open Scope Q_scope.

Definition pow2 (e : Z) : Q := Qpower 2 e.

(** The binary exponent of a positive [q]:
    [2 ^ ilog2 q <= q < 2 ^ (ilog2 q + 1)]. *)
Definition ilog2 (q : Q) : Z :=
  let e := (Z.log2 (Qnum q) - Z.log2 (Zpos (Qden q)))%Z in
  if Qle_bool (pow2 e) q then e else (e - 1)%Z.

(** The nearest integer, a half going to the even neighbour. *)
Definition round_half_even (q : Q) : Z :=
  let f := Qfloor q in
  match Qcompare (q - inject_Z f) (1 # 2) with
  | Lt => f
  | Gt => (f + 1)%Z
  | Eq => if Z.even f then f else (f + 1)%Z
  end.

(** The exponent of the last bit of the doubles around a positive [q]. *)
Definition quantum (q : Q) : Z := Z.max (ilog2 q - 52) (-1074).

Definition round_pos (q : Q) : Q :=
  let c := quantum q in inject_Z (round_half_even (q / pow2 c)) * pow2 c.

Definition f64 (q : Q) : Q :=
  Qred match Qcompare q 0 with
       | Eq => 0
       | Gt => round_pos q
       | Lt => - round_pos (- q)
       end.

(** The value of one of the kernel's own binary64 numbers, to compare
    [f64] with. *)
Definition Q_of_float (x : PrimFloat.float) : option Q :=
  match FloatOps.Prim2SF x with
  | SpecFloat.S754_zero _ => Some 0
  | SpecFloat.S754_finite s m e =>
      Some (Qred ((if s then - (1) else 1) * inject_Z (Zpos m) * pow2 e))
  | _ => None
  end.

End Binary64.

(* ===================================================================== *)
(** ** Render driver, in the engine's arithmetic *)
(* ===================================================================== *)

(** [renderTimelineToVideo] once more, every product, quotient and sum
    rounded as the engine rounds it.  [<] compares exactly, [Math.floor]
    of a double is exact, and so is [%] (the remainder of two doubles is a
    double).  The settings and the text measure are doubles to begin with;
    the canvas width is an integer. *)
Module Doubles.
Import Binary64.
Local Open Scope Q_scope.

Definition segmentFrames (settings : GenerationSettings) : Q :=
  f64 (fps settings * segmentSeconds settings).

Definition totalFrames (settings : GenerationSettings)
           (timeline : list TimelineSlice) : Q :=
  f64 (segmentFrames settings * inject_Z (Z.of_nat (length timeline))).

(** [canvas.width * 0.7], the literal being the double nearest 7/10. *)
Definition textAreaWidth (canvas : Canvas) : Q :=
  f64 (width canvas * f64 (7 # 10)).

Fixpoint render_loop (fuel : nat) (canvas : Canvas)
         (timeline : list TimelineSlice) (segFrames total : Q)
         (currentFrame : Q) (log : RenderLog)
  : option (completion RenderLog) :=
  if Qltb currentFrame total then
    match fuel with
    | O => None
    | S fuel' =>
        let sliceIndex := Qfloor (f64 (currentFrame / segFrames)) in
        let frameInSlice := js_rem currentFrame segFrames in
        let sliceProgress := f64 (frameInSlice / segFrames) in
        match array_get timeline sliceIndex with
        | None =>
            Some (Throw
              "TypeError: Cannot read properties of undefined (reading 'palette')")
        | Some slice =>
            match palette slice with
            | None =>
                Some (Throw
                  "TypeError: Cannot read properties of undefined (reading '0')")
            | Some colors =>
                let lines :=
                  wrapLines (measureText canvas) (sentence slice)
                            (textAreaWidth canvas) in
                let currentFrame := f64 (currentFrame + 1) in
                render_loop fuel' canvas timeline segFrames total currentFrame
                  (mkLog (frames log
                            ++ [mkFrame sliceIndex sliceProgress slice colors
                                        lines])
                         (reports log ++ [f64 (currentFrame / total)]))
            end
        end
    end
  else Some (Normal log).

(** The counter grows by one a turn as long as it stays below [2 ^ 53], so
    a loop that ends does so within [ceiling total] turns; [None] is a loop
    that has not ended by then. *)
Definition renderTimelineToVideo (canvas : Canvas)
           (timeline : list TimelineSlice) (settings : GenerationSettings)
  : option (completion RenderLog) :=
  if context_available canvas then
    let total := totalFrames settings timeline in
    render_loop (enough_fuel total) canvas timeline
                (segmentFrames settings) total 0 (mkLog [] [])
  else Some (Throw "Canvas context is not available.").

End Doubles.

(** [Math.round(progress * 100)], the percentage under the progress bar:
    the product is rounded to a double, and [Math.round] takes the nearest
    integer of that double, a half going upward. *)
Definition percent (progress : Q) : Z :=
  Qfloor (Binary64.f64 (progress * 100) + (1 # 2)).

(** What the frame drawn at counter value [k] holds when a scene has the
    whole number [F] of frames. *)
Definition double_frame (canvas : Canvas) (timeline : list TimelineSlice)
           (F k : Z) (f : Frame) : Prop :=
  sliceIndex f = (k / F)%Z
  /\ sliceProgress f
     = Binary64.f64 (inject_Z (k mod F) / inject_Z F)
  /\ nth_error timeline (Z.to_nat (k / F)) = Some (slice f)
  /\ palette (slice f) = Some (colors f)
  /\ lines f = wrapLines (measureText canvas) (sentence (slice f))
                         (Doubles.textAreaWidth canvas).

(** The reports of the turns that start at counter values [k], [k + 1],
    ..., [k + n - 1] of a run of [N] frames. *)
Definition double_reports (N : Z) (n : nat) (k : Z) : list Q :=
  map (fun i => Binary64.f64 (inject_Z (k + 1 + Z.of_nat i) / inject_Z N))
      (seq 0 n).

(** Five scenes, and settings that are positive but not whole: 30.5 frames
    per second and the literal [0.4] seconds per scene. *)
Definition five_scenes : list TimelineSlice :=
  createPaletteTimeline [lit "a"; lit "b"; lit "c"; lit "d"; lit "e"] cosmic.

Definition off_whole : GenerationSettings :=
  mkSettings (61 # 2) (Binary64.f64 (2 # 5)) cosmic.

(* ===================================================================== *)
(** ** Frame compositor: geometry *)
(* ===================================================================== *)

Section Geometry.
Local Open Scope R_scope.

(** Rounding toward zero on the reals, and the remainder [a % b]. *)
Definition Rtrunc (x : R) : Z :=
  if Rle_dec 0 x then Int_part x else (- Int_part (- x))%Z.

Definition js_fmod (a b : R) : R := a - b * IZR (Rtrunc (a / b)).

Definition waveCount : nat := 4.
Definition segments : nat := 8.

(** [drawGradientBackground]: the quantities of wave band [i]. *)
Definition wave_offset (phase : R) (i : nat) : R :=
  js_fmod (phase + INR i * 0.5) (2 * PI).

Definition wave_amplitude (height : R) (i : nat) : R :=
  height * 0.08 * (1 - INR i * 0.15).

Definition wave_baseline (height : R) (i : nat) : R :=
  height * 0.15 * (INR i + 1).

(** The point of the [s]-th [lineTo] of the inner loop. *)
Definition wave_sample (width height phase : R) (i s : nat) : R * R :=
  (INR s / INR segments * width,
   wave_baseline height i
   + sin (wave_offset phase i + INR s / INR segments * PI * 2)
     * wave_amplitude height i).

(** The closed path of band [i]: [moveTo], the nine samples, the two lower
    corners. *)
Definition wave_path (width height phase : R) (i : nat) : list (R * R) :=
  (0, height * 0.2 * (INR i + 1))
    :: map (wave_sample width height phase i) (seq 0 (S segments))
    ++ [(width, height); (0, height)].

Definition wave_paths (width height phase : R) : list (list (R * R)) :=
  map (wave_path width height phase) (seq 0 waveCount).

Definition in_canvas (width height : R) (pt : R * R) : Prop :=
  0 <= fst pt <= width /\ 0 <= snd pt <= height.

(** The orbit: [orbitRadius], the centre of satellite [i], the radius of
    its dot. *)
Definition orbitRadius (height : R) : R := height * 0.42.

Definition satellite_center (width height sliceProgress : R) (i : nat)
  : R * R :=
  (width / 2 + cos (satelliteAngle sliceProgress i) * orbitRadius height,
   height / 2 + sin (satelliteAngle sliceProgress i) * orbitRadius height).

Definition satellite_radius (height : R) : R := height * 0.012.

(** The caption block: the vertical position of line [lineIndex] of
    [lineCount]. *)
Definition displacement (height sliceProgress : R) : R :=
  sin (sliceProgress * PI) * height * 0.03.

Definition lineY (height sliceProgress : R) (lineCount lineIndex : nat) : R :=
  let centerY := height / 2 in
  let lineHeight := height * 0.1 in
  let totalHeight := lineHeight * INR lineCount in
  centerY - totalHeight / 2 + INR lineIndex * lineHeight
  + displacement height sliceProgress
    * (INR lineIndex - (INR lineCount - 1) / 2).

(** The moment at which caption line [lineIndex] is in focus. *)
Definition line_moment (lineCount lineIndex : nat) : R :=
  INR lineIndex / Rmax 1 (INR lineCount - 1).

End Geometry.

(* ===================================================================== *)
(** ** The page component: sessions, cells and the environment *)
(* ===================================================================== *)

(** The effect installed by the last commit saw the current [videoUrl]. *)
Definition settled (c : Page.component) : Prop :=
  Page.effect_videoUrl c = Page.videoUrl (Page.cells c).

(** A session: user events handled one after the other. *)
Definition run_events (c : Page.component) (es : list Page.event)
  : Page.component :=
  fold_left Page.handle es c.

Definition created (u : Page.url) (c : Page.component) : Prop :=
  In (Page.createObjectURL u) (Page.url_calls c).

Definition revoked (u : Page.url) (c : Page.component) : Prop :=
  In (Page.revokeObjectURL u) (Page.url_calls c).

(** The browser hands out a new object URL at every creation. *)
Fixpoint fresh_urls (c : Page.component) (es : list Page.event) : Prop :=
  match es with
  | [] => True
  | e :: rest =>
      match e with
      | Page.Generate _ (Page.Encoded u) => ~ created u c
      | _ => True
      end
      /\ fresh_urls (Page.handle c e) rest
  end.

(** What holds of the object URLs between two events. *)
Definition url_discipline (c : Page.component) : Prop :=
  settled c
  /\ (forall u, Page.videoUrl (Page.cells c) = Some u ->
                created u c /\ ~ revoked u c)
  /\ (forall u, created u c ->
                Page.videoUrl (Page.cells c) = Some u \/ revoked u c)
  /\ (forall u, revoked u c -> created u c).

(** What an action does to the state cells. *)
Definition exec_cells (s : Page.state) (a : Page.action) : Page.state :=
  match a with
  | Page.setVideoUrl v =>
      Page.mkState (Page.phase s) (Page.progress s) (Page.errorMessage s) v
  | Page.setError e =>
      Page.mkState (Page.phase s) (Page.progress s) e (Page.videoUrl s)
  | Page.setPhase p =>
      Page.mkState p (Page.progress s) (Page.errorMessage s) (Page.videoUrl s)
  | Page.setProgress q =>
      Page.mkState (Page.phase s) q (Page.errorMessage s) (Page.videoUrl s)
  | Page.call _ | Page.await => s
  end.

(** The message a failed run shows. *)
Definition failure_message (o : Page.outcome) : option string :=
  match o with
  | Page.NoMediaRecorder =>
      Some "MediaRecorder is not available in this environment."%string
  | Page.NoMimeType =>
      Some "No supported video MIME type found for this browser."%string
  | Page.NoCanvas =>
      Some "The rendering surface could not be prepared."%string
  | Page.NoContext => Some "Canvas context is not available."%string
  | Page.RecordingFailed msg => Some msg
  | Page.Encoded _ => None
  end.

(** A failure before the first frame: one of the environment checks. *)
Definition before_first_frame (o : Page.outcome) : bool :=
  match o with
  | Page.NoMediaRecorder | Page.NoMimeType | Page.NoCanvas | Page.NoContext =>
      true
  | _ => false
  end.

(** The progress values a list of actions writes, in order. *)
Definition progress_writes (l : list Page.action) : list Q :=
  flat_map (fun a => match a with Page.setProgress q => [q] | _ => [] end) l.

(** [pickMimeType]: the candidates in order of preference, and the first
    one the recorder supports, if the page runs in a window at all. *)
Definition candidates : list string :=
  ["video/webm;codecs=vp9"; "video/webm;codecs=vp8"; "video/webm";
   "video/mp4"]%string.

Definition pickMimeType (window_defined : bool)
           (isTypeSupported : string -> bool) : option string :=
  if window_defined then find isTypeSupported candidates else None.

(** [String(n).padStart(2, "0")] for a natural number [n]: its decimal
    digits, with zeros in front up to two characters. *)
Definition decimal (n : nat) : string :=
  NilEmpty.string_of_uint (Nat.to_uint n).

Fixpoint zeros (k : nat) (s : string) : string :=
  match k with
  | O => s
  | S k' => String "0" (zeros k' s)
  end.

Definition padStart2 (s : string) : string :=
  zeros (2 - String.length s) s.

(** The label of a scene, [String(index + 1).padStart(2, "0")], in the
    timeline list and as the watermark of a frame. *)
Definition scene_label (index : nat) : string :=
  padStart2 (decimal (index + 1)).

(** Reading a label back as a number. *)
Definition label_number (s : string) : option nat :=
  option_map Nat.of_uint (NilEmpty.uint_of_string s).

(* ===================================================================== *)
(** * Properties *)
(* ===================================================================== *)

(** ** Strings *)

Section StringFacts.

Variable sep : code_unit -> bool.

Lemma truthy_iff (s : jsstring) : truthy s = true <-> s <> [].
Proof. destruct s; simpl; split; congruence. Qed.

Lemma trim_nil : trim [] = [].
Proof. reflexivity. Qed.

(** Trimming commutes with discarding the empty pieces first. *)
Lemma filter_trim_filter (l : list jsstring) :
  filter truthy (map trim (filter truthy l)) = filter truthy (map trim l).
Proof.
  induction l as [|p l IH]; simpl; [reflexivity|].
  destruct p as [|c p]; simpl.
  - exact IH.
  - now rewrite IH.
Qed.

Lemma prepend_cons_unit (p : jsstring) (c : code_unit) (l : list jsstring) :
  prepend (p ++ [c]) l = prepend p (cons_unit c l).
Proof.
  destruct l as [|x xs]; simpl; [reflexivity|].
  now rewrite <- app_assoc.
Qed.

(** The regular-expression split and the unit-by-unit split differ only in
    empty pieces. *)
Lemma split_go_each (s : jsstring) :
  (forall cur, filter truthy (split_go sep false cur s)
               = filter truthy (prepend (rev cur) (split_each sep s)))
  /\ filter truthy (split_go sep true [] s)
     = filter truthy (split_each sep s).
Proof.
  induction s as [|c r [IHf IHt]]; simpl.
  - split; [intros cur; now rewrite app_nil_r | reflexivity].
  - destruct (sep c) eqn:Hc; simpl.
    + split; [intros cur; rewrite app_nil_r | exact IHt].
      now rewrite IHt.
    + split.
      * intros cur. rewrite IHf. simpl. now rewrite prepend_cons_unit.
      * rewrite IHf. simpl.
        now destruct (split_each sep r).
Qed.

Lemma split_runs_fields (s : jsstring) :
  filter truthy (split_runs sep s) = fields sep s.
Proof.
  unfold split_runs, fields.
  destruct (split_go_each s) as [Hf _]. rewrite Hf. simpl.
  now destruct (split_each sep s).
Qed.

(** No piece of a split holds a separator. *)
Lemma split_go_sep_free (s : jsstring) : forall b cur,
  Forall (fun c => sep c = false) cur ->
  Forall (Forall (fun c => sep c = false)) (split_go sep b cur s).
Proof.
  induction s as [|c r IH]; intros b cur Hcur; simpl.
  - constructor; [|constructor]. now apply Forall_rev.
  - destruct (sep c) eqn:Hc.
    + destruct b.
      * now apply IH.
      * constructor; [now apply Forall_rev | apply IH; constructor].
    + apply IH. now constructor.
Qed.

Lemma drop_while_Forall (P : code_unit -> Prop) f (s : jsstring) :
  Forall P s -> Forall P (drop_while f s).
Proof.
  induction 1 as [|c r Hc Hr IH]; simpl; [constructor|].
  destruct (f c); [exact IH | now constructor].
Qed.

Lemma trim_Forall (P : code_unit -> Prop) (s : jsstring) :
  Forall P s -> Forall P (trim s).
Proof.
  intros H. unfold trim.
  apply Forall_rev, drop_while_Forall, Forall_rev, drop_while_Forall, H.
Qed.

Lemma drop_while_all f (s : jsstring) :
  forallb f s = true -> drop_while f s = [].
Proof.
  induction s as [|c r IH]; simpl; [reflexivity|].
  destruct (f c); simpl; [exact IH | discriminate].
Qed.

Lemma trim_all_white (s : jsstring) : all_white s = true -> trim s = [].
Proof.
  intros H. unfold trim. now rewrite (drop_while_all _ _ H).
Qed.

(** A piece cut out of an all-whitespace text is all whitespace. *)
Lemma split_go_all_white (s : jsstring) : forall b cur,
  all_white cur = true -> all_white s = true ->
  Forall (fun p => all_white p = true) (split_go sep b cur s).
Proof.
  unfold all_white.
  induction s as [|c r IH]; intros b cur Hcur Hs; simpl in *.
  - constructor; [|constructor].
    rewrite forallb_forall in *. intros x Hx. apply Hcur.
    now apply in_rev.
  - apply andb_prop in Hs as [Hc Hr].
    destruct (sep c).
    + destruct b; [now apply IH|].
      constructor; [|now apply IH].
      rewrite forallb_forall in *. intros x Hx. apply Hcur.
      now apply in_rev.
    + apply IH; [simpl; now rewrite Hc | exact Hr].
Qed.

End StringFacts.

(** ** Sentence segmenter *)

Lemma splitSentences_refines (s : jsstring) :
  splitSentences s = segment_spec s.
Proof.
  unfold splitSentences, segment_spec.
  rewrite <- split_runs_fields.
  now rewrite filter_trim_filter.
Qed.

Lemma splitSentences_pieces (s : jsstring) :
  Forall (fun p => p <> [] /\ Forall (fun c => is_sentence_sep c = false) p)
         (splitSentences s).
Proof.
  unfold splitSentences, split_runs.
  apply Forall_forall. intros p Hp.
  apply filter_In in Hp as [Hp Ht].
  split; [now apply truthy_iff|].
  apply in_map_iff in Hp as [q [<- Hq]].
  apply trim_Forall.
  pose proof (split_go_sep_free is_sentence_sep s false []
                (Forall_nil _)) as H.
  rewrite Forall_forall in H. now apply H.
Qed.

Lemma splitSentences_all_white (s : jsstring) :
  all_white s = true -> splitSentences s = [].
Proof.
  intros H. unfold splitSentences, split_runs.
  pose proof (split_go_all_white is_sentence_sep s false []
                eq_refl H) as Hall.
  induction Hall as [|p l Hp _ IH]; simpl; [reflexivity|].
  now rewrite (trim_all_white _ Hp).
Qed.

(** C3.  Segmenting splits the input at runs of period, exclamation mark,
    question mark and newline taken as single boundaries, trims each piece,
    drops the empty ones and keeps the input order: [splitSentences] equals
    the specification's [segment_spec], every sentence it returns is
    non-empty and free of separators, the example of the specification
    evaluates as stated, and an empty or whitespace-only input has no
    sentence. *)
Theorem splitSentences_segments (s : jsstring) :
  splitSentences s = segment_spec s
  /\ Forall (fun p => p <> [] /\ Forall (fun c => is_sentence_sep c = false) p)
            (splitSentences s)
  /\ splitSentences (lit "Hello world. This is great! Really?")
     = [lit "Hello world"; lit "This is great"; lit "Really"]
  /\ splitSentences [] = []
  /\ (all_white s = true -> splitSentences s = []).
Proof.
  split; [apply splitSentences_refines|].
  split; [apply splitSentences_pieces|].
  split; [reflexivity|].
  split; [reflexivity|].
  apply splitSentences_all_white.
Qed.

Lemma splitSentences_segments_witness :
  all_white (lit "  ") = true /\ splitSentences (lit "  ") = [].
Proof.
  split; [reflexivity|].
  exact (proj2 (proj2 (proj2 (proj2 (splitSentences_segments (lit "  ")))))
           eq_refl).
Defined.

(** ** Palettes and the timeline *)

Lemma map_indexed_length {A B : Type} (f : A -> nat -> B) (l : list A) :
  forall k, length (map_indexed f k l) = length l.
Proof.
  induction l as [|x r IH]; intros k; simpl; [reflexivity|].
  now rewrite IH.
Qed.

Lemma map_indexed_nth_error {A B : Type} (f : A -> nat -> B) (l : list A) :
  forall k i,
    nth_error (map_indexed f k l) i
    = option_map (fun x => f x (k + i)%nat) (nth_error l i).
Proof.
  induction l as [|x r IH]; intros k i; simpl.
  - now destruct i.
  - destruct i as [|i]; simpl.
    + now rewrite Nat.add_0_r.
    + rewrite IH. now rewrite Nat.add_succ_r.
Qed.

Lemma STYLE_PALETTES_length (style : VisualStyle) :
  length (STYLE_PALETTES style) = 4%nat.
Proof. now destruct style. Qed.

Lemma palette_at_defined (style : VisualStyle) (i : nat) :
  exists g, palette_at (STYLE_PALETTES style) i = Some g.
Proof.
  unfold palette_at. rewrite STYLE_PALETTES_length.
  assert (H : (i mod 4 < length (STYLE_PALETTES style))%nat).
  { rewrite STYLE_PALETTES_length. apply Nat.mod_upper_bound. discriminate. }
  apply nth_error_Some in H.
  destruct (nth_error (STYLE_PALETTES style) (i mod 4)) as [g|];
    [now exists g | contradiction].
Qed.

Lemma palette_at_cycles (style : VisualStyle) (i : nat) :
  palette_at (STYLE_PALETTES style) i
  = palette_at (STYLE_PALETTES style) (i mod length (STYLE_PALETTES style)).
Proof.
  unfold palette_at. rewrite STYLE_PALETTES_length.
  now rewrite Nat.Div0.mod_mod.
Qed.

(** C4.  The timeline has one scene per sentence: its length is the number
    of sentences, scene [i] carries sentence [i], index [i] and the entry of
    the style's palette list at position [i mod k], which always exists;
    hence the palette of scene [i] is the palette of scene [i mod k]. *)
Theorem createPaletteTimeline_scenes
        (sentences : list jsstring) (style : VisualStyle) (i : nat) :
  let palettes := STYLE_PALETTES style in
  let k := length palettes in
  length (createPaletteTimeline sentences style) = length sentences
  /\ nth_error (createPaletteTimeline sentences style) i
     = option_map (fun s => mkSlice s i (nth_error palettes (i mod k)))
                  (nth_error sentences i)
  /\ (exists g, nth_error palettes (i mod k) = Some g)
  /\ palette_at palettes i = palette_at palettes (i mod k).
Proof.
  cbv zeta. unfold createPaletteTimeline.
  split; [apply map_indexed_length|].
  split.
  - rewrite map_indexed_nth_error. simpl.
    unfold palette_at. now rewrite STYLE_PALETTES_length.
  - split; [|apply palette_at_cycles].
    destruct (palette_at_defined style i) as [g Hg].
    exists g. unfold palette_at in Hg.
    now rewrite STYLE_PALETTES_length in *.
Qed.

(** A timeline built by [createPaletteTimeline] is well formed. *)
Lemma createPaletteTimeline_palettes_defined
      (sentences : list jsstring) (style : VisualStyle) :
  palettes_defined (createPaletteTimeline sentences style).
Proof.
  unfold palettes_defined, createPaletteTimeline.
  generalize 0%nat.
  induction sentences as [|x r IH]; intros k; simpl; constructor.
  - simpl. destruct (palette_at_defined style k) as [g Hg].
    rewrite Hg. discriminate.
  - apply IH.
Qed.

(** ** Unknown style identifiers *)

Lemma style_of_key_style_key (st : VisualStyle) :
  style_of_key (style_key st) = Some st.
Proof. now destruct st. Qed.

Lemma map_indexed_no_palette (l : list jsstring) : forall k,
  Forall (fun sl => palette sl = None)
         (map_indexed (fun sentence index => mkSlice sentence index None) k l).
Proof.
  induction l as [|x r IH]; intros k; simpl; constructor; auto.
Qed.

(** C8, as stated, fails: for the identifier ["neon"], which is outside the
    enumerated set, and no sentence, the function returns the empty timeline
    instead of raising an error. *)
Lemma unknown_style_not_rejected :
  style_of_key "neon" = None
  /\ ~ (exists msg, createPaletteTimeline_erased [] "neon" = Throw msg).
Proof.
  split; [reflexivity|].
  intros [msg H]. discriminate H.
Qed.

(** C8, amended.  For each identifier of the enumeration the timeline is
    built from that style's own list.  An identifier outside it is not
    validated: when it names no inherited object member either, building
    fails with a TypeError raised in the first scene's construction if
    there is a sentence, and returns the empty timeline if there is none;
    whenever a timeline results for an unknown identifier no scene carries
    a palette, so no default style is substituted. *)
Theorem unknown_style_unvalidated (sentences : list jsstring) :
  (forall st,
      createPaletteTimeline_erased sentences (style_key st)
      = Normal (createPaletteTimeline sentences st))
  /\ (forall key,
         style_of_key key = None -> inherited_key key = false ->
         createPaletteTimeline_erased sentences key
         = match sentences with
           | [] => Normal []
           | _ :: _ =>
               Throw "TypeError: Cannot read properties of undefined (reading 'length')"
           end)
  /\ (forall key timeline,
         style_of_key key = None ->
         createPaletteTimeline_erased sentences key = Normal timeline ->
         Forall (fun sl => palette sl = None) timeline).
Proof.
  split; [|split].
  - intros st. unfold createPaletteTimeline_erased, STYLE_PALETTES_read.
    now rewrite style_of_key_style_key.
  - intros key Hk Hi.
    unfold createPaletteTimeline_erased, STYLE_PALETTES_read.
    rewrite Hk, Hi. now destruct sentences.
  - intros key timeline Hk.
    unfold createPaletteTimeline_erased, STYLE_PALETTES_read.
    rewrite Hk. destruct (inherited_key key).
    + intros H. injection H as <-. apply map_indexed_no_palette.
    + destruct sentences; intros H; [|discriminate H].
      injection H as <-. constructor.
Qed.

Lemma unknown_style_unvalidated_witness :
  createPaletteTimeline_erased [lit "a"] "neon"
  = Throw "TypeError: Cannot read properties of undefined (reading 'length')".
Proof.
  exact (proj1 (proj2 (unknown_style_unvalidated [lit "a"]))
           "neon"%string eq_refl eq_refl).
Defined.

(** ** Word wrapping *)

Section FieldFacts.

Variable sep : code_unit -> bool.

Lemma split_each_nonempty (s : jsstring) : split_each sep s <> [].
Proof.
  destruct s as [|c r]; simpl; [discriminate|].
  destruct (sep c); [discriminate|].
  now destruct (split_each sep r).
Qed.

Lemma split_each_app_sep (a b : jsstring) (c : code_unit) :
  sep c = true ->
  split_each sep (a ++ c :: b) = split_each sep a ++ split_each sep b.
Proof.
  intros Hc. unfold split_each at 1. rewrite fold_right_app. simpl.
  rewrite Hc. fold (split_each sep b).
  induction a as [|x a IH]; simpl; [reflexivity|].
  rewrite IH. destruct (sep x); [reflexivity|].
  pose proof (split_each_nonempty a) as Hne.
  now destruct (split_each sep a).
Qed.

Lemma fields_app_sep (a b : jsstring) (c : code_unit) :
  sep c = true -> fields sep (a ++ c :: b) = fields sep a ++ fields sep b.
Proof.
  intros Hc. unfold fields.
  now rewrite split_each_app_sep, filter_app.
Qed.

Lemma split_each_sep_free (w : jsstring) :
  sep_free sep w -> split_each sep w = [w].
Proof.
  induction 1 as [|c r Hc _ IH]; simpl; [reflexivity|].
  now rewrite Hc, IH.
Qed.

Lemma fields_sep_free (w : jsstring) :
  sep_free sep w -> fields sep w = filter truthy [w].
Proof.
  intros H. unfold fields. now rewrite split_each_sep_free.
Qed.

Lemma fields_are_sep_free (s w : jsstring) :
  In w (fields sep s) -> w <> [] /\ sep_free sep w.
Proof.
  rewrite <- split_runs_fields. intros H.
  apply filter_In in H as [H Ht].
  split; [now apply truthy_iff|].
  pose proof (split_go_sep_free sep s false [] (Forall_nil _)) as Hall.
  rewrite Forall_forall in Hall. now apply Hall.
Qed.

(** The pieces of a text are together no longer than the text. *)
Lemma split_each_length (s : jsstring) :
  (length (concat (split_each sep s)) <= length s)%nat.
Proof.
  induction s as [|c r IH]; simpl; [lia|].
  destruct (sep c); simpl; [lia|].
  destruct (split_each sep r) as [|p ps]; simpl in *; lia.
Qed.

Lemma field_length (s w : jsstring) :
  In w (fields sep s) -> (length w <= length s)%nat.
Proof.
  intros H. apply filter_In in H as [H _].
  pose proof (split_each_length s) as Hs.
  apply in_split in H as [l1 [l2 H]]. rewrite H in Hs.
  rewrite concat_app, length_app in Hs. simpl in Hs.
  rewrite length_app in Hs. lia.
Qed.

End FieldFacts.

Lemma space_is_white : is_white_space 32%N = true.
Proof. reflexivity. Qed.

Lemma words_of_nil : words_of [] = [].
Proof. reflexivity. Qed.

Lemma words_of_join_sp (l : list jsstring) :
  words_of (join_sp l) = flat_map words_of l.
Proof.
  induction l as [|x r IH]; [reflexivity|].
  destruct r as [|y r].
  - simpl. now rewrite app_nil_r.
  - change (join_sp (x :: y :: r)) with (x ++ 32%N :: join_sp (y :: r)).
    unfold words_of at 1.
    rewrite (fields_app_sep is_white_space _ _ _ space_is_white).
    fold (words_of (join_sp (y :: r))). now rewrite IH.
Qed.

Section WrapFacts.

Variable measure : jsstring -> Q.
Variable maxWidth : Q.

(** What the loop leaves in [tentative], word-wise. *)
Lemma words_of_tentative (line word : jsstring) :
  sep_free is_white_space word ->
  words_of (if truthy line then line ++ 32%N :: word else word)
  = words_of line ++ filter truthy [word].
Proof.
  intros Hw. destruct line as [|c line]; simpl truthy; cbv iota.
  - rewrite words_of_nil. now apply fields_sep_free.
  - unfold words_of.
    rewrite (fields_app_sep is_white_space _ _ _ space_is_white).
    now rewrite (fields_sep_free is_white_space word Hw).
Qed.

(** Loop invariant: the words placed so far followed by the words still
    to come are the words of the input. *)
Lemma wrap_loop_words (words : list jsstring) :
  Forall (sep_free is_white_space) words ->
  forall lines line,
    flat_map words_of (fst (wrap_loop measure maxWidth words lines line))
    ++ words_of (snd (wrap_loop measure maxWidth words lines line))
    = flat_map words_of lines ++ words_of line ++ filter truthy words.
Proof.
  induction 1 as [|word rest Hw _ IH]; intros lines line.
  - simpl. now rewrite app_nil_r.
  - cbn [wrap_loop]. cbv zeta.
    pose proof (words_of_tentative line word Hw) as Ht.
    destruct (Qltb maxWidth _ && truthy line).
    + assert (Hww : words_of word = filter truthy [word])
        by (apply fields_sep_free; exact Hw).
      rewrite IH, flat_map_app. simpl flat_map.
      rewrite Hww, app_nil_r, <- !app_assoc.
      change (word :: rest) with ([word] ++ rest).
      now rewrite filter_app.
    + rewrite IH. f_equal.
      transitivity ((words_of line ++ filter truthy [word])
                      ++ filter truthy rest);
        [f_equal; exact Ht | rewrite <- app_assoc].
      change (word :: rest) with ([word] ++ rest).
      now rewrite filter_app.
Qed.

Lemma Qltb_false (a b : Q) : Qltb a b = false -> b <= a.
Proof.
  unfold Qltb. intros H. apply negb_false_iff in H.
  now apply Qle_bool_iff.
Qed.

Lemma wrap_loop_lines (all words : list jsstring) :
  incl words all ->
  forall lines line,
    Forall (fun l => l <> [] /\ fits_or_word measure maxWidth all l) lines ->
    (line = [] \/ fits_or_word measure maxWidth all line) ->
    Forall (fun l => l <> [] /\ fits_or_word measure maxWidth all l)
           (fst (wrap_loop measure maxWidth words lines line))
    /\ (snd (wrap_loop measure maxWidth words lines line) = []
        \/ fits_or_word measure maxWidth all
             (snd (wrap_loop measure maxWidth words lines line))).
Proof.
  induction words as [|word rest IH]; intros Hincl lines line Hl Hline.
  - simpl. now split.
  - assert (Hrest : incl rest all).
    { intros x Hx. apply Hincl. now right. }
    assert (Hword : In word all) by (apply Hincl; now left).
    cbn [wrap_loop]. cbv zeta.
    destruct (Qltb maxWidth _) eqn:Hq; simpl andb.
    + destruct line as [|c line]; simpl truthy; cbv iota.
      * apply IH; auto. right. now right.
      * apply IH; auto.
        -- apply Forall_app. split; [exact Hl|].
           constructor; [|constructor].
           split; [discriminate|].
           destruct Hline as [Hline|Hline]; [discriminate | exact Hline].
        -- right. now right.
    + apply IH; auto.
      right. left. now apply Qltb_false.
Qed.

(** The last statements of [wrapLines], on the pair the loop returns. *)
Lemma wrapLines_unfold (text : jsstring) :
  wrapLines measure text maxWidth
  = let r := wrap_loop measure maxWidth
               (split_runs is_white_space text) [] [] in
    if truthy (snd r) then fst r ++ [snd r] else fst r.
Proof.
  unfold wrapLines. cbv zeta.
  now destruct (wrap_loop measure maxWidth _ _ _).
Qed.

Lemma wrapLines_lines (text : jsstring) :
  Forall (fun l => l <> []
                   /\ (measure l <= maxWidth \/ In l (words_of text)))
         (wrapLines measure text maxWidth).
Proof.
  rewrite wrapLines_unfold. cbv zeta.
  destruct (wrap_loop_lines (split_runs is_white_space text)
              (split_runs is_white_space text) (incl_refl _) [] []
              (Forall_nil _) (or_introl eq_refl)) as [Hl Hline].
  set (r := wrap_loop measure maxWidth _ _ _) in *.
  assert (Hall : Forall (fun l => l <> [] /\
                   fits_or_word measure maxWidth (split_runs is_white_space text) l)
                   (if truthy (snd r) then fst r ++ [snd r] else fst r)).
  { destruct (snd r) as [|c line]; simpl; [exact Hl|].
    apply Forall_app. split; [exact Hl|].
    constructor; [|constructor]. split; [discriminate|].
    destruct Hline as [Hline|Hline]; [discriminate | exact Hline]. }
  eapply Forall_impl; [|exact Hall].
  intros l [Hne [Hfit|Hin]]; split; auto.
  right. unfold words_of. rewrite <- split_runs_fields.
  apply filter_In. split; [exact Hin | now apply truthy_iff].
Qed.

Lemma wrapLines_words (text : jsstring) :
  flat_map words_of (wrapLines measure text maxWidth) = words_of text.
Proof.
  rewrite wrapLines_unfold. cbv zeta.
  pose proof (wrap_loop_words (split_runs is_white_space text)
                (split_go_sep_free is_white_space text false []
                   (Forall_nil _)) [] []) as H.
  set (r := wrap_loop measure maxWidth _ _ _) in *.
  simpl in H.
  replace (words_of text)
    with (filter truthy (split_runs is_white_space text))
    by apply split_runs_fields.
  rewrite <- H.
  destruct (snd r) as [|c line]; simpl truthy; cbv iota.
  - now rewrite words_of_nil, app_nil_r.
  - rewrite flat_map_app. simpl. now rewrite app_nil_r.
Qed.

End WrapFacts.

(** *** Texts without surrounding white space *)

Lemma drop_while_head f (s : jsstring) :
  match drop_while f s with
  | [] => True
  | c :: _ => f c = false
  end.
Proof.
  induction s as [|c r IH]; simpl; [exact I|].
  destruct (f c) eqn:E; [exact IH | exact E].
Qed.

Lemma drop_while_suffix f (s : jsstring) :
  exists pre, s = pre ++ drop_while f s.
Proof.
  induction s as [|c r [pre IH]]; simpl; [now exists []|].
  destruct (f c); [|now exists []].
  exists (c :: pre). simpl. now rewrite <- IH.
Qed.

Lemma last_default {A : Type} (l : list A) (d d' : A) :
  l <> [] -> last l d = last l d'.
Proof.
  induction l as [|x [|y r] IH]; intros Hne;
    [contradiction | reflexivity |].
  change (last (y :: r) d = last (y :: r) d'). apply IH. discriminate.
Qed.

(** What [trim] returns neither starts nor ends with white space. *)
Lemma trim_edges_clean (s : jsstring) : edges_clean (trim s).
Proof.
  unfold trim.
  set (a := drop_while is_white_space s).
  set (b := drop_while is_white_space (rev a)).
  unfold edges_clean. destruct (rev b) as [|x xs] eqn:E; [exact I|].
  pose proof (drop_while_head is_white_space (rev a)) as Hb. fold b in Hb.
  split.
  - destruct (drop_while_suffix is_white_space (rev a)) as [pre Hpre].
    fold b in Hpre. apply (f_equal (@rev code_unit)) in Hpre.
    rewrite rev_involutive, rev_app_distr, E in Hpre.
    pose proof (drop_while_head is_white_space s) as Ha. fold a in Ha.
    rewrite Hpre in Ha. exact Ha.
  - destruct b as [|c b']; [discriminate E|].
    rewrite <- E. simpl rev. now rewrite last_last.
Qed.

Section NonEmptyPieces.

Variable sep : code_unit -> bool.

(** Started inside a piece, or inside a separator that is followed by
    something, a split of a text that does not end in a separator has no
    empty piece. *)
Lemma split_go_nonempty (s : jsstring) :
  (forall cur, cur <> [] -> (s = [] \/ sep (last s 0%N) = false) ->
               Forall (fun p => p <> []) (split_go sep false cur s))
  /\ (s <> [] -> sep (last s 0%N) = false ->
      Forall (fun p => p <> []) (split_go sep true [] s)).
Proof.
  induction s as [|c r [IHw IHr]].
  - split; [|intros H; contradiction].
    intros cur Hcur _. simpl. constructor; [|constructor].
    intros H. apply Hcur. apply (f_equal (@rev code_unit)) in H.
    now rewrite rev_involutive in H.
  - assert (Hrun : sep c = true -> sep (last (c :: r) 0%N) = false ->
                   r <> [] /\ sep (last r 0%N) = false).
    { intros Hc Hl. destruct r as [|y r']; [simpl in Hl; congruence|].
      split; [discriminate | exact Hl]. }
    assert (Hword : sep (last (c :: r) 0%N) = false ->
                    r = [] \/ sep (last r 0%N) = false).
    { intros Hl. destruct r as [|y r']; [now left | right; exact Hl]. }
    split.
    + intros cur Hcur [Hnil|Hl]; [discriminate|].
      simpl. destruct (sep c) eqn:Hc.
      * destruct (Hrun eq_refl Hl) as [Hr1 Hr2].
        constructor; [|now apply IHr].
        intros H. apply Hcur. apply (f_equal (@rev code_unit)) in H.
        now rewrite rev_involutive in H.
      * apply IHw; [discriminate | now apply Hword].
    + intros _ Hl. simpl. destruct (sep c) eqn:Hc.
      * destruct (Hrun eq_refl Hl) as [Hr1 Hr2]. now apply IHr.
      * apply IHw; [discriminate | now apply Hword].
Qed.

End NonEmptyPieces.

Lemma split_go_not_nil sep (s : jsstring) : forall b cur,
  split_go sep b cur s <> [].
Proof.
  induction s as [|c r IH]; intros b cur; simpl; [discriminate|].
  destruct (sep c); [destruct b; [apply IH | discriminate] | apply IH].
Qed.

Lemma split_runs_no_empty_word (text : jsstring) :
  edges_clean text -> text <> [] ->
  Forall (fun w => w <> []) (split_runs is_white_space text).
Proof.
  intros Hclean Hne. destruct text as [|c r]; [contradiction|].
  destruct Hclean as [Hc Hl].
  unfold split_runs. simpl. rewrite Hc.
  apply (proj1 (split_go_nonempty is_white_space r)); [discriminate|].
  destruct r as [|y r']; [now left | right].
  rewrite (last_default (y :: r') 0%N c) by discriminate. exact Hl.
Qed.

Lemma filter_truthy_id (l : list jsstring) :
  Forall (fun w => w <> []) l -> filter truthy l = l.
Proof.
  induction 1 as [|w l Hw _ IH]; [reflexivity|].
  simpl. apply truthy_iff in Hw. now rewrite Hw, IH.
Qed.

Lemma join_sp_cons (x y : jsstring) (r : list jsstring) :
  join_sp (x :: y :: r) = x ++ 32%N :: join_sp (y :: r).
Proof. reflexivity. Qed.

(** Joining does not see whether two neighbours were glued before. *)
Lemma join_sp_glue (a b : jsstring) (r : list jsstring) :
  forall l,
    join_sp (l ++ (a ++ 32%N :: b) :: r) = join_sp (l ++ a :: b :: r).
Proof.
  induction l as [|x l IH].
  - simpl app. rewrite join_sp_cons. destruct r as [|c r].
    + reflexivity.
    + rewrite !join_sp_cons. now rewrite <- app_assoc.
  - destruct l as [|y l].
    + simpl app in *.
      change (x ++ 32%N :: join_sp ((a ++ 32%N :: b) :: r)
              = x ++ 32%N :: join_sp (a :: b :: r)).
      do 2 f_equal. exact IH.
    + simpl app in *.
      change (x ++ 32%N :: join_sp (y :: l ++ (a ++ 32%N :: b) :: r)
              = x ++ 32%N :: join_sp (y :: l ++ a :: b :: r)).
      do 2 f_equal. exact IH.
Qed.

Section WrapExact.

Variable measure : jsstring -> Q.
Variable maxWidth : Q.

Lemma wrap_loop_join (words : list jsstring) :
  Forall (fun w => w <> []) words ->
  forall lines line, line <> [] ->
    snd (wrap_loop measure maxWidth words lines line) <> []
    /\ join_sp (fst (wrap_loop measure maxWidth words lines line)
                  ++ [snd (wrap_loop measure maxWidth words lines line)])
       = join_sp (lines ++ line :: words).
Proof.
  induction 1 as [|word rest Hw _ IH]; intros lines line Hline.
  - simpl. now split.
  - cbn [wrap_loop]. cbv zeta.
    destruct line as [|c line]; [contradiction|].
    simpl truthy. cbv iota.
    destruct (Qltb maxWidth _ && true).
    + destruct (IH (lines ++ [c :: line]) word Hw) as [Hne Hj].
      split; [exact Hne|].
      transitivity (join_sp ((lines ++ [c :: line]) ++ word :: rest));
        [exact Hj | now rewrite <- app_assoc].
    + destruct (IH lines ((c :: line) ++ 32%N :: word)) as [Hne Hj];
        [discriminate|].
      split; [exact Hne|].
      transitivity
        (join_sp (lines ++ ((c :: line) ++ 32%N :: word) :: rest));
        [exact Hj | apply join_sp_glue].
Qed.

(** For a text without surrounding white space the lines, joined by single
    spaces, are the words joined by single spaces, unit for unit. *)
Lemma wrapLines_join_exact (text : jsstring) :
  edges_clean text ->
  join_sp (wrapLines measure text maxWidth) = join_sp (words_of text).
Proof.
  intros Hclean. rewrite wrapLines_unfold. cbv zeta.
  destruct text as [|c0 r0] eqn:Etext.
  - simpl. now rewrite andb_false_r.
  - rewrite <- Etext in *.
    assert (Hne : text <> []) by (rewrite Etext; discriminate).
    pose proof (split_runs_no_empty_word text Hclean Hne) as Hwords.
    unfold words_of. rewrite <- split_runs_fields.
    destruct (split_runs is_white_space text) as [|w ws] eqn:E.
    + exfalso. exact (split_go_not_nil is_white_space text false [] E).
    + inversion Hwords as [|w' ws' Hw Hws]; subst w' ws'.
      cbn [wrap_loop]. cbv zeta. simpl truthy. cbv iota.
      rewrite andb_false_r.
      destruct (wrap_loop_join ws Hws [] w Hw) as [Hsnd Hj].
      apply truthy_iff in Hsnd. rewrite Hsnd. rewrite Hj. simpl app.
      f_equal. symmetry. now apply filter_truthy_id.
Qed.

End WrapExact.

(** Every scene sentence is such a text. *)
Lemma splitSentences_trimmed (s p : jsstring) :
  In p (splitSentences s) -> edges_clean p /\ p <> [].
Proof.
  unfold splitSentences. intros H.
  apply filter_In in H as [H Ht].
  split; [|now apply truthy_iff].
  apply in_map_iff in H as [q [<- _]]. apply trim_edges_clean.
Qed.

Lemma unit_width_monotone (l w : jsstring) :
  In w (words_of l) -> unit_width w <= unit_width l.
Proof.
  intros H. apply field_length in H. unfold unit_width.
  rewrite <- Zle_Qle. lia.
Qed.

(** The edge the trimmed scene sentences never reach: white space around
    the text leaves no word behind, but a trailing blank can stay on the
    last line. *)
Example wrapLines_padded :
  wrapLines unit_width (lit " a ") 10 = [lit "a "]
  /\ words_of (lit "a ") = [lit "a"].
Proof. split; reflexivity. Qed.

(** C10.  Wrapping neither loses, duplicates, splits nor reorders words:
    the lines joined by single spaces hold exactly the whitespace-separated
    words of the input, in order, and for a text without surrounding white
    space, as every scene sentence is, the joined lines are the words joined
    by single spaces, unit for unit; no line is empty; a line that does not
    fit the maximum width is a single whole word of the input; and when a
    text is never narrower than a word in it, a word wider than the maximum
    width is a line of its own. *)
Theorem wrapLines_keeps_words
        (measure : jsstring -> Q) (text : jsstring) (maxWidth : Q) :
  words_of (join_sp (wrapLines measure text maxWidth)) = words_of text
  /\ (edges_clean text ->
      join_sp (wrapLines measure text maxWidth) = join_sp (words_of text))
  /\ Forall (fun l => l <> []) (wrapLines measure text maxWidth)
  /\ Forall (fun l => measure l <= maxWidth \/ In l (words_of text))
            (wrapLines measure text maxWidth)
  /\ ((forall l w, In w (words_of l) -> measure w <= measure l) ->
      forall l w,
        In l (wrapLines measure text maxWidth) ->
        In w (words_of l) -> maxWidth < measure w -> l = w).
Proof.
  pose proof (wrapLines_lines measure maxWidth text) as Hall.
  split; [rewrite words_of_join_sp; apply wrapLines_words|].
  split; [apply wrapLines_join_exact|].
  split; [eapply Forall_impl; [|exact Hall]; now intros l [H _]|].
  split; [eapply Forall_impl; [|exact Hall]; now intros l [_ H]|].
  intros Hmono l w Hl Hw Hwide.
  rewrite Forall_forall in Hall. destruct (Hall l Hl) as [_ [Hfit|Hin]].
  - exfalso. apply (Qlt_irrefl maxWidth).
    eapply Qlt_le_trans; [exact Hwide|].
    eapply Qle_trans; [apply Hmono; exact Hw | exact Hfit].
  - apply fields_are_sep_free in Hin as [Hne Hfree].
    unfold words_of in Hw.
    rewrite (fields_sep_free is_white_space l Hfree) in Hw.
    destruct l as [|c l]; [contradiction|].
    simpl in Hw. destruct Hw as [Hw|[]]. exact Hw.
Qed.

Lemma wrapLines_keeps_words_witness :
  In (lit "cdefg") (wrapLines unit_width (lit "ab cdefg hi j") 4)
  /\ 4 < unit_width (lit "cdefg")
  /\ lit "cdefg" = lit "cdefg"
  /\ join_sp (wrapLines unit_width (lit "ab cdefg hi j") 4)
     = join_sp (words_of (lit "ab cdefg hi j")).
Proof.
  split; [vm_compute; tauto|].
  split; [reflexivity|].
  split.
  - apply (proj2 (proj2 (proj2 (proj2
             (wrapLines_keeps_words unit_width (lit "ab cdefg hi j") 4))))
             unit_width_monotone).
    + vm_compute. tauto.
    + vm_compute. tauto.
    + reflexivity.
  - apply (proj1 (proj2
             (wrapLines_keeps_words unit_width (lit "ab cdefg hi j") 4))).
    split; reflexivity.
Defined.

(** The compositor only wraps scene sentences, for which the joined lines
    are exact. *)
Corollary wrapLines_of_sentence (measure : jsstring -> Q) (maxWidth : Q)
          (input sentence : jsstring) :
  In sentence (splitSentences input) ->
  join_sp (wrapLines measure sentence maxWidth)
  = join_sp (words_of sentence).
Proof.
  intros H. apply wrapLines_join_exact.
  now apply (splitSentences_trimmed input).
Qed.

(** ** Opacity values *)

Section OpacityFacts.
Local Open Scope R_scope.

Lemma titleAlpha_range (p : R) : 0.2 <= titleAlpha p <= 1.
Proof.
  unfold titleAlpha. split; [apply Rmax_l|].
  apply Rmax_lub; [lra|]. apply SIN_bound.
Qed.

Lemma lineAlpha_range (p : R) (n j : nat) : 0.15 <= lineAlpha p n j <= 1.
Proof.
  unfold lineAlpha. cbv zeta. split; [apply Rmax_r|].
  apply Rmax_lub; [|lra].
  apply Rmax_lub; [lra|].
  pose proof (Rabs_pos (p - INR j / Rmax 1 (INR n - 1))). lra.
Qed.

Lemma satelliteOpacity_range (p : R) (i : nat) :
  -0.1 <= satelliteOpacity p i <= 0.7.
Proof.
  unfold satelliteOpacity.
  pose proof (SIN_bound (satelliteAngle p i + oscillation p)). lra.
Qed.

Lemma sqrt3_lower : 3 / 2 < sqrt 3.
Proof.
  rewrite <- (sqrt_square (3 / 2)) by lra.
  apply sqrt_lt_1; lra.
Qed.

Lemma satelliteOpacity_at_start :
  satelliteOpacity 0 4 = 0.3 - 0.2 * sqrt 3.
Proof.
  unfold satelliteOpacity, satelliteAngle, oscillation, satelliteCount.
  replace (0 * PI * 2) with 0 by ring. rewrite sin_0.
  replace (INR 4) with 4 by (simpl; lra).
  replace (INR 6) with 6 by (simpl; lra).
  replace (0 + 4 / 6 * PI * 2 + 0) with (PI / 3 + PI) by field.
  rewrite neg_sin, sin_PI3. lra.
Qed.

Lemma globalAlpha_writes_valid (p : R) (n : nat) :
  Forall unit_interval (globalAlpha_writes p n).
Proof.
  unfold globalAlpha_writes, unit_interval. simpl app.
  apply Forall_cons; [pose proof (titleAlpha_range p); lra|].
  apply Forall_cons; [lra|].
  apply Forall_app. split.
  - apply Forall_forall. intros a Ha.
    apply in_map_iff in Ha as [j [<- _]].
    pose proof (lineAlpha_range p n j). lra.
  - repeat (apply Forall_cons; [lra|]). apply Forall_nil.
Qed.

Lemma globalAlpha_writes_last (p : R) (n : nat) :
  last (globalAlpha_writes p n) 0 = 1.
Proof.
  unfold globalAlpha_writes.
  change [0.4; 0.9; 1] with ([0.4; 0.9] ++ [1]).
  rewrite !app_assoc. apply last_last.
Qed.

End OpacityFacts.

(** C6.  For a progress [p] in [[0,1]], [n >= 1] caption lines and a line
    index [j < n], the alpha written for the line lies in [[0.15, 1]] and
    the alpha written for the title lies in [[0.2, 1]]. *)
Theorem opacity_clamp (p : R) (n j : nat) :
  (0 <= p <= 1)%R -> (1 <= n)%nat -> (j < n)%nat ->
  (0.15 <= lineAlpha p n j <= 1)%R /\ (0.2 <= titleAlpha p <= 1)%R.
Proof.
  intros _ _ _. split; [apply lineAlpha_range | apply titleAlpha_range].
Qed.

Lemma opacity_clamp_witness :
  (0.15 <= lineAlpha (1 / 2) 3 1 <= 1)%R /\ (0.2 <= titleAlpha (1 / 2) <= 1)%R.
Proof.
  apply (opacity_clamp (1 / 2)%R 3 1); [lra | lia | lia].
Defined.

(** C1.  On the first frame of a scene (progress 0) the opacity computed
    for satellite 4 is [0.3 - 0.2 * sqrt 3], which is negative, and it goes
    into the fill style as computed, so not every opacity of that frame is
    within [[0, 1]]: over all frames the satellite opacity ranges through
    [[-0.1, 0.7]].  The values written to the surface's global opacity are
    all within [[0, 1]], and the last write of a frame is 1. *)
Theorem satellite_opacity_unclamped :
  (satelliteOpacity 0 4 < 0)%R
  /\ ~ Forall unit_interval (style_alphas 0)
  /\ (forall p i, -0.1 <= satelliteOpacity p i <= 0.7)%R
  /\ (forall p n, Forall unit_interval (globalAlpha_writes p n)
                  /\ last (globalAlpha_writes p n) 0%R = 1%R).
Proof.
  assert (Hneg : (satelliteOpacity 0 4 < 0)%R).
  { rewrite satelliteOpacity_at_start. pose proof sqrt3_lower. lra. }
  split; [exact Hneg|]. split; [|split].
  - intros H. rewrite Forall_forall in H.
    assert (Hin : In (satelliteOpacity 0 4) (style_alphas 0)).
    { unfold style_alphas. apply in_or_app. right.
      apply in_map. simpl. tauto. }
    destruct (H _ Hin) as [H0 _]. lra.
  - apply satelliteOpacity_range.
  - intros p n. split;
      [apply globalAlpha_writes_valid | apply globalAlpha_writes_last].
Qed.

(** ** Render driver *)

Section DriverFacts.
Local Open Scope Q_scope.

Lemma Qltb_true (a b : Q) : Qltb a b = true <-> a < b.
Proof.
  unfold Qltb. rewrite negb_true_iff. split; intros H.
  - apply Qnot_le_lt. intros Hle. apply Qle_bool_iff in Hle. congruence.
  - destruct (Qle_bool b a) eqn:E; [|reflexivity].
    apply Qle_bool_iff in E. exfalso. exact (Qlt_not_le _ _ H E).
Qed.

Lemma Qltb_false_iff (a b : Q) : Qltb a b = false <-> b <= a.
Proof.
  unfold Qltb. rewrite negb_false_iff. apply Qle_bool_iff.
Qed.

Lemma Qmult_div_cancel (a F : Q) : 0 < F -> F * (a / F) == a.
Proof. intros H. field. lra. Qed.

Lemma quotient_nonneg (a F : Q) : 0 <= a -> 0 < F -> 0 <= a / F.
Proof.
  intros Ha HF. apply Qle_shift_div_l; [exact HF | lra].
Qed.

(** The scene a frame falls into exists. *)
Lemma sliceIndex_in_range (a F : Q) (len : Z) :
  0 <= a -> 0 < F -> a < F * inject_Z len ->
  (0 <= Qfloor (a / F) < len)%Z.
Proof.
  intros Ha HF Hlt. split.
  - change 0%Z with (Qfloor 0). apply Qfloor_resp_le.
    now apply quotient_nonneg.
  - rewrite Zlt_Qlt.
    apply Qle_lt_trans with (a / F); [apply Qfloor_le|].
    apply Qlt_shift_div_r; [exact HF | lra].
Qed.

(** The intra-scene progress lies in [[0, 1)]. *)
Lemma sliceProgress_range (a F : Q) :
  0 <= a -> 0 < F -> 0 <= js_rem a F / F < 1.
Proof.
  intros Ha HF. unfold js_rem, Qtrunc.
  pose proof (quotient_nonneg a F Ha HF) as Hq.
  apply Qle_bool_iff in Hq as Hb. rewrite Hb.
  pose proof (Qfloor_le (a / F)) as Hlo.
  pose proof (Qlt_floor (a / F)) as Hhi.
  rewrite inject_Z_plus in Hhi.
  pose proof (Qmult_div_cancel a F HF) as Hc.
  set (q := a / F) in *. set (m := inject_Z (Qfloor q)) in *.
  change (inject_Z 1) with 1 in Hhi.
  split.
  - apply Qle_shift_div_l; [exact HF|]. nra.
  - apply Qlt_shift_div_r; [exact HF|]. nra.
Qed.

End DriverFacts.

Section LoopFacts.
Local Open Scope Q_scope.

Variable canvas : Canvas.
Variable timeline : list TimelineSlice.
Variables segFrames total : Q.
Hypothesis segFrames_pos : 0 < segFrames.
Hypothesis total_eq :
  total == segFrames * inject_Z (Z.of_nat (length timeline)).
Hypothesis timeline_ok : palettes_defined timeline.

(** The loop, started with the counter at the integer [k], makes
    [ceiling total - k] turns, none of which fails, and then returns. *)
Lemma render_loop_runs (n : nat) :
  forall (k : Z) (cur : Q) (log : RenderLog) (fuel : nat),
    cur == inject_Z k -> (0 <= k)%Z ->
    n = Z.to_nat (Qceiling total - k) -> (n <= fuel)%nat ->
    exists fs,
      render_loop fuel canvas timeline segFrames total cur log
      = Some (Normal (mkLog (frames log ++ fs)
                            (reports log ++ reports_from total n cur)))
      /\ length fs = n
      /\ Forall (frame_ok timeline) fs
      /\ (forall f rest, fs = f :: rest ->
                         sliceIndex f = Qfloor (cur / segFrames)
                         /\ sliceProgress f
                            = js_rem cur segFrames / segFrames).
Proof.
  induction n as [|n IH]; intros k cur log fuel Hcur Hk Hn Hfuel.
  - assert (Hstop : Qltb cur total = false).
    { apply Qltb_false_iff. rewrite Hcur.
      apply Qle_trans with (inject_Z (Qceiling total));
        [apply Qle_ceiling|].
      rewrite <- Zle_Qle. lia. }
    exists []. split; [|split; [reflexivity | split; [constructor|]]];
      [|intros f rest Hnil; discriminate Hnil].
    destruct log as [fr rp]. simpl frames; simpl reports.
    rewrite !app_nil_r.
    destruct fuel; cbn [render_loop]; now rewrite Hstop.
  - assert (Hlt : cur < total).
    { rewrite Hcur.
      apply Qle_lt_trans with (inject_Z (Qceiling total - 1));
        [rewrite <- Zle_Qle; lia | apply Qceiling_lt]. }
    assert (Hgo : Qltb cur total = true) by now apply Qltb_true.
    assert (Hnonneg : 0 <= cur).
    { rewrite Hcur. change 0 with (inject_Z 0). rewrite <- Zle_Qle. lia. }
    destruct fuel as [|fuel]; [lia|].
    cbn [render_loop]. rewrite Hgo.
    destruct (sliceIndex_in_range cur segFrames
                (Z.of_nat (length timeline)) Hnonneg segFrames_pos)
      as [Hi0 Hi1]; [now rewrite <- total_eq|].
    set (i := Qfloor (cur / segFrames)) in *.
    assert (Hget : exists sl,
               nth_error timeline (Z.to_nat i) = Some sl).
    { destruct (nth_error timeline (Z.to_nat i)) as [sl|] eqn:E;
        [now exists sl|].
      apply nth_error_None in E. lia. }
    destruct Hget as [sl Hsl].
    unfold array_get.
    destruct (Z.ltb_spec i 0) as [Hneg|_]; [lia|].
    rewrite Hsl. cbv zeta.
    assert (Hpal : exists g, palette sl = Some g).
    { unfold palettes_defined in timeline_ok.
      rewrite Forall_forall in timeline_ok.
      apply nth_error_In in Hsl. specialize (timeline_ok sl Hsl).
      destruct (palette sl) as [g|]; [now exists g | contradiction]. }
    destruct Hpal as [g Hg]. rewrite Hg.
    destruct (IH (k + 1)%Z (cur + 1)
                (mkLog (frames log
                          ++ [mkFrame i (js_rem cur segFrames / segFrames) sl g
                                (wrapLines (measureText canvas) (sentence sl)
                                   (width canvas * (7 # 10)))])
                       (reports log ++ [(cur + 1) / total]))
                fuel)
      as [fs [Hrun [Hlen [Hok _]]]].
    + rewrite inject_Z_plus, Hcur. reflexivity.
    + lia.
    + lia.
    + lia.
    + eexists (_ :: fs). split; [|split; [|split]].
      * rewrite Hrun. simpl frames; simpl reports.
        rewrite <- !app_assoc. reflexivity.
      * simpl. now rewrite Hlen.
      * constructor; [|exact Hok].
        unfold frame_ok. simpl.
        split; [lia|]. split; [exact Hsl|].
        now apply sliceProgress_range.
      * intros f rest Hf. injection Hf as <- _. simpl. now split.
Qed.

Lemma reports_from_length (n : nat) :
  forall cur, length (reports_from total n cur) = n.
Proof.
  induction n as [|n IH]; intros cur; simpl; [reflexivity|].
  now rewrite IH.
Qed.

(** The report of turn [i] (counted from zero) is the counter after the
    turn over the total. *)
Lemma reports_from_nth (n : nat) :
  forall cur i, (i < n)%nat ->
    nth i (reports_from total n cur) 0
    == (cur + inject_Z (Z.of_nat i) + 1) / total.
Proof.
  induction n as [|n IH]; intros cur i Hi; [lia|].
  destruct i as [|i]; cbn [reports_from nth].
  - change (inject_Z (Z.of_nat 0)) with 0. now rewrite Qplus_0_r.
  - rewrite IH by lia. rewrite Nat2Z.inj_succ, <- Z.add_1_r.
    rewrite inject_Z_plus. apply Qdiv_comp; [|reflexivity].
    change (inject_Z 1) with 1. ring.
Qed.

End LoopFacts.

Lemma last_as_nth {A : Type} (l : list A) (d : A) :
  last l d = nth (length l - 1) l d.
Proof.
  induction l as [|x [|y r] IH]; try reflexivity.
  change (last (x :: y :: r) d) with (last (y :: r) d). rewrite IH.
  simpl. now rewrite Nat.sub_0_r.
Qed.

Section RunFacts.
Local Open Scope Q_scope.

Variable canvas : Canvas.
Variable timeline : list TimelineSlice.
Variable settings : GenerationSettings.
Hypothesis has_context : context_available canvas = true.
Hypothesis fps_pos : 0 < fps settings.
Hypothesis seconds_pos : 0 < segmentSeconds settings.
Hypothesis timeline_ok : palettes_defined timeline.

Let total := totalFrames settings timeline.
Let turns := Z.to_nat (Qceiling total).

Lemma segmentFrames_pos : 0 < segmentFrames settings.
Proof. unfold segmentFrames. now apply Qmult_lt_0_compat. Qed.

(** Over the exact rationals the loop ends: it draws [ceiling totalFrames]
    frames, each of a scene of the timeline, and reports once per
    frame. *)
Lemma renderTimelineToVideo_runs :
  exists log,
    renderTimelineToVideo canvas timeline settings = Some (Normal log)
    /\ reports log = reports_from total turns 0
    /\ length (frames log) = turns
    /\ Forall (frame_ok timeline) (frames log)
    /\ (forall f rest, frames log = f :: rest ->
                       sliceIndex f = 0%Z /\ sliceProgress f == 0).
Proof.
  unfold renderTimelineToVideo. rewrite has_context. cbv zeta.
  destruct (render_loop_runs canvas timeline (segmentFrames settings) total
              segmentFrames_pos (Qeq_refl _) timeline_ok turns 0%Z 0
              (mkLog [] []) (enough_fuel total))
    as [fs [Hrun [Hlen [Hok Hhead]]]].
  - reflexivity.
  - lia.
  - unfold turns. now rewrite Z.sub_0_r.
  - unfold enough_fuel, turns. lia.
  - exists (mkLog fs (reports_from total turns 0)).
    split; [exact Hrun|]. simpl.
    split; [reflexivity|]. split; [exact Hlen|]. split; [exact Hok|].
    intros f rest Hf. destruct (Hhead f rest Hf) as [Hi Hp].
    rewrite Hi, Hp.
    assert (H0 : 0 / segmentFrames settings == 0) by (unfold Qdiv; ring).
    split; [now rewrite H0|].
    assert (Ht : Qtrunc (0 / segmentFrames settings) = 0%Z).
    { unfold Qtrunc. rewrite H0. reflexivity. }
    unfold js_rem. rewrite Ht. change (inject_Z 0) with 0.
    unfold Qdiv. ring.
Qed.

Lemma total_pos : timeline <> [] -> 0 < total.
Proof.
  intros Hne. unfold total, totalFrames.
  apply Qmult_lt_0_compat; [apply segmentFrames_pos|].
  change 0 with (inject_Z 0). rewrite <- Zlt_Qlt.
  destruct timeline; [contradiction | simpl; lia].
Qed.

Lemma report_nth (k : nat) :
  (1 <= k <= turns)%nat ->
  nth (k - 1) (reports_from total turns 0) 0
  == inject_Z (Z.of_nat k) / total.
Proof.
  intros Hk. rewrite reports_from_nth by lia.
  apply Qdiv_comp; [|reflexivity].
  replace (Z.of_nat k) with (Z.of_nat (k - 1) + 1)%Z by lia.
  rewrite inject_Z_plus. change (inject_Z 1) with 1. ring.
Qed.

Lemma reports_monotone (i j : nat) :
  timeline <> [] -> (i <= j < turns)%nat ->
  nth i (reports_from total turns 0) 0
  <= nth j (reports_from total turns 0) 0.
Proof.
  intros Hne Hij. pose proof (total_pos Hne) as Hpos.
  rewrite !reports_from_nth by lia.
  apply Qle_shift_div_l; [exact Hpos|].
  unfold Qdiv. rewrite <- Qmult_assoc, (Qmult_comm (/ total)).
  rewrite Qmult_inv_r, Qmult_1_r by lra.
  assert (H : inject_Z (Z.of_nat i) <= inject_Z (Z.of_nat j))
    by (rewrite <- Zle_Qle; lia).
  lra.
Qed.

Lemma reports_nonneg :
  timeline <> [] ->
  Forall (fun r => 0 <= r) (reports_from total turns 0).
Proof.
  intros Hne. pose proof (total_pos Hne) as Hpos.
  apply Forall_forall. intros r Hr.
  apply (In_nth _ _ 0) in Hr as [i [Hi <-]].
  rewrite reports_from_length in Hi.
  rewrite reports_from_nth by exact Hi.
  apply Qle_shift_div_l; [exact Hpos|].
  assert (H : inject_Z 0 <= inject_Z (Z.of_nat i))
    by (rewrite <- Zle_Qle; lia).
  change (inject_Z 0) with 0 in H. lra.
Qed.

(** With a whole number of frames the reports stay within 1 and end
    on it. *)
Lemma reports_integral (N : Z) :
  timeline <> [] -> total == inject_Z N ->
  Forall (fun r => r <= 1) (reports_from total turns 0)
  /\ last (reports_from total turns 0) 0 == 1.
Proof.
  intros Hne HN. pose proof (total_pos Hne) as Hpos.
  assert (Hturns : turns = Z.to_nat N).
  { unfold turns. now rewrite HN, Qceiling_Z. }
  assert (HNpos : (0 < N)%Z).
  { rewrite Zlt_Qlt. change (inject_Z 0) with 0. now rewrite <- HN. }
  split.
  - apply Forall_forall. intros r Hr.
    apply (In_nth _ _ 0) in Hr as [i [Hi <-]].
    rewrite reports_from_length in Hi.
    rewrite reports_from_nth by exact Hi.
    apply Qle_shift_div_r; [exact Hpos|].
    rewrite HN, Qmult_1_l, Qplus_0_l.
    change 1 with (inject_Z 1) at 1. rewrite <- inject_Z_plus, <- Zle_Qle.
    lia.
  - rewrite last_as_nth, reports_from_length.
    rewrite reports_from_nth by lia.
    rewrite Qplus_0_l.
    change 1 with (inject_Z 1) at 1. rewrite <- inject_Z_plus.
    replace (Z.of_nat (turns - 1) + 1)%Z with N by lia.
    rewrite HN. apply Qmult_inv_r.
    intros H0. rewrite H0 in HN. rewrite HN in Hpos.
    exact (Qlt_irrefl _ Hpos).
Qed.

End RunFacts.




(** C5, as stated, fails: with one frame per second, half a second per
    scene and one scene the run draws one frame and its only, hence final,
    report is 2. *)
Lemma final_report_overshoots :
  exists log,
    renderTimelineToVideo demo_canvas demo_timeline half_second
    = Some (Normal log)
    /\ reports log = [2 # 1]
    /\ ~ (last (reports log) 0 == 1)
    /\ ~ (last (reports log) 0 <= 1).
Proof.
  eexists. split; [vm_compute; reflexivity|].
  split; [reflexivity|]. split; simpl.
  - intros H. unfold Qeq in H. simpl in H. lia.
  - intros H. unfold Qle in H. simpl in H. lia.
Qed.

(** C5, amended.  For whole positive frames per second and seconds per
    scene, as every value of the sliders is, and no more than [2 ^ 51]
    frames in all (the counter of the source is a double, and counts no
    further than [2 ^ 53]), a run over a non-empty timeline reports once per
    frame, the [k]-th report being [k / totalFrames]; the reports never
    decrease, every one of them lies in [[0, 1]], and the last one
    equals 1. *)
Theorem progress_reports (canvas : Canvas) (timeline : list TimelineSlice)
        (settings : GenerationSettings) (f s : Z) :
  context_available canvas = true -> palettes_defined timeline ->
  fps settings == inject_Z f -> segmentSeconds settings == inject_Z s ->
  (0 < f)%Z -> (0 < s)%Z -> timeline <> [] ->
  (f * s * Z.of_nat (length timeline) <= 2 ^ 51)%Z ->
  exists log,
    renderTimelineToVideo canvas timeline settings = Some (Normal log)
    /\ length (reports log) = length (frames log)
    /\ Z.of_nat (length (reports log))
       = (f * s * Z.of_nat (length timeline))%Z
    /\ (forall k, (1 <= k <= length (reports log))%nat ->
                  nth (k - 1) (reports log) 0
                  == inject_Z (Z.of_nat k) / totalFrames settings timeline)
    /\ (forall i j, (i <= j < length (reports log))%nat ->
                    nth i (reports log) 0 <= nth j (reports log) 0)
    /\ Forall (fun r => 0 <= r /\ r <= 1) (reports log)
    /\ last (reports log) 0 == 1.
Proof.
  intros Hctx Hpal Hf Hs Hfpos Hspos Hne _.
  assert (Hfq : 0 < fps settings).
  { rewrite Hf. change 0 with (inject_Z 0). now rewrite <- Zlt_Qlt. }
  assert (Hsq : 0 < segmentSeconds settings).
  { rewrite Hs. change 0 with (inject_Z 0). now rewrite <- Zlt_Qlt. }
  assert (Htot : totalFrames settings timeline
                 == inject_Z (f * s * Z.of_nat (length timeline))).
  { unfold totalFrames, segmentFrames.
    now rewrite Hf, Hs, <- !inject_Z_mult. }
  destruct (renderTimelineToVideo_runs canvas timeline settings
              Hctx Hfq Hsq Hpal)
    as [log [Hrun [Hrep [Hlen _]]]].
  assert (Hint : Forall (fun r => r <= 1) (reports log)
                 /\ last (reports log) 0 == 1).
  { rewrite Hrep. eapply reports_integral; eassumption. }
  assert (Hge : Forall (fun r => 0 <= r) (reports log)).
  { rewrite Hrep. now apply reports_nonneg. }
  destruct Hint as [Hle Hlast].
  exists log. split; [exact Hrun|].
  split; [rewrite Hrep, reports_from_length; now rewrite Hlen|].
  split.
  { rewrite Hrep, reports_from_length, Htot, Qceiling_Z.
    assert (0 <= f * s * Z.of_nat (length timeline))%Z by nia. lia. }
  split; [rewrite Hrep, reports_from_length; intros k Hk; now apply report_nth|].
  split; [rewrite Hrep, reports_from_length; intros i j Hij;
          now apply reports_monotone|].
  split; [|exact Hlast].
  rewrite Forall_forall in *. intros r Hr. split; [now apply Hge | now apply Hle].
Qed.

Lemma progress_reports_witness :
  exists log,
    renderTimelineToVideo demo_canvas demo_timeline (mkSettings 24 3 cosmic)
    = Some (Normal log)
    /\ Z.of_nat (length (reports log)) = (24 * 3 * 1)%Z
    /\ last (reports log) 0 == 1.
Proof.
  destruct (progress_reports demo_canvas demo_timeline (mkSettings 24 3 cosmic)
              24 3 eq_refl
              (createPaletteTimeline_palettes_defined [lit "a"] cosmic)
              (Qeq_refl _) (Qeq_refl _) eq_refl eq_refl)
    as [log [Hrun [_ [Hn [_ [_ [_ Hlast]]]]]]].
  - discriminate.
  - simpl. lia.
  - exists log. split; [exact Hrun|]. split; [exact Hn | exact Hlast].
Defined.

(** The failing input of C1 is met by every run of the page: the first
    frame has progress 0, and there satellite 4 gets a negative opacity. *)
Lemma first_frame_satellite_below_range
      (canvas : Canvas) (timeline : list TimelineSlice)
      (settings : GenerationSettings) (f s : Z) :
  context_available canvas = true -> palettes_defined timeline ->
  fps settings == inject_Z f -> segmentSeconds settings == inject_Z s ->
  (0 < f)%Z -> (0 < s)%Z -> timeline <> [] ->
  exists log fr rest,
    renderTimelineToVideo canvas timeline settings = Some (Normal log)
    /\ frames log = fr :: rest
    /\ (satelliteOpacity (Q2R (sliceProgress fr)) 4 < 0)%R.
Proof.
  intros Hctx Hpal Hfw Hsw Hfpos Hspos Hne.
  assert (Hf : 0 < fps settings).
  { rewrite Hfw. change 0 with (inject_Z 0). now rewrite <- Zlt_Qlt. }
  assert (Hs : 0 < segmentSeconds settings).
  { rewrite Hsw. change 0 with (inject_Z 0). now rewrite <- Zlt_Qlt. }
  destruct (renderTimelineToVideo_runs canvas timeline settings
              Hctx Hf Hs Hpal)
    as [log [Hrun [_ [Hlen [_ Hhead]]]]].
  assert (Hpos : 0 < totalFrames settings timeline)
    by (eapply total_pos; eassumption).
  assert (Hturns : (0 < Qceiling (totalFrames settings timeline))%Z).
  { rewrite Zlt_Qlt. eapply Qlt_le_trans; [exact Hpos | apply Qle_ceiling]. }
  destruct (frames log) as [|fr rest] eqn:E; [simpl in Hlen; lia|].
  exists log, fr, rest. split; [exact Hrun|]. split; [exact E|].
  destruct (Hhead fr rest eq_refl) as [_ Hp].
  rewrite (Qeq_eqR _ _ Hp).
  replace (Q2R 0) with 0%R by (unfold Q2R; simpl; lra).
  rewrite satelliteOpacity_at_start.
  pose proof sqrt3_lower. lra.
Qed.

(** ** Generation phase *)

Module PageFacts.
Import Page.

Lemma last_cons {A : Type} (x : A) (l : list A) (d : A) :
  last (x :: l) d = last l x.
Proof.
  revert x d. induction l as [|y r IH]; intros x d; [reflexivity|].
  change (last (x :: y :: r) d) with (last (y :: r) d).
  rewrite IH. symmetry. apply IH.
Qed.

Lemma phase_writes_app (l1 l2 : list action) :
  phase_writes (l1 ++ l2) = phase_writes l1 ++ phase_writes l2.
Proof. apply flat_map_app. Qed.

Lemma phase_writes_frames (frame_reports : list Q) :
  phase_writes (flat_map frame_actions frame_reports) = [].
Proof. induction frame_reports as [|r l IH]; [reflexivity | exact IH]. Qed.

Lemma handleGenerate_phases (v : option url) (frame_reports : list Q)
      (o : outcome) :
  phase_writes (handleGenerate true v frame_reports o)
  = preparing :: run_phases o.
Proof.
  unfold handleGenerate. simpl negb. cbv iota.
  rewrite !phase_writes_app.
  assert (Hv : phase_writes
                 match v with
                 | Some u => [call (revokeObjectURL u); setVideoUrl None]
                 | None => []
                 end = []) by now destruct v.
  rewrite Hv. simpl app.
  destruct o; simpl; try reflexivity;
    now rewrite phase_writes_app, phase_writes_frames.
Qed.

Lemma commit_cells (c : component) : cells (commit c) = cells c.
Proof. unfold commit. now destruct (url_eqb _ _). Qed.

Lemma commit_canGenerate (c : component) :
  canGenerate (commit c) = canGenerate c.
Proof. unfold commit. now destruct (url_eqb _ _). Qed.

Lemma exec_all_phase (l : list action) : forall c,
  phase (cells (exec_all c l)) = last (phase_writes l) (phase (cells c)).
Proof.
  unfold exec_all.
  induction l as [|a l IH]; intros c; [reflexivity|].
  simpl fold_left. rewrite IH.
  destruct a; cbn -[last commit]; try reflexivity.
  - now rewrite last_cons.
  - now rewrite commit_cells.
Qed.

Lemma exec_all_canGenerate (l : list action) : forall c,
  canGenerate (exec_all c l) = canGenerate c.
Proof.
  unfold exec_all.
  induction l as [|a l IH]; intros c; [reflexivity|].
  simpl fold_left. rewrite IH.
  destruct a; simpl; try reflexivity. apply commit_canGenerate.
Qed.

Lemma handle_phase (c : component) (e : event) :
  phase (cells (handle c e))
  = last (phase_writes (handler c e)) (phase (cells c)).
Proof. unfold handle. rewrite commit_cells. apply exec_all_phase. Qed.

Lemma transitions_app (h1 h2 : list GenerationPhase) : forall p,
  transitions p (h1 ++ h2) = transitions p h1 ++ transitions (last h1 p) h2.
Proof.
  induction h1 as [|q r IH]; intros p; [reflexivity|].
  rewrite last_cons. cbn [app transitions]. now rewrite IH.
Qed.

(** One event, taken from a phase at rest, makes expected transitions
    only and leaves the phase at rest. *)
Lemma handler_transitions (c : component) (e : event) :
  at_rest (phase (cells c)) ->
  Forall expected (transitions (phase (cells c)) (phase_writes (handler c e)))
  /\ at_rest (last (phase_writes (handler c e)) (phase (cells c))).
Proof.
  intros Hrest. destruct e as [frame_reports o|].
  - unfold handler. destruct (button_enabled c) eqn:Hb.
    + unfold button_enabled in Hb. apply andb_prop in Hb as [Hcan _].
      rewrite Hcan, handleGenerate_phases.
      unfold at_rest, expected in *.
      destruct Hrest as [-> | [-> | ->]]; destruct o; simpl;
        (split; [repeat constructor | tauto]).
    + simpl. split; [constructor | exact Hrest].
  - simpl. unfold at_rest, expected in *.
    destruct Hrest as [-> | [-> | ->]]; simpl;
      (split; [repeat constructor | tauto]).
Qed.

Lemma session_transitions (es : list event) : forall c,
  at_rest (phase (cells c)) ->
  Forall expected (transitions (phase (cells c)) (phase_history c es)).
Proof.
  induction es as [|e es IH]; intros c Hrest; [constructor|].
  simpl phase_history. rewrite transitions_app.
  destruct (handler_transitions c e Hrest) as [Hnow Hlast].
  apply Forall_app. split; [exact Hnow|].
  rewrite <- handle_phase in *. now apply IH.
Qed.

End PageFacts.

(** C9, as stated, fails: after a run that completed, [reset] takes the
    phase from [complete] to [idle], which is neither a step along the
    chain nor a step into [error]. *)
Lemma reset_leaves_the_chain :
  ~ Forall (fun t => Page.on_chain t = true)
      (Page.transitions Page.idle
         (Page.phase_history (Page.initial true)
            [Page.Generate [1] (Page.Encoded 1%nat); Page.Reset])).
Proof.
  intros H. rewrite Forall_forall in H.
  specialize (H (Page.complete, Page.idle)).
  assert (Hin : In (Page.complete, Page.idle)
                  (Page.transitions Page.idle
                     (Page.phase_history (Page.initial true)
                        [Page.Generate [1] (Page.Encoded 1%nat); Page.Reset])))
    by (vm_compute; tauto).
  specialize (H Hin). discriminate H.
Qed.

(** C9, amended.  Over any sequence of generate and reset events, each
    handled to its end, every phase transition is a step along
    idle, preparing, rendering, encoding, complete, or a step into [error]
    from a phase other than [idle], or a step into [idle] made by [reset],
    or the start of a new run from [complete] or [error].  One run writes
    [preparing] and then a prefix of rendering, encoding, complete that is
    cut short only by [error]; started from [idle] it never leaves the
    chain. *)
Theorem phase_transitions_by_design (can : bool) (es : list Page.event) :
  Forall (fun t => Page.on_chain t = true \/ Page.by_reset_or_restart t = true)
         (Page.transitions Page.idle
            (Page.phase_history (Page.initial can) es))
  /\ (forall v frame_reports o,
         Page.phase_writes (Page.handleGenerate true v frame_reports o)
         = Page.preparing :: Page.run_phases o
         /\ Forall (fun t => Page.on_chain t = true)
                   (Page.transitions Page.idle
                      (Page.phase_writes
                         (Page.handleGenerate true v frame_reports o))))
  /\ Page.phase_writes Page.reset = [Page.idle].
Proof.
  split; [|split; [|reflexivity]].
  - pose proof (PageFacts.session_transitions es (Page.initial can)
                  (or_introl eq_refl)) as H.
    eapply Forall_impl; [|exact H].
    intros t Ht. unfold Page.expected in Ht. now apply orb_true_iff.
  - intros v frame_reports o.
    rewrite PageFacts.handleGenerate_phases.
    split; [reflexivity|].
    destruct o; simpl; repeat constructor.
Qed.

(** ** Object URLs *)

Module UrlFacts.
Import Page.

Lemma url_eqb_refl (v : option url) : url_eqb v v = true.
Proof. destruct v; simpl; [apply Nat.eqb_refl | reflexivity]. Qed.

Lemma urls_commit (c : component) : urls (commit c) = commit_urls (urls c).
Proof.
  unfold urls, commit, commit_urls.
  now destruct (url_eqb (effect_videoUrl c) (videoUrl (cells c))).
Qed.

Lemma urls_exec (c : component) (a : action) :
  urls (exec c a) = exec_urls (urls c) a.
Proof.
  destruct a; try reflexivity.
  change (exec c await) with (commit c). apply urls_commit.
Qed.

Lemma urls_exec_all (l : list action) : forall c,
  urls (exec_all c l) = fold_left exec_urls l (urls c).
Proof.
  unfold exec_all.
  induction l as [|a l IH]; intros c; [reflexivity|].
  simpl. now rewrite IH, urls_exec.
Qed.

Lemma commit_urls_idem (t : url_view) :
  commit_urls (commit_urls t) = commit_urls t.
Proof.
  destruct t as [[v e] calls]. unfold commit_urls at 2.
  destruct (url_eqb e v) eqn:E.
  - unfold commit_urls. now rewrite E.
  - unfold commit_urls. now rewrite url_eqb_refl, E.
Qed.

(** The frames of a run commit once if there is a frame at all. *)
Lemma frames_urls (frame_reports : list Q) : forall t,
  fold_left exec_urls (flat_map frame_actions frame_reports) t
  = match frame_reports with
    | [] => t
    | _ :: _ => commit_urls t
    end.
Proof.
  induction frame_reports as [|r l IH]; intros t; [reflexivity|].
  cbn [flat_map frame_actions app fold_left].
  replace (exec_urls (exec_urls t (setProgress r)) await)
    with (commit_urls t) by now destruct t as [[v e] calls].
  rewrite IH. destruct l; [reflexivity | apply commit_urls_idem].
Qed.

Lemma handle_generate_calls (c : component) (u : url)
      (frame_reports : list Q) (o : outcome) :
  videoUrl (cells c) = Some u -> effect_videoUrl c = Some u ->
  button_enabled c = true ->
  url_calls (handle c (Generate frame_reports o))
  = url_calls c
      ++ [revokeObjectURL u; revokeObjectURL u]
      ++ match o with
         | Encoded fresh => [createObjectURL fresh]
         | _ => []
         end.
Proof.
  intros Hv He Hb.
  change (url_calls (handle c (Generate frame_reports o)))
    with (snd (urls (handle c (Generate frame_reports o)))).
  unfold handle, handler. rewrite Hb.
  unfold button_enabled in Hb. apply andb_prop in Hb as [Hcan _].
  rewrite urls_commit, urls_exec_all, Hcan, Hv.
  unfold urls. rewrite Hv, He.
  unfold handleGenerate. simpl negb. cbv iota.
  rewrite !fold_left_app.
  set (calls := url_calls c).
  destruct o; cbn [fold_left exec_urls catch app];
    try (simpl; now rewrite <- app_assoc).
  - rewrite fold_left_app, frames_urls.
    destruct frame_reports; simpl; now rewrite <- app_assoc.
  - rewrite fold_left_app, frames_urls.
    destruct frame_reports; simpl;
      now rewrite app_nil_r, <- !app_assoc.
Qed.

End UrlFacts.

(** C7, as stated, fails: a second generate action, started while the
    object URL 7 of the first export exists, revokes that URL twice before
    the new URL 8 is created: once in the handler, once more by the cleanup
    of the effect when the cleared cell is committed. *)
Lemma prior_url_revoked_twice :
  let first := Page.handle (Page.initial true)
                 (Page.Generate [1] (Page.Encoded 7%nat)) in
  let second := Page.handle first (Page.Generate [1] (Page.Encoded 8%nat)) in
  Page.videoUrl (Page.cells first) = Some 7%nat
  /\ Page.url_calls first = [Page.createObjectURL 7%nat]
  /\ Page.url_calls second
     = [Page.createObjectURL 7%nat;
        Page.revokeObjectURL 7%nat; Page.revokeObjectURL 7%nat;
        Page.createObjectURL 8%nat]
  /\ Page.revocations 7%nat
       (Page.before_create (skipn 1 (Page.url_calls second))) <> 1%nat.
Proof.
  cbv zeta. repeat split; try reflexivity.
  vm_compute. discriminate.
Qed.

(** C7, amended.  A generate action started while the object URL [u] of a
    previous export exists revokes [u] before any new object URL is
    created, and never zero times: the handler revokes it at once and the
    effect cleanup revokes it again when the cleared cell is committed, so
    the calls of the run are two revocations of [u], followed by the
    creation of the new URL when the run succeeds. *)
Theorem prior_url_revoked_before_create
        (c : Page.component) (u : Page.url)
        (frame_reports : list Q) (o : Page.outcome) :
  Page.videoUrl (Page.cells c) = Some u ->
  Page.effect_videoUrl c = Some u ->
  Page.button_enabled c = true ->
  let run := match o with
             | Page.Encoded fresh => [Page.createObjectURL fresh]
             | _ => []
             end in
  Page.url_calls (Page.handle c (Page.Generate frame_reports o))
  = Page.url_calls c
      ++ [Page.revokeObjectURL u; Page.revokeObjectURL u] ++ run
  /\ Page.revocations u
       (Page.before_create
          ([Page.revokeObjectURL u; Page.revokeObjectURL u] ++ run)) = 2%nat.
Proof.
  intros Hv He Hb. cbv zeta. split.
  - now apply UrlFacts.handle_generate_calls.
  - unfold Page.revocations.
    destruct o; simpl; rewrite Nat.eqb_refl; reflexivity.
Qed.

Lemma prior_url_revoked_before_create_witness :
  Page.url_calls
    (Page.handle
       (Page.handle (Page.initial true)
          (Page.Generate [1] (Page.Encoded 7%nat)))
       (Page.Generate [1] (Page.Encoded 8%nat)))
  = [Page.createObjectURL 7%nat]
      ++ [Page.revokeObjectURL 7%nat; Page.revokeObjectURL 7%nat]
      ++ [Page.createObjectURL 8%nat].
Proof.
  exact (proj1 (prior_url_revoked_before_create
                  (Page.handle (Page.initial true)
                     (Page.Generate [1] (Page.Encoded 7%nat)))
                  7%nat [1] (Page.Encoded 8%nat)
                  eq_refl eq_refl eq_refl)).
Defined.

(* ===================================================================== *)
(** * Further properties of the source *)
(* ===================================================================== *)

(** ** Segmenter: when there is a sentence, and what a sentence is *)

Lemma drop_while_nil_iff f (s : jsstring) :
  drop_while f s = [] <-> forallb f s = true.
Proof.
  split; [|apply drop_while_all].
  induction s as [|c r IH]; simpl; [reflexivity|].
  destruct (f c); [exact IH | discriminate].
Qed.

Lemma drop_while_prefix f (s : jsstring) :
  exists pre, s = pre ++ drop_while f s /\ forallb f pre = true.
Proof.
  induction s as [|c r [pre [IH Hpre]]]; simpl; [now exists []|].
  destruct (f c) eqn:E; [|now exists []].
  exists (c :: pre). simpl. rewrite E. split; [now rewrite <- IH | exact Hpre].
Qed.

Lemma trim_nil_iff (p : jsstring) : trim p = [] <-> all_white p = true.
Proof.
  split; [|apply trim_all_white].
  unfold trim, all_white. intros H.
  apply (f_equal (@rev code_unit)) in H. rewrite rev_involutive in H.
  simpl in H. apply drop_while_nil_iff in H.
  destruct (drop_while_prefix is_white_space p) as [pre [Hp Hpre]].
  rewrite Hp, forallb_app, Hpre. simpl.
  rewrite forallb_forall in *. intros x Hx. apply H. now apply -> in_rev.
Qed.

(** The pieces of the unit-by-unit split hold the non-separator units. *)
Lemma split_each_concat sep (s : jsstring) :
  concat (split_each sep s) = filter (fun c => negb (sep c)) s.
Proof.
  induction s as [|c r IH]; simpl; [reflexivity|].
  destruct (sep c); simpl; [exact IH|].
  rewrite <- IH. pose proof (split_each_nonempty sep r).
  now destruct (split_each sep r).
Qed.

Lemma fields_concat sep (s : jsstring) :
  concat (fields sep s) = filter (fun c => negb (sep c)) s.
Proof.
  rewrite <- split_each_concat. unfold fields.
  induction (split_each sep s) as [|p l IH]; [reflexivity|].
  simpl. destruct p; simpl; [exact IH | now rewrite IH].
Qed.

Lemma filter_trim_nil_iff (l : list jsstring) :
  filter truthy (map trim l) = [] <-> forallb all_white l = true.
Proof.
  induction l as [|p l IH]; simpl; [tauto|].
  destruct (trim p) as [|c t] eqn:E; simpl.
  - apply trim_nil_iff in E. rewrite E. exact IH.
  - split; [discriminate|]. intros H. apply andb_prop in H as [H _].
    apply trim_nil_iff in H. congruence.
Qed.

Lemma forallb_concat {A : Type} (f : A -> bool) (l : list (list A)) :
  forallb f (concat l) = forallb (forallb f) l.
Proof.
  induction l as [|x l IH]; [reflexivity|].
  simpl. now rewrite forallb_app, IH.
Qed.

Lemma splitSentences_nil_iff (prompt : jsstring) :
  splitSentences prompt = [] <-> forallb is_filler prompt = true.
Proof.
  rewrite splitSentences_refines. unfold segment_spec.
  rewrite filter_trim_nil_iff.
  change (forallb all_white (fields is_sentence_sep prompt))
    with (forallb (forallb is_white_space) (fields is_sentence_sep prompt)).
  rewrite <- forallb_concat, fields_concat.
  unfold is_filler.
  induction prompt as [|c r IH]; simpl; [tauto|].
  destruct (is_sentence_sep c); simpl; [exact IH|].
  destruct (is_white_space c); simpl; [exact IH | tauto].
Qed.

(** X1.  The prompt yields no sentence, and the Render button stays
    disabled, exactly when every unit of it is a sentence terminator or
    white space. *)
Theorem canGenerate_iff_content (prompt : jsstring) :
  (splitSentences prompt = [] <-> forallb is_filler prompt = true)
  /\ (canGenerate_of prompt = true
      <-> exists c, In c prompt /\ is_filler c = false).
Proof.
  pose proof (splitSentences_nil_iff prompt) as H.
  split; [exact H|].
  unfold canGenerate_of. split.
  - intros Hcan.
    destruct (forallb is_filler prompt) eqn:E.
    + rewrite (proj2 H eq_refl) in Hcan. discriminate.
    + clear -E. induction prompt as [|c r IH]; [discriminate|].
      simpl in E. destruct (is_filler c) eqn:Ec.
      * destruct (IH E) as [x [Hx Hf]]. exists x. split; [now right | exact Hf].
      * exists c. split; [now left | exact Ec].
  - intros [c [Hc Hf]].
    destruct (splitSentences prompt) eqn:E; [|reflexivity].
    pose proof (proj1 H eq_refl) as Hall.
    rewrite forallb_forall in Hall. rewrite (Hall c Hc) in Hf.
    discriminate.
Qed.

Lemma canGenerate_iff_content_witness :
  canGenerate_of (lit " ..a! ") = true.
Proof.
  apply (proj2 (canGenerate_iff_content (lit " ..a! "))).
  exists 97%N. split; [vm_compute; tauto | reflexivity].
Defined.

(** Trimming leaves a text with clean edges as it is. *)
Lemma edges_clean_trim (p : jsstring) : edges_clean p -> trim p = p.
Proof.
  destruct p as [|c r]; [reflexivity|].
  intros [Hc Hl]. unfold trim.
  assert (H1 : drop_while is_white_space (c :: r) = c :: r)
    by (simpl; now rewrite Hc).
  rewrite H1.
  destruct (rev (c :: r)) as [|x xs] eqn:E.
  - apply (f_equal (@rev code_unit)) in E. rewrite rev_involutive in E.
    discriminate E.
  - assert (Hx : x = last (c :: r) c).
    { apply (f_equal (@rev code_unit)) in E. rewrite rev_involutive in E.
      rewrite E. simpl rev. now rewrite last_last. }
    simpl. rewrite Hx, Hl. rewrite <- Hx, <- E. apply rev_involutive.
Qed.

Lemma splitSentences_is_sentence (s p : jsstring) :
  In p (splitSentences s) -> is_sentence p.
Proof.
  intros H. destruct (splitSentences_trimmed s p H) as [Hc Hne].
  pose proof (splitSentences_pieces s) as Hall.
  rewrite Forall_forall in Hall. destruct (Hall p H) as [_ Hfree].
  repeat split; assumption.
Qed.

Lemma splitSentences_of_sentence (p : jsstring) :
  is_sentence p -> splitSentences p = [p].
Proof.
  intros [Hne [Hfree Hclean]].
  rewrite splitSentences_refines. unfold segment_spec.
  rewrite (fields_sep_free is_sentence_sep p Hfree).
  destruct p as [|c r]; [contradiction|].
  simpl filter. simpl map. rewrite (edges_clean_trim _ Hclean). reflexivity.
Qed.

(** X2.  Every sentence the segmenter returns is non-empty, holds no
    terminator, has no white space at either end, and segments to itself:
    segmenting the sentences again changes nothing. *)
Theorem splitSentences_idempotent (input : jsstring) :
  Forall is_sentence (splitSentences input)
  /\ Forall (fun p => trim p = p /\ splitSentences p = [p])
            (splitSentences input)
  /\ flat_map splitSentences (splitSentences input) = splitSentences input.
Proof.
  assert (Hall : Forall is_sentence (splitSentences input)).
  { apply Forall_forall. intros p Hp.
    now apply (splitSentences_is_sentence input). }
  split; [exact Hall|]. split.
  - eapply Forall_impl; [|exact Hall].
    intros p Hp. split; [apply edges_clean_trim, Hp|].
    now apply splitSentences_of_sentence.
  - induction Hall as [|p l Hp _ IH]; [reflexivity|].
    simpl. rewrite (splitSentences_of_sentence p Hp), IH. reflexivity.
Qed.

Lemma fields_join_unit sep (d : code_unit) (parts : list jsstring) :
  sep d = true ->
  fields sep (join_unit d parts) = flat_map (fields sep) parts.
Proof.
  intros Hd. induction parts as [|x r IH]; [reflexivity|].
  destruct r as [|y r].
  - simpl. now rewrite app_nil_r.
  - change (join_unit d (x :: y :: r)) with (x ++ d :: join_unit d (y :: r)).
    rewrite (fields_app_sep sep _ _ _ Hd), IH. reflexivity.
Qed.

(** X3.  Sentences joined by a terminator are recovered by the segmenter,
    one for one and in order. *)
Theorem splitSentences_join (d : code_unit) (parts : list jsstring) :
  is_sentence_sep d = true -> Forall is_sentence parts ->
  splitSentences (join_unit d parts) = parts.
Proof.
  intros Hd Hparts. rewrite splitSentences_refines. unfold segment_spec.
  rewrite (fields_join_unit is_sentence_sep d parts Hd).
  induction Hparts as [|p l Hp _ IH]; [reflexivity|].
  simpl flat_map. rewrite map_app, filter_app, IH.
  destruct Hp as [Hne [Hfree Hclean]].
  rewrite (fields_sep_free is_sentence_sep p Hfree).
  destruct p as [|c r]; [contradiction|].
  simpl filter. simpl map. rewrite (edges_clean_trim _ Hclean). reflexivity.
Qed.

Lemma splitSentences_join_witness :
  splitSentences (join_unit 33%N [lit "Hello world"; lit "Really"])
  = [lit "Hello world"; lit "Really"].
Proof.
  apply splitSentences_join; [reflexivity|].
  repeat constructor; try discriminate.
Defined.

(** ** Timeline: neighbouring scenes *)

Lemma palette_at_neighbours (style : VisualStyle) (i : nat) :
  palette_at (STYLE_PALETTES style) i
  <> palette_at (STYLE_PALETTES style) (S i).
Proof.
  unfold palette_at. rewrite STYLE_PALETTES_length.
  change (S i) with (1 + i)%nat. rewrite (Nat.Div0.add_mod 1 i 4).
  pose proof (Nat.mod_upper_bound i 4 ltac:(discriminate)) as Hr.
  destruct (i mod 4)%nat as [|[|[|[|r]]]]; [| | | |lia];
    destruct style; simpl; discriminate.
Qed.

Lemma palette_at_period (style : VisualStyle) (i : nat) :
  palette_at (STYLE_PALETTES style) (4 + i)
  = palette_at (STYLE_PALETTES style) i.
Proof.
  rewrite (palette_at_cycles style i), (palette_at_cycles style (4 + i)).
  rewrite STYLE_PALETTES_length.
  replace ((4 + i) mod 4)%nat with (i mod 4)%nat; [reflexivity|].
  replace (4 + i)%nat with (i + 1 * 4)%nat by lia.
  now rewrite Nat.Div0.mod_add.
Qed.

(** X4.  In a timeline two scenes that follow one another never carry the
    same gradient, and two scenes four apart always do. *)
Theorem neighbouring_scenes_differ
        (sentences : list jsstring) (style : VisualStyle)
        (i : nat) (a b : TimelineSlice) :
  nth_error (createPaletteTimeline sentences style) i = Some a ->
  (nth_error (createPaletteTimeline sentences style) (S i) = Some b ->
   palette a <> palette b)
  /\ (nth_error (createPaletteTimeline sentences style) (4 + i) = Some b ->
      palette a = palette b).
Proof.
  unfold createPaletteTimeline. rewrite !map_indexed_nth_error.
  intros Ha. destruct (nth_error sentences i) as [sa|]; [|discriminate].
  simpl in Ha. injection Ha as <-. split; intros Hb.
  - destruct (nth_error sentences (S i)) as [sb|]; [|discriminate].
    simpl in Hb. injection Hb as <-. simpl. apply palette_at_neighbours.
  - destruct (nth_error sentences (4 + i)) as [sb|]; [|discriminate].
    simpl in Hb. injection Hb as <-. simpl palette.
    symmetry. exact (palette_at_period style i).
Qed.

Lemma neighbouring_scenes_differ_witness :
  palette (mkSlice (lit "a") 0 (Some ("#003f5c", "#2f4b7c")%string))
  <> palette (mkSlice (lit "b") 1 (Some ("#005377", "#3185fc")%string)).
Proof.
  exact (proj1 (neighbouring_scenes_differ [lit "a"; lit "b"] aqua 0
                  (mkSlice (lit "a") 0 (Some ("#003f5c", "#2f4b7c")%string))
                  (mkSlice (lit "b") 1 (Some ("#005377", "#3185fc")%string))
                  eq_refl) eq_refl).
Defined.

(** ** Word wrapping: shape of the lines *)

Lemma fields_not_nil (l : jsstring) (c : code_unit) :
  In c l -> is_white_space c = false -> words_of l <> [].
Proof.
  intros Hc Hw Hnil.
  pose proof (fields_concat is_white_space l) as H.
  unfold words_of in Hnil. rewrite Hnil in H. simpl in H.
  assert (Hin : In c (filter (fun c => negb (is_white_space c)) l))
    by (apply filter_In; split; [exact Hc | now rewrite Hw]).
  rewrite <- H in Hin. contradiction.
Qed.

Lemma words_of_all_white (text : jsstring) :
  all_white text = true -> words_of text = [].
Proof.
  intros Hw. destruct (words_of text) as [|w ws] eqn:E; [reflexivity|].
  exfalso.
  assert (Hin : In w (words_of text)) by (rewrite E; now left).
  destruct (fields_are_sep_free is_white_space text w Hin) as [Hne Hfree].
  destruct w as [|c w]; [contradiction|].
  pose proof (fields_concat is_white_space text) as H.
  fold (words_of text) in H. rewrite E in H. simpl in H.
  assert (Hc : In c (filter (fun c => negb (is_white_space c)) text))
    by (rewrite <- H; now left).
  apply filter_In in Hc as [Hc Hn].
  unfold all_white in Hw. rewrite forallb_forall in Hw.
  rewrite (Hw c Hc) in Hn. discriminate.
Qed.

Section WrapShape.

Variable measure : jsstring -> Q.
Variable maxWidth : Q.

Lemma wrap_loop_starts (words : list jsstring) :
  Forall (sep_free is_white_space) words ->
  forall lines line,
    Forall starts_clean lines -> (line = [] \/ starts_clean line) ->
    Forall starts_clean (fst (wrap_loop measure maxWidth words lines line))
    /\ (snd (wrap_loop measure maxWidth words lines line) = []
        \/ starts_clean (snd (wrap_loop measure maxWidth words lines line))).
Proof.
  induction 1 as [|word rest Hw _ IH]; intros lines line Hl Hline.
  - simpl. now split.
  - assert (Hword : word = [] \/ starts_clean word).
    { destruct word as [|c w]; [now left | right].
      inversion Hw; subst. assumption. }
    cbn [wrap_loop]. cbv zeta.
    destruct line as [|c line]; simpl truthy; cbv iota.
    + rewrite andb_false_r. now apply IH.
    + destruct Hline as [Hline|Hline]; [discriminate|].
      destruct (Qltb maxWidth _ && true).
      * apply IH; [|exact Hword].
        apply Forall_app. split; [exact Hl | now constructor].
      * apply IH; [exact Hl | right; exact Hline].
Qed.

Lemma wrapLines_starts (text : jsstring) :
  Forall starts_clean (wrapLines measure text maxWidth).
Proof.
  rewrite wrapLines_unfold. cbv zeta.
  destruct (wrap_loop_starts (split_runs is_white_space text)
              (split_go_sep_free is_white_space text false []
                 (Forall_nil _)) [] [] (Forall_nil _) (or_introl eq_refl))
    as [Hl Hline].
  set (r := wrap_loop measure maxWidth _ _ _) in *.
  destruct (snd r) as [|c line]; simpl; [exact Hl|].
  apply Forall_app. split; [exact Hl|].
  constructor; [|constructor].
  destruct Hline as [Hline|Hline]; [discriminate | exact Hline].
Qed.

Lemma wrapLines_count (text : jsstring) :
  (length (wrapLines measure text maxWidth) <= length (words_of text))%nat.
Proof.
  rewrite <- (wrapLines_words measure maxWidth text).
  pose proof (wrapLines_starts text) as H.
  induction H as [|l ls Hl _ IH]; simpl; [lia|].
  rewrite length_app.
  destruct l as [|c l]; [contradiction|].
  pose proof (fields_not_nil (c :: l) c (or_introl eq_refl) Hl) as Hne.
  destruct (words_of (c :: l)); [contradiction | simpl; lia].
Qed.

End WrapShape.

(** X5.  No line starts with white space, there are never more lines than
    words, and a text that is empty or all white space gives no line at
    all. *)
Theorem wrapLines_shape
        (measure : jsstring -> Q) (text : jsstring) (maxWidth : Q) :
  Forall starts_clean (wrapLines measure text maxWidth)
  /\ (length (wrapLines measure text maxWidth) <= length (words_of text))%nat
  /\ (all_white text = true -> wrapLines measure text maxWidth = []).
Proof.
  split; [apply wrapLines_starts|]. split; [apply wrapLines_count|].
  intros Hw. pose proof (wrapLines_count measure maxWidth text) as H.
  rewrite (words_of_all_white text Hw) in H.
  destruct (wrapLines measure text maxWidth); [reflexivity | simpl in H; lia].
Qed.

Lemma wrapLines_shape_witness :
  wrapLines unit_width (lit "  ") 3 = [].
Proof.
  exact (proj2 (proj2 (wrapLines_shape unit_width (lit "  ") 3)) eq_refl).
Defined.

(** ** Word wrapping: when it breaks and when it does not *)

Lemma adjacent_snoc {A : Type} (l : list A) (a b : A) :
  adjacent (l ++ [a; b]) = adjacent (l ++ [a]) ++ [(a, b)].
Proof.
  unfold adjacent. induction l as [|x l IH]; [reflexivity|].
  destruct l as [|y l]; [reflexivity|].
  simpl in *. now rewrite IH.
Qed.

Lemma adjacent_change_last {A : Type} (P : A * A -> Prop) (a a' : A) :
  (forall x, P (x, a) -> P (x, a')) ->
  forall l, Forall P (adjacent (l ++ [a])) -> Forall P (adjacent (l ++ [a'])).
Proof.
  intros Himp. unfold adjacent.
  induction l as [|x l IH]; intros H; [constructor|].
  destruct l as [|y l].
  - simpl in *. inversion H; subst. constructor; auto.
  - simpl in *. inversion H; subst. constructor; auto.
Qed.

Section WrapBreaks.

Variable measure : jsstring -> Q.
Variable maxWidth : Q.

Lemma forced_break_extend (all : list jsstring) (x line word : jsstring) :
  forced_break measure maxWidth all (x, line) ->
  forced_break measure maxWidth all (x, line ++ 32%N :: word).
Proof.
  intros [w [Hw [Hs Hm]]]. exists w. split; [exact Hw|]. split; [|exact Hm].
  simpl in *. right. destruct Hs as [->|[rest ->]].
  - now exists word.
  - exists (rest ++ 32%N :: word). now rewrite <- app_assoc.
Qed.

Lemma wrap_loop_breaks (all words : list jsstring) :
  incl words all -> Forall (fun w => w <> []) words ->
  forall lines line,
    line <> [] ->
    Forall (forced_break measure maxWidth all) (adjacent (lines ++ [line])) ->
    Forall (forced_break measure maxWidth all)
           (adjacent (fst (wrap_loop measure maxWidth words lines line)
                        ++ [snd (wrap_loop measure maxWidth words lines line)])).
Proof.
  intros Hincl Hne. revert Hincl.
  induction Hne as [|word rest Hw _ IH]; intros Hincl lines line Hline Hadj.
  - exact Hadj.
  - assert (Hrest : incl rest all) by (intros x Hx; apply Hincl; now right).
    cbn [wrap_loop]. cbv zeta.
    destruct line as [|c line]; [contradiction|].
    simpl truthy. cbv iota.
    destruct (Qltb maxWidth _) eqn:Hq; simpl andb.
    + apply IH; [exact Hrest | exact Hw|].
      rewrite <- app_assoc. simpl app. rewrite adjacent_snoc.
      apply Forall_app. split; [exact Hadj|].
      constructor; [|constructor].
      exists word. split; [apply Hincl; now left|].
      split; [now left|]. simpl. now apply Qltb_true.
    + apply IH; [exact Hrest | discriminate|].
      revert Hadj. apply adjacent_change_last.
      intros x. apply forced_break_extend.
Qed.

(** The loop never breaks while the whole joined text fits. *)
Lemma wrap_loop_fits (words : list jsstring) :
  (forall a b, measure a <= measure (a ++ b)) ->
  forall lines line,
    line <> [] ->
    measure (join_sp (line :: words)) <= maxWidth ->
    wrap_loop measure maxWidth words lines line
    = (lines, join_sp (line :: words)).
Proof.
  intros Hmono.
  induction words as [|word rest IH]; intros lines line Hline Hfit;
    [reflexivity|].
  cbn [wrap_loop]. cbv zeta.
  destruct line as [|c line]; [contradiction|].
  simpl truthy. cbv iota.
  assert (Hglue : join_sp (((c :: line) ++ 32%N :: word) :: rest)
                  = join_sp ((c :: line) :: word :: rest))
    by exact (join_sp_glue (c :: line) word rest []).
  assert (Hq : Qltb maxWidth (measure ((c :: line) ++ 32%N :: word)) = false).
  { apply Qltb_false_iff.
    eapply Qle_trans; [|exact Hfit].
    rewrite join_sp_cons.
    destruct rest as [|y rest]; [apply Qle_refl|].
    rewrite join_sp_cons.
    replace ((c :: line) ++ 32%N :: word ++ 32%N :: join_sp (y :: rest))
      with (((c :: line) ++ 32%N :: word) ++ 32%N :: join_sp (y :: rest))
      by (now rewrite <- app_assoc).
    apply Hmono. }
  rewrite Hq. simpl andb. cbv iota.
  rewrite IH; [now rewrite Hglue | discriminate | now rewrite Hglue].
Qed.

End WrapBreaks.

(** The words of a text with clean edges, as the loop receives them. *)
Lemma split_runs_clean (text : jsstring) :
  edges_clean text -> text <> [] ->
  split_runs is_white_space text = words_of text
  /\ Forall (fun w => w <> []) (words_of text)
  /\ words_of text <> [].
Proof.
  intros Hclean Hne.
  pose proof (split_runs_no_empty_word text Hclean Hne) as Hw.
  assert (E : split_runs is_white_space text = words_of text).
  { unfold words_of. rewrite <- split_runs_fields.
    symmetry. now apply filter_truthy_id. }
  rewrite <- E. split; [reflexivity|]. split; [exact Hw|].
  apply split_go_not_nil.
Qed.

(** X6.  For a text without surrounding white space the wrap is greedy: a
    line ends only where the next word would have made it wider than the
    maximum width. *)
Theorem wrapLines_greedy
        (measure : jsstring -> Q) (text : jsstring) (maxWidth : Q) :
  edges_clean text ->
  Forall (forced_break measure maxWidth (words_of text))
         (adjacent (wrapLines measure text maxWidth)).
Proof.
  intros Hclean. destruct text as [|c0 r0] eqn:Etext.
  - rewrite wrapLines_unfold. simpl. rewrite andb_false_r. constructor.
  - rewrite <- Etext in *.
    assert (Hne : text <> []) by (rewrite Etext; discriminate).
    destruct (split_runs_clean text Hclean Hne) as [E [Hw Hnn]].
    rewrite wrapLines_unfold. cbv zeta. rewrite E.
    destruct (words_of text) as [|w ws]; [contradiction|].
    inversion Hw as [|w' ws' Hw1 Hws]; subst w' ws'.
    cbn [wrap_loop]. cbv zeta. simpl truthy. cbv iota.
    rewrite andb_false_r.
    pose proof (wrap_loop_breaks measure maxWidth (w :: ws) ws
                  (fun x Hx => or_intror Hx) Hws [] w Hw1
                  (Forall_nil _)) as Hadj.
    destruct (wrap_loop_join measure maxWidth ws Hws [] w Hw1) as [Hsnd _].
    apply truthy_iff in Hsnd. rewrite Hsnd. exact Hadj.
Qed.

Lemma wrapLines_greedy_witness :
  Forall (forced_break unit_width 4 (words_of (lit "ab cdefg hi j")))
         (adjacent (wrapLines unit_width (lit "ab cdefg hi j") 4)).
Proof.
  apply wrapLines_greedy. split; reflexivity.
Defined.

(** X7.  When a text is never narrower than its beginnings and the words of
    a text without surrounding white space, joined by single spaces, fit
    the maximum width, they stay on one line. *)
Theorem wrapLines_single_line
        (measure : jsstring -> Q) (text : jsstring) (maxWidth : Q) :
  (forall a b, measure a <= measure (a ++ b)) ->
  edges_clean text -> text <> [] ->
  measure (join_sp (words_of text)) <= maxWidth ->
  wrapLines measure text maxWidth = [join_sp (words_of text)].
Proof.
  intros Hmono Hclean Hne Hfit.
  destruct (split_runs_clean text Hclean Hne) as [E [Hw Hnn]].
  rewrite wrapLines_unfold. cbv zeta. rewrite E.
  destruct (words_of text) as [|w ws]; [contradiction|].
  inversion Hw as [|w' ws' Hw1 Hws]; subst w' ws'.
  cbn [wrap_loop]. cbv zeta. simpl truthy. cbv iota.
  rewrite andb_false_r.
  rewrite (wrap_loop_fits measure maxWidth ws Hmono [] w Hw1 Hfit).
  cbn [fst snd].
  assert (Ht : truthy (join_sp (w :: ws)) = true).
  { apply truthy_iff. destruct w as [|c w]; [contradiction|].
    destruct ws; simpl; discriminate. }
  transitivity (if truthy (join_sp (w :: ws))
                then [] ++ [join_sp (w :: ws)] else []);
    [reflexivity | now rewrite Ht].
Qed.

Lemma unit_width_prefix (a b : jsstring) :
  unit_width a <= unit_width (a ++ b).
Proof.
  unfold unit_width. rewrite <- Zle_Qle, length_app. lia.
Qed.

Lemma wrapLines_single_line_witness :
  wrapLines unit_width (lit "ab  cd") 5 = [lit "ab cd"].
Proof.
  apply (wrapLines_single_line unit_width (lit "ab  cd") 5
           unit_width_prefix).
  - split; reflexivity.
  - discriminate.
  - vm_compute. discriminate.
Defined.

(** ** Render driver: which frame shows which scene *)

Section LoopFrames.
Local Open Scope Q_scope.

Variable canvas : Canvas.
Variable timeline : list TimelineSlice.
Variables segFrames total : Q.
Hypothesis segFrames_pos : 0 < segFrames.
Hypothesis total_eq :
  total == segFrames * inject_Z (Z.of_nat (length timeline)).
Hypothesis timeline_ok : palettes_defined timeline.

Lemma Qtrunc_comp (a b : Q) : a == b -> Qtrunc a = Qtrunc b.
Proof.
  intros H.
  assert (E1 : Qle_bool 0 a = Qle_bool 0 b) by now rewrite H.
  assert (E2 : Qfloor a = Qfloor b) by now rewrite H.
  assert (E3 : Qceiling a = Qceiling b) by now rewrite H.
  unfold Qtrunc. now rewrite E1, E2, E3.
Qed.

Lemma js_rem_comp (a a' b : Q) : a == a' -> js_rem a b == js_rem a' b.
Proof.
  intros H. unfold js_rem.
  rewrite (Qtrunc_comp (a / b) (a' / b)) by now rewrite H.
  now rewrite H.
Qed.

Lemma render_loop_frames (n : nat) :
  forall (k : Z) (cur : Q) (log : RenderLog) (fuel : nat),
    cur == inject_Z k -> (0 <= k)%Z ->
    n = Z.to_nat (Qceiling total - k) -> (n <= fuel)%nat ->
    exists fs,
      render_loop fuel canvas timeline segFrames total cur log
      = Some (Normal (mkLog (frames log ++ fs)
                            (reports log ++ reports_from total n cur)))
      /\ length fs = n
      /\ (forall j f, nth_error fs j = Some f ->
                      frame_of_counter canvas timeline segFrames
                                       (k + Z.of_nat j) f).
Proof.
  induction n as [|n IH]; intros k cur log fuel Hcur Hk Hn Hfuel.
  - assert (Hstop : Qltb cur total = false).
    { apply Qltb_false_iff. rewrite Hcur.
      apply Qle_trans with (inject_Z (Qceiling total));
        [apply Qle_ceiling|].
      rewrite <- Zle_Qle. lia. }
    exists []. split; [|split; [reflexivity|]];
      [|intros j f Hj; destruct j; discriminate Hj].
    destruct log as [fr rp]. simpl frames; simpl reports.
    rewrite !app_nil_r.
    destruct fuel; cbn [render_loop]; now rewrite Hstop.
  - assert (Hlt : cur < total).
    { rewrite Hcur.
      apply Qle_lt_trans with (inject_Z (Qceiling total - 1));
        [rewrite <- Zle_Qle; lia | apply Qceiling_lt]. }
    assert (Hgo : Qltb cur total = true) by now apply Qltb_true.
    assert (Hnonneg : 0 <= cur).
    { rewrite Hcur. change 0 with (inject_Z 0). rewrite <- Zle_Qle. lia. }
    destruct fuel as [|fuel]; [lia|].
    cbn [render_loop]. rewrite Hgo.
    destruct (sliceIndex_in_range cur segFrames
                (Z.of_nat (length timeline)) Hnonneg segFrames_pos)
      as [Hi0 Hi1]; [now rewrite <- total_eq|].
    set (i := Qfloor (cur / segFrames)) in *.
    assert (Hget : exists sl, nth_error timeline (Z.to_nat i) = Some sl).
    { destruct (nth_error timeline (Z.to_nat i)) as [sl|] eqn:E;
        [now exists sl|].
      apply nth_error_None in E. lia. }
    destruct Hget as [sl Hsl].
    unfold array_get.
    destruct (Z.ltb_spec i 0) as [Hneg|_]; [lia|].
    rewrite Hsl. cbv zeta.
    assert (Hpal : exists g, palette sl = Some g).
    { unfold palettes_defined in timeline_ok.
      rewrite Forall_forall in timeline_ok.
      apply nth_error_In in Hsl. specialize (timeline_ok sl Hsl).
      destruct (palette sl) as [g|]; [now exists g | contradiction]. }
    destruct Hpal as [g Hg]. rewrite Hg.
    destruct (IH (k + 1)%Z (cur + 1)
                (mkLog (frames log
                          ++ [mkFrame i (js_rem cur segFrames / segFrames) sl g
                                (wrapLines (measureText canvas) (sentence sl)
                                   (width canvas * (7 # 10)))])
                       (reports log ++ [(cur + 1) / total]))
                fuel)
      as [fs [Hrun [Hlen Hfs]]].
    + rewrite inject_Z_plus, Hcur. reflexivity.
    + lia.
    + lia.
    + lia.
    + eexists (_ :: fs). split; [|split].
      * rewrite Hrun. simpl frames; simpl reports.
        rewrite <- !app_assoc. reflexivity.
      * simpl. now rewrite Hlen.
      * intros j f Hj. destruct j as [|j].
        -- injection Hj as <-. unfold frame_of_counter. simpl.
           rewrite Z.add_0_r.
           split; [unfold i; now rewrite Hcur|].
           split; [now rewrite (js_rem_comp cur (inject_Z k)) by exact Hcur|].
           split; [exact Hsl|]. split; [exact Hg | reflexivity].
        -- simpl in Hj. specialize (Hfs j f Hj).
           replace (k + Z.of_nat (S j))%Z with (k + 1 + Z.of_nat j)%Z by lia.
           exact Hfs.
Qed.

End LoopFrames.

Section WholeFrames.
Local Open Scope Q_scope.

(** With a whole number [F] of frames per scene the scene of counter value
    [m] is [m / F] and its progress is [(m mod F) / F]. *)
Lemma whole_sliceIndex (segFrames : Q) (F m : Z) :
  segFrames == inject_Z F -> (0 < F)%Z ->
  Qfloor (inject_Z m / segFrames) = (m / F)%Z.
Proof.
  intros HF _. rewrite HF. symmetry. apply Zdiv_Qdiv.
Qed.

Lemma whole_sliceProgress (segFrames : Q) (F m : Z) :
  segFrames == inject_Z F -> (0 < F)%Z -> (0 <= m)%Z ->
  js_rem (inject_Z m) segFrames / segFrames
  == inject_Z (m mod F) / inject_Z F.
Proof.
  intros HF HFpos Hm.
  assert (HFq : 0 < inject_Z F).
  { change 0 with (inject_Z 0). now rewrite <- Zlt_Qlt. }
  assert (Hq : 0 <= inject_Z m / inject_Z F).
  { apply quotient_nonneg; [|exact HFq].
    change 0 with (inject_Z 0). now rewrite <- Zle_Qle. }
  assert (Ht : Qtrunc (inject_Z m / segFrames) = (m / F)%Z).
  { rewrite (Qtrunc_comp _ (inject_Z m / inject_Z F)) by now rewrite HF.
    unfold Qtrunc. apply Qle_bool_iff in Hq. rewrite Hq.
    symmetry. apply Zdiv_Qdiv. }
  unfold js_rem. rewrite Ht, HF.
  apply Qdiv_comp; [|reflexivity].
  rewrite (Z.mod_eq m F) by lia.
  unfold Zminus. rewrite inject_Z_plus, inject_Z_opp, inject_Z_mult. ring.
Qed.

End WholeFrames.



(** ** Render driver: edges, and the run from the prompt *)

(** X9.  Without a 2D context the driver throws before anything is drawn.
    With a context but nothing to draw, because the timeline is empty or the
    frames per scene are not positive, it returns at once, having drawn and
    reported nothing. *)
Theorem renderTimelineToVideo_edges
        (canvas : Canvas) (timeline : list TimelineSlice)
        (settings : GenerationSettings) :
  (context_available canvas = false ->
   renderTimelineToVideo canvas timeline settings
   = Some (Throw "Canvas context is not available."))
  /\ (context_available canvas = true ->
      (timeline = [] \/ segmentFrames settings <= 0)%Q ->
      renderTimelineToVideo canvas timeline settings
      = Some (Normal (mkLog [] []))).
Proof.
  unfold renderTimelineToVideo. split; intros Hctx; rewrite Hctx;
    [reflexivity|].
  intros Hnone. cbv zeta.
  assert (Htot : (totalFrames settings timeline <= 0)%Q).
  { unfold totalFrames. destruct Hnone as [->|Hseg].
    - simpl length. change (inject_Z (Z.of_nat 0)) with 0%Q.
      rewrite Qmult_0_r. apply Qle_refl.
    - assert (Hlen : (0 <= inject_Z (Z.of_nat (length timeline)))%Q).
      { change 0%Q with (inject_Z 0). rewrite <- Zle_Qle. lia. }
      nra. }
  assert (Hstop : Qltb 0 (totalFrames settings timeline) = false)
    by now apply Qltb_false_iff.
  destruct (enough_fuel (totalFrames settings timeline));
    cbn [render_loop]; now rewrite Hstop.
Qed.

Lemma renderTimelineToVideo_edges_witness :
  renderTimelineToVideo demo_canvas [] (mkSettings 24 3 cosmic)
  = Some (Normal (mkLog [] [])).
Proof.
  exact (proj2 (renderTimelineToVideo_edges demo_canvas []
                  (mkSettings 24 3 cosmic)) eq_refl (or_introl eq_refl)).
Defined.




(** ** Frame compositor: geometry *)

Section GeometryFacts.
Local Open Scope R_scope.

(** Whole turns do not change a sine or a cosine. *)
Lemma sin_whole_turns (y : R) (k : Z) : sin (y - 2 * PI * IZR k) = sin y.
Proof.
  destruct (Z_le_gt_dec 0 k) as [Hk|Hk].
  - rewrite <- (Z2Nat.id k Hk), <- INR_IZR_INZ.
    rewrite <- (sin_period (y - 2 * PI * INR (Z.to_nat k)) (Z.to_nat k)).
    f_equal. ring.
  - replace k with (- Z.of_nat (Z.to_nat (- k)))%Z by lia.
    rewrite opp_IZR, <- INR_IZR_INZ.
    rewrite <- (sin_period y (Z.to_nat (- k))). f_equal. ring.
Qed.

Lemma wave_sample_unreduced (width height phase : R) (i s : nat) :
  snd (wave_sample width height phase i s)
  = wave_baseline height i
    + sin (phase + INR i * 0.5 + INR s / INR segments * PI * 2)
      * wave_amplitude height i.
Proof.
  unfold wave_sample, wave_offset, js_fmod. cbn [snd]. do 2 f_equal.
  rewrite <- (sin_whole_turns
                (phase + INR i * 0.5 + INR s / INR segments * PI * 2)
                (Rtrunc ((phase + INR i * 0.5) / (2 * PI)))).
  f_equal. lra.
Qed.

Lemma INR_small (n m : nat) : (n <= m)%nat -> 0 <= INR n <= INR m.
Proof. intros H. split; [apply pos_INR | now apply le_INR]. Qed.

Lemma wave_amplitude_range (height : R) (i : nat) :
  0 <= height -> (i < waveCount)%nat ->
  0 <= wave_amplitude height i
  /\ 0 <= wave_baseline height i - wave_amplitude height i
  /\ wave_baseline height i + wave_amplitude height i <= height.
Proof.
  intros Hh Hi. unfold wave_amplitude, wave_baseline, waveCount in *.
  destruct (INR_small i 3 ltac:(lia)) as [H0 H3].
  replace (INR 3) with 3 in H3 by (simpl; lra).
  set (c := INR i) in *. repeat split; nra.
Qed.

Lemma wave_sample_range (width height phase : R) (i s : nat) :
  0 <= width -> 0 <= height -> (i < waveCount)%nat -> (s <= segments)%nat ->
  in_canvas width height (wave_sample width height phase i s)
  /\ Rabs (snd (wave_sample width height phase i s) - wave_baseline height i)
     <= wave_amplitude height i.
Proof.
  intros Hw Hh Hi Hs.
  destruct (wave_amplitude_range height i Hh Hi) as [Ha [Hlo Hhi]].
  unfold in_canvas, wave_sample. cbn [fst snd].
  set (a := wave_amplitude height i) in *.
  set (b := wave_baseline height i) in *.
  pose proof (SIN_bound (wave_offset phase i + INR s / INR segments * PI * 2))
    as [Hs0 Hs1].
  set (v := sin _) in *.
  assert (Hva : - a <= v * a <= a) by (split; nra).
  destruct (INR_small s segments Hs) as [Ht0 Ht1].
  unfold segments in *. replace (INR 8) with 8 in * by (simpl; lra).
  set (t := INR s) in *.
  split; [split; [split; nra | split; lra]|].
  replace (b + v * a - b) with (v * a) by ring.
  apply Rabs_le. lra.
Qed.

End GeometryFacts.

(** X12.  In every wave band of the background all points of the filled
    path lie within the canvas, every sample lies within the band's
    amplitude of its baseline, and reducing the phase modulo a full turn
    changes no sample. *)
Theorem wave_paths_in_canvas (width height phase : R) (path : list (R * R)) :
  (0 <= width)%R -> (0 <= height)%R ->
  In path (wave_paths width height phase) ->
  Forall (in_canvas width height) path
  /\ (forall i s, (i < waveCount)%nat -> (s <= segments)%nat ->
        (Rabs (snd (wave_sample width height phase i s)
               - wave_baseline height i)
         <= wave_amplitude height i)%R
        /\ snd (wave_sample width height phase i s)
           = (wave_baseline height i
              + sin (phase + INR i * 0.5 + INR s / INR segments * PI * 2)
                * wave_amplitude height i)%R).
Proof.
  intros Hw Hh Hin. split.
  - unfold wave_paths in Hin. apply in_map_iff in Hin as [i [<- Hi]].
    apply in_seq in Hi. simpl in Hi.
    unfold wave_path. constructor.
    + unfold in_canvas. simpl.
      destruct (INR_small i 3 ltac:(unfold waveCount in *; lia)) as [H0 H3].
      replace (INR 3) with 3%R in H3 by (simpl; lra). nra.
    + apply Forall_app. split.
      * apply Forall_forall. intros pt Hpt.
        apply in_map_iff in Hpt as [s [<- Hs]]. apply in_seq in Hs.
        apply wave_sample_range; auto; unfold waveCount, segments in *; lia.
      * unfold in_canvas.
        repeat (apply Forall_cons; [simpl; lra|]). apply Forall_nil.
  - intros i s Hi Hs. split.
    + now apply wave_sample_range.
    + apply wave_sample_unreduced.
Qed.

Lemma wave_paths_in_canvas_witness :
  Forall (in_canvas 1280 720) (wave_path 1280 720 0 0).
Proof.
  apply (wave_paths_in_canvas 1280 720 0 (wave_path 1280 720 0 0));
    [lra | lra | now left].
Defined.

Section OrbitFacts.
Local Open Scope R_scope.

Lemma satelliteAngle_next_scene (p : R) (i : nat) :
  satelliteAngle (p + 1) i = satelliteAngle p i + 2 * INR 1 * PI.
Proof. unfold satelliteAngle. simpl (INR 1). lra. Qed.

Lemma oscillation_next_scene (p : R) : oscillation (p + 1) = oscillation p.
Proof.
  unfold oscillation.
  replace ((p + 1) * PI * 2) with (p * PI * 2 + 2 * INR 1 * PI)
    by (simpl (INR 1); lra).
  apply sin_period.
Qed.

Lemma satellite_on_ring (width height p : R) (i : nat) :
  (fst (satellite_center width height p i) - width / 2) ^ 2
  + (snd (satellite_center width height p i) - height / 2) ^ 2
  = orbitRadius height ^ 2.
Proof.
  unfold satellite_center. cbn [fst snd].
  set (a := satelliteAngle p i). set (r := orbitRadius height).
  pose proof (sin2_cos2 a) as H. unfold Rsqr in H.
  replace (width / 2 + cos a * r - width / 2) with (cos a * r) by ring.
  replace (height / 2 + sin a * r - height / 2) with (sin a * r) by ring.
  nra.
Qed.

Lemma satellite_dot_inside (width height p : R) (i : nat) :
  0 <= height -> height * 0.864 <= width ->
  let c := satellite_center width height p i in
  let d := satellite_radius height in
  0 <= fst c - d /\ fst c + d <= width
  /\ 0 <= snd c - d /\ snd c + d <= height.
Proof.
  intros Hh Hw. cbv zeta.
  unfold satellite_center, satellite_radius, orbitRadius. cbn [fst snd].
  pose proof (SIN_bound (satelliteAngle p i)) as [Hs0 Hs1].
  pose proof (COS_bound (satelliteAngle p i)) as [Hc0 Hc1].
  set (sn := sin _) in *. set (cs := cos _) in *.
  repeat split; nra.
Qed.

End OrbitFacts.

(** X13.  Every satellite's centre lies on the guide ring; the six are a
    sixth of a turn apart; on a canvas at least 0.864 times as wide as high
    (1280 by 720 is) every dot lies inside the frame; and one scene later
    each satellite is where it was, with the opacity it had. *)
Theorem satellites_on_ring (width height p : R) (i : nat) :
  ((fst (satellite_center width height p i) - width / 2) ^ 2
   + (snd (satellite_center width height p i) - height / 2) ^ 2
   = orbitRadius height ^ 2)%R
  /\ satelliteAngle p (S i) = (satelliteAngle p i + PI / 3)%R
  /\ satellite_center width height (p + 1) i = satellite_center width height p i
  /\ satelliteOpacity (p + 1) i = satelliteOpacity p i
  /\ ((0 <= height)%R -> (height * 0.864 <= width)%R ->
      let c := satellite_center width height p i in
      let d := satellite_radius height in
      (0 <= fst c - d)%R /\ (fst c + d <= width)%R
      /\ (0 <= snd c - d)%R /\ (snd c + d <= height)%R).
Proof.
  split; [apply satellite_on_ring|]. split; [|split; [|split]].
  - unfold satelliteAngle, satelliteCount. rewrite S_INR.
    replace (INR 6) with 6%R by (simpl; lra). field.
  - unfold satellite_center.
    rewrite satelliteAngle_next_scene, cos_period, sin_period. reflexivity.
  - unfold satelliteOpacity.
    rewrite satelliteAngle_next_scene, oscillation_next_scene.
    replace (satelliteAngle p i + 2 * INR 1 * PI + oscillation p)%R
      with (satelliteAngle p i + oscillation p + 2 * INR 1 * PI)%R by ring.
    now rewrite sin_period.
  - apply satellite_dot_inside.
Qed.

Lemma satellites_on_ring_witness :
  let c := satellite_center 1280 720 0 0 in
  let d := satellite_radius 720 in
  (0 <= fst c - d)%R /\ (fst c + d <= 1280)%R
  /\ (0 <= snd c - d)%R /\ (snd c + d <= 720)%R.
Proof.
  apply (proj2 (proj2 (proj2 (proj2 (satellites_on_ring 1280 720 0 0)))));
    lra.
Defined.

Section CaptionFacts.
Local Open Scope R_scope.

Lemma displacement_range (height p : R) :
  0 <= height -> 0 <= p <= 1 ->
  0 <= displacement height p <= height * 0.03.
Proof.
  intros Hh [Hp0 Hp1]. unfold displacement.
  assert (Hs : 0 <= sin (p * PI) <= 1).
  { split; [|apply SIN_bound].
    pose proof PI_RGT_0. apply sin_ge_0; nra. }
  nra.
Qed.

Lemma lineY_gap (height p : R) (n j : nat) :
  lineY height p n (S j) - lineY height p n j
  = height * 0.1 + displacement height p.
Proof. unfold lineY. cbv zeta. rewrite S_INR. lra. Qed.

Lemma lineY_mirror (height p : R) (n j : nat) :
  (j < n)%nat ->
  lineY height p n j + lineY height p n (n - 1 - j) = height * 0.9.
Proof.
  intros Hj. unfold lineY. cbv zeta.
  replace (INR (n - 1 - j)) with (INR n - 1 - INR j).
  - lra.
  - rewrite !minus_INR by lia. simpl (INR 1). ring.
Qed.

End CaptionFacts.

(** X14.  The caption lines are evenly spaced from top to bottom: the
    distance between the centres of neighbouring lines is a line height
    plus the displacement, for a progress in [[0, 1]] between 0.1 and 0.13
    of the canvas height, and the block is mirror symmetric about 0.45 of
    the canvas height. *)
Theorem caption_line_spacing (height p : R) (n j : nat) :
  (0 <= height)%R -> (0 <= p <= 1)%R -> (j < n)%nat ->
  (lineY height p n (S j) - lineY height p n j
   = height * 0.1 + displacement height p)%R
  /\ (height * 0.1 <= lineY height p n (S j) - lineY height p n j
      <= height * 0.13)%R
  /\ (lineY height p n j + lineY height p n (n - 1 - j) = height * 0.9)%R.
Proof.
  intros Hh Hp Hj.
  pose proof (displacement_range height p Hh Hp) as Hd.
  rewrite lineY_gap.
  split; [reflexivity|]. split; [lra | now apply lineY_mirror].
Qed.

Lemma caption_line_spacing_witness :
  (720 * 0.1 <= lineY 720 (1 / 2) 3 1 - lineY 720 (1 / 2) 3 0
   <= 720 * 0.13)%R.
Proof.
  apply (proj1 (proj2 (caption_line_spacing 720 (1 / 2) 3 0
                         ltac:(lra) ltac:(lra) ltac:(lia)))).
Defined.

Section AlphaShape.
Local Open Scope R_scope.





Lemma lineAlpha_of_distance (p : R) (n j : nat) :
  let d := Rabs (p - line_moment n j) in
  lineAlpha p n j = Rmax 0.15 (1 - d * 2.4).
Proof.
  cbv zeta. unfold lineAlpha, line_moment. cbv zeta.
  set (d := Rabs _). unfold Rmax.
  repeat destruct (Rle_dec _ _); lra.
Qed.

End AlphaShape.



(** ** The page component: reset, outcomes of a run, object URLs *)

Section CellFacts.
Import Page.

Lemma cells_exec (c : component) (a : action) :
  cells (exec c a) = exec_cells (cells c) a.
Proof.
  destruct a; try reflexivity.
  change (exec c await) with (commit c). apply PageFacts.commit_cells.
Qed.

Lemma cells_exec_all (l : list action) : forall c,
  cells (exec_all c l) = fold_left exec_cells l (cells c).
Proof.
  unfold exec_all.
  induction l as [|a l IH]; intros c; [reflexivity|].
  simpl. now rewrite IH, cells_exec.
Qed.

Lemma cells_handle (c : component) (e : event) :
  cells (handle c e) = fold_left exec_cells (handler c e) (cells c).
Proof.
  unfold handle. rewrite PageFacts.commit_cells. apply cells_exec_all.
Qed.

(** The frames of a run only move the progress cell. *)
Lemma frames_cells (frame_reports : list Q) : forall s,
  fold_left exec_cells (flat_map frame_actions frame_reports) s
  = mkState (phase s) (last frame_reports (progress s))
            (errorMessage s) (videoUrl s).
Proof.
  induction frame_reports as [|r l IH]; intros s; [now destruct s|].
  cbn [flat_map frame_actions app fold_left]. rewrite IH.
  cbn [exec_cells phase progress errorMessage videoUrl].
  now rewrite PageFacts.last_cons.
Qed.

Lemma commit_settled (c : component) : settled c -> commit c = c.
Proof.
  unfold settled, commit. intros H.
  now rewrite H, UrlFacts.url_eqb_refl.
Qed.

Lemma handle_settled (c : component) (e : event) : settled (handle c e).
Proof.
  unfold settled, handle, commit.
  destruct (url_eqb _ _) eqn:E; [|reflexivity].
  set (d := exec_all c (handler c e)) in *.
  destruct (effect_videoUrl d) as [x|], (videoUrl (cells d)) as [y|];
    simpl in E; try discriminate; [|reflexivity].
  apply Nat.eqb_eq in E. now subst.
Qed.

End CellFacts.

(** X16.  Reset leaves the phase idle, the progress 0, no artifact and no
    error message, whatever the state before; the object URL the page was
    showing is revoked once by the effect cleanup; and a second reset
    changes nothing. *)
Theorem reset_clears (c : Page.component) :
  Page.cells (Page.handle c Page.Reset)
  = Page.mkState Page.idle 0 None None
  /\ Page.url_calls (Page.handle c Page.Reset)
     = Page.url_calls c
         ++ match Page.effect_videoUrl c with
            | Some u => [Page.revokeObjectURL u]
            | None => []
            end
  /\ Page.handle (Page.handle c Page.Reset) Page.Reset
     = Page.handle c Page.Reset.
Proof.
  destruct c as [[ph pr er v] can eff calls].
  destruct eff as [u|]; simpl; repeat split; try reflexivity.
  now rewrite app_nil_r.
Qed.

Section OutcomeFacts.
Import Page.

Lemma handleGenerate_progress (v : option url) (frame_reports : list Q)
      (o : outcome) :
  progress_writes (handleGenerate true v frame_reports o)
  = 0%Q :: (if before_first_frame o then [] else frame_reports)
      ++ match o with Encoded _ => [1%Q] | _ => [] end.
Proof.
  assert (Hfr : progress_writes (flat_map frame_actions frame_reports)
                = frame_reports).
  { induction frame_reports as [|r l IH]; [reflexivity|].
    simpl. now f_equal. }
  assert (Happ : forall l1 l2, progress_writes (l1 ++ l2)
                               = progress_writes l1 ++ progress_writes l2)
    by (intros; apply flat_map_app).
  unfold handleGenerate. simpl negb. cbv iota.
  rewrite !Happ.
  assert (Hv : progress_writes
                 match v with
                 | Some u => [call (revokeObjectURL u); setVideoUrl None]
                 | None => []
                 end = []) by now destruct v.
  rewrite Hv. simpl app.
  destruct o; simpl; try reflexivity.
  - rewrite Happ, Hfr. simpl. now rewrite app_nil_r.
  - rewrite Happ, Hfr. reflexivity.
Qed.

Lemma handleGenerate_cells (s : state) (frame_reports : list Q) (o : outcome) :
  fold_left exec_cells
    (handleGenerate true (videoUrl s) frame_reports o) s
  = match o with
    | Encoded fresh => mkState complete 1 None (Some fresh)
    | _ =>
        mkState error
                (if before_first_frame o then 0%Q else last frame_reports 0%Q)
                (failure_message o) None
    end.
Proof.
  unfold handleGenerate. simpl negb. cbv iota.
  rewrite !fold_left_app.
  assert (H1 : fold_left exec_cells
                 match videoUrl s with
                 | Some u => [call (revokeObjectURL u); setVideoUrl None]
                 | None => []
                 end
                 (fold_left exec_cells
                    [setVideoUrl None; setError None; setPhase preparing;
                     setProgress 0%Q] s)
               = mkState preparing 0 None None)
    by (destruct s as [ph pr er [u|]]; reflexivity).
  rewrite H1.
  destruct o; try reflexivity;
    cbn [fold_left exec_cells];
    rewrite fold_left_app, frames_cells; reflexivity.
Qed.

End OutcomeFacts.

(** X17.  A run that fails ends in the error phase with the message of the
    failure and exposes no artifact; a failure of an environment check
    comes before the first frame, so the phase never becomes rendering
    through frames and the progress stays 0.  A run that succeeds ends in
    the complete phase with progress 1, no error message and the new object
    URL.  In between the progress cell takes 0, then the driver's reports
    in order, then 1. *)
Theorem run_outcome (c : Page.component) (frame_reports : list Q)
        (o : Page.outcome) :
  Page.button_enabled c = true ->
  Page.cells (Page.handle c (Page.Generate frame_reports o))
  = match o with
    | Page.Encoded fresh =>
        Page.mkState Page.complete 1 None (Some fresh)
    | _ =>
        Page.mkState Page.error
          (if before_first_frame o then 0%Q else last frame_reports 0%Q)
          (failure_message o) None
    end
  /\ progress_writes (Page.handler c (Page.Generate frame_reports o))
     = 0%Q :: (if before_first_frame o then [] else frame_reports)
         ++ match o with Page.Encoded _ => [1%Q] | _ => [] end.
Proof.
  intros Hb. rewrite cells_handle. unfold Page.handler. rewrite Hb.
  unfold Page.button_enabled in Hb. apply andb_prop in Hb as [Hcan _].
  rewrite Hcan. split.
  - apply handleGenerate_cells.
  - apply handleGenerate_progress.
Qed.

Lemma run_outcome_witness :
  Page.cells (Page.handle (Page.initial true)
                (Page.Generate [1 # 2; 1] (Page.RecordingFailed "lost")))
  = Page.mkState Page.error 1 (Some "lost"%string) None.
Proof.
  exact (proj1 (run_outcome (Page.initial true) [1 # 2; 1]
                  (Page.RecordingFailed "lost") eq_refl)).
Defined.

Section SessionFacts.
Import Page.

(** The URL part of the component after a run, for a settled component. *)
Lemma urls_handle_generate (c : component) (frame_reports : list Q)
      (o : outcome) :
  settled c -> button_enabled c = true ->
  urls (handle c (Generate frame_reports o))
  = (match o with Encoded fresh => Some fresh | _ => None end,
     match o with Encoded fresh => Some fresh | _ => None end,
     url_calls c
       ++ match videoUrl (cells c) with
          | Some u => [revokeObjectURL u; revokeObjectURL u]
          | None => []
          end
       ++ match o with Encoded fresh => [createObjectURL fresh] | _ => [] end).
Proof.
  intros Hs Hb. unfold handle, handler. rewrite Hb.
  unfold button_enabled in Hb. apply andb_prop in Hb as [Hcan _].
  rewrite UrlFacts.urls_commit, UrlFacts.urls_exec_all, Hcan.
  unfold urls. rewrite Hs.
  unfold handleGenerate. simpl negb. cbv iota.
  rewrite !fold_left_app.
  set (calls := url_calls c).
  destruct (videoUrl (cells c)) as [u|];
    destruct o; cbn [fold_left exec_urls catch app];
    try (simpl; now rewrite ?app_nil_r, <- ?app_assoc);
    rewrite fold_left_app, UrlFacts.frames_urls;
    destruct frame_reports; simpl;
    now rewrite ?app_nil_r, <- ?app_assoc.
Qed.

Lemma urls_handle_reset (c : component) :
  urls (handle c Reset)
  = (None, None,
     url_calls c ++ match effect_videoUrl c with
                    | Some u => [revokeObjectURL u]
                    | None => []
                    end).
Proof.
  destruct c as [[ph pr er v] can eff calls].
  destruct eff as [u|]; simpl; [reflexivity | now rewrite app_nil_r].
Qed.

Lemma handle_disabled (c : component) (frame_reports : list Q) (o : outcome) :
  settled c -> button_enabled c = false ->
  handle c (Generate frame_reports o) = c.
Proof.
  intros Hs Hb. unfold handle, handler. rewrite Hb.
  now apply commit_settled.
Qed.

Lemma url_discipline_initial (can : bool) : url_discipline (initial can).
Proof.
  unfold url_discipline, settled, created, revoked. simpl.
  repeat split; try discriminate; intros; contradiction.
Qed.

Lemma in_calls_after_run (calls : list url_call) (v : option url)
      (o : outcome) (u : url) :
  let calls' :=
    calls
      ++ match v with
         | Some u0 => [revokeObjectURL u0; revokeObjectURL u0]
         | None => []
         end
      ++ match o with Encoded fresh => [createObjectURL fresh] | _ => [] end in
  (In (createObjectURL u) calls'
   <-> In (createObjectURL u) calls \/ o = Encoded u)
  /\ (In (revokeObjectURL u) calls'
      <-> In (revokeObjectURL u) calls \/ v = Some u).
Proof.
  cbv zeta. rewrite !in_app_iff. split.
  - split.
    + intros [H|[H|H]]; [now left | |].
      * destruct v; simpl in H; [|contradiction].
        destruct H as [H|[H|[]]]; discriminate H.
      * destruct o; simpl in H; try contradiction.
        destruct H as [H|[]]. injection H as ->. now right.
    + intros [H| ->]; [now left|]. right. right. now left.
  - split.
    + intros [H|[H|H]]; [now left | |].
      * destruct v; simpl in H; [|contradiction].
        destruct H as [H|[H|[]]]; injection H as ->; now right.
      * destruct o; simpl in H; try contradiction.
        destruct H as [H|[]]. discriminate H.
    + intros [H| ->]; [now left|]. right. left. now left.
Qed.

Lemma in_calls_after_reset (calls : list url_call) (v : option url) (u : url) :
  let calls' :=
    calls ++ match v with Some u0 => [revokeObjectURL u0] | None => [] end in
  (In (createObjectURL u) calls' <-> In (createObjectURL u) calls)
  /\ (In (revokeObjectURL u) calls'
      <-> In (revokeObjectURL u) calls \/ v = Some u).
Proof.
  cbv zeta. rewrite !in_app_iff. split; split.
  - intros [H|H]; [exact H|].
    destruct v; simpl in H; [|contradiction].
    destruct H as [H|[]]. discriminate H.
  - intros H. now left.
  - intros [H|H]; [now left|].
    destruct v; simpl in H; [|contradiction].
    destruct H as [H|[]]. injection H as ->. now right.
  - intros [H| ->]; [now left|]. right. now left.
Qed.

(** One event keeps the discipline, given that a created URL is new. *)
Lemma url_discipline_step (c : component) (e : event) :
  url_discipline c ->
  match e with
  | Generate _ (Encoded u) => ~ created u c
  | _ => True
  end ->
  url_discipline (handle c e).
Proof.
  intros [Hs [Hlive [Hleak Hrev]]] Hfresh.
  destruct e as [frame_reports o|].
  - destruct (button_enabled c) eqn:Hb;
      [|rewrite (handle_disabled c frame_reports o Hs Hb);
        exact (conj Hs (conj Hlive (conj Hleak Hrev)))].
    pose proof (urls_handle_generate c frame_reports o Hs Hb) as Hu.
    pose proof (handle_settled c (Generate frame_reports o)) as Hs'.
    unfold urls in Hu. injection Hu as Hv _ Hcalls.
    assert (Hnew : forall u, videoUrl (cells (handle c (Generate frame_reports o)))
                             = Some u <-> o = Encoded u).
    { intros u. rewrite Hv. destruct o; split; intros H;
        try discriminate; now injection H as ->. }
    unfold url_discipline, created, revoked in *.
    split; [exact Hs'|].
    assert (Hin : forall u,
               (In (createObjectURL u)
                   (url_calls (handle c (Generate frame_reports o)))
                <-> In (createObjectURL u) (url_calls c) \/ o = Encoded u)
               /\ (In (revokeObjectURL u)
                      (url_calls (handle c (Generate frame_reports o)))
                   <-> In (revokeObjectURL u) (url_calls c)
                       \/ videoUrl (cells c) = Some u)).
    { intros u. rewrite Hcalls. apply in_calls_after_run. }
    split; [|split].
    + intros u Hu. apply Hnew in Hu. subst o.
      destruct (Hin u) as [Hc Hr]. split; [apply Hc; now right|].
      intros H. apply Hr in H. apply Hfresh.
      destruct H as [H|H]; [now apply Hrev | now apply Hlive].
    + intros u Hu. destruct (Hin u) as [Hc Hr]. apply Hc in Hu.
      destruct Hu as [Hu|Hu]; [|left; now apply Hnew].
      right. apply Hr. destruct (Hleak u Hu); [now right | now left].
    + intros u Hu. destruct (Hin u) as [Hc Hr]. apply Hr in Hu.
      apply Hc. left. destruct Hu as [Hu|Hu]; [now apply Hrev | now apply Hlive].
  - pose proof (urls_handle_reset c) as Hu.
    pose proof (handle_settled c Reset) as Hs'.
    unfold urls in Hu. injection Hu as Hv _ Hcalls.
    unfold url_discipline, created, revoked in *.
    split; [exact Hs'|].
    assert (Hin : forall u,
               (In (createObjectURL u) (url_calls (handle c Reset))
                <-> In (createObjectURL u) (url_calls c))
               /\ (In (revokeObjectURL u) (url_calls (handle c Reset))
                   <-> In (revokeObjectURL u) (url_calls c)
                       \/ videoUrl (cells c) = Some u)).
    { intros u. rewrite Hcalls, Hs. apply in_calls_after_reset. }
    split; [|split].
    + intros u Hu. rewrite Hv in Hu. discriminate Hu.
    + intros u Hu. destruct (Hin u) as [Hc Hr]. apply Hc in Hu.
      right. apply Hr. destruct (Hleak u Hu); [now right | now left].
    + intros u Hu. destruct (Hin u) as [Hc Hr]. apply Hr in Hu.
      apply Hc. destruct Hu as [Hu|Hu]; [now apply Hrev | now apply Hlive].
Qed.

Lemma url_discipline_session (es : list event) : forall c,
  url_discipline c -> fresh_urls c es -> url_discipline (run_events c es).
Proof.
  induction es as [|e es IH]; intros c Hc Hf; [exact Hc|].
  destruct Hf as [He Hrest]. simpl. apply IH; [|exact Hrest].
  now apply url_discipline_step.
Qed.

End SessionFacts.

(** X18.  Over any session of generate and reset events in which the
    browser never hands out the same object URL twice: the URL the page
    shows was created and has not been revoked; every other URL that was
    ever created has been revoked; and nothing is revoked that was not
    created. *)
Theorem object_urls_disciplined (can : bool) (es : list Page.event) :
  fresh_urls (Page.initial can) es ->
  let c := run_events (Page.initial can) es in
  (forall u, Page.videoUrl (Page.cells c) = Some u ->
             created u c /\ ~ revoked u c)
  /\ (forall u, created u c ->
                Page.videoUrl (Page.cells c) = Some u \/ revoked u c)
  /\ (forall u, revoked u c -> created u c).
Proof.
  intros Hf. cbv zeta.
  apply (url_discipline_session es (Page.initial can)
           (url_discipline_initial can) Hf).
Qed.

Lemma object_urls_disciplined_witness :
  let es := [Page.Generate [1] (Page.Encoded 7%nat); Page.Reset;
             Page.Generate [1] (Page.Encoded 8%nat)] in
  let c := run_events (Page.initial true) es in
  fresh_urls (Page.initial true) es
  /\ Page.videoUrl (Page.cells c) = Some 8%nat
  /\ created 8%nat c
  /\ (Page.videoUrl (Page.cells c) = Some 7%nat \/ revoked 7%nat c).
Proof.
  cbv zeta.
  assert (Hf : fresh_urls (Page.initial true)
                 [Page.Generate [1] (Page.Encoded 7%nat); Page.Reset;
                  Page.Generate [1] (Page.Encoded 8%nat)])
    by (vm_compute; intuition discriminate).
  split; [exact Hf|]. split; [reflexivity|]. split.
  - apply (proj1 (object_urls_disciplined true _ Hf) 8%nat). reflexivity.
  - apply (proj1 (proj2 (object_urls_disciplined true _ Hf)) 7%nat).
    vm_compute. auto.
Defined.

(** X19.  While the prompt holds nothing but sentence terminators and
    white space a click on Render does nothing at all: no cell changes, no
    phase is written, no object URL is touched. *)
Theorem generate_gated (c : Page.component) (prompt : jsstring)
        (frame_reports : list Q) (o : Page.outcome) :
  Page.canGenerate c = canGenerate_of prompt ->
  forallb is_filler prompt = true -> settled c ->
  Page.handle c (Page.Generate frame_reports o) = c
  /\ Page.phase_writes (Page.handler c (Page.Generate frame_reports o)) = [].
Proof.
  intros Hcan Hfill Hs.
  assert (Hb : Page.button_enabled c = false).
  { unfold Page.button_enabled. rewrite Hcan. unfold canGenerate_of.
    now rewrite (proj2 (splitSentences_nil_iff prompt) Hfill). }
  split; [now apply handle_disabled|].
  unfold Page.handler. now rewrite Hb.
Qed.

Lemma generate_gated_witness :
  Page.handle (Page.initial false)
    (Page.Generate [1] (Page.Encoded 1%nat))
  = Page.initial false.
Proof.
  exact (proj1 (generate_gated (Page.initial false) (lit " . ") [1]
                  (Page.Encoded 1%nat) eq_refl eq_refl eq_refl)).
Defined.

(** ** The recorder's MIME type *)

Lemma find_first {A : Type} (f : A -> bool) (l : list A) (x : A) :
  find f l = Some x ->
  exists i, nth_error l i = Some x /\ f x = true
            /\ forall j y, (j < i)%nat -> nth_error l j = Some y -> f y = false.
Proof.
  induction l as [|a l IH]; [discriminate|].
  simpl. destruct (f a) eqn:E.
  - intros H. injection H as <-. exists 0%nat.
    split; [reflexivity|]. split; [exact E|]. intros j y Hj. lia.
  - intros H. destruct (IH H) as [i [Hi [Hx Hbefore]]].
    exists (S i). split; [exact Hi|]. split; [exact Hx|].
    intros j y Hj Hy. destruct j as [|j].
    + simpl in Hy. injection Hy as <-. exact E.
    + apply (Hbefore j y); [lia | exact Hy].
Qed.

(** X20.  The MIME type picked is the first candidate, in the order vp9,
    vp8, plain webm, mp4, that the recorder supports; none is picked
    exactly when the page has no window or the recorder supports no
    candidate. *)
Theorem pickMimeType_first_supported
        (window_defined : bool) (isTypeSupported : string -> bool) :
  (forall m, pickMimeType window_defined isTypeSupported = Some m ->
             exists i, nth_error candidates i = Some m
                       /\ isTypeSupported m = true
                       /\ forall j m', (j < i)%nat ->
                                       nth_error candidates j = Some m' ->
                                       isTypeSupported m' = false)
  /\ (pickMimeType window_defined isTypeSupported = None
      <-> window_defined = false
          \/ forall m, In m candidates -> isTypeSupported m = false).
Proof.
  unfold pickMimeType. split.
  - intros m H. destruct window_defined; [|discriminate].
    now apply find_first.
  - destruct window_defined; split; intros H; try tauto.
    + right. intros m Hm. now apply (find_none _ _ H).
    + destruct H as [H|H]; [discriminate|].
      destruct (find isTypeSupported candidates) as [m|] eqn:E;
        [|reflexivity].
      apply find_some in E as [Hin Hsup]. rewrite (H m Hin) in Hsup.
      discriminate.
Qed.

Lemma pickMimeType_first_supported_witness :
  exists i, nth_error candidates i = Some "video/webm"%string
            /\ String.eqb "video/webm" "video/webm" = true
            /\ forall j m', (j < i)%nat ->
                            nth_error candidates j = Some m' ->
                            String.eqb "video/webm" m' = false.
Proof.
  exact (proj1 (pickMimeType_first_supported true (String.eqb "video/webm"))
           "video/webm"%string eq_refl).
Defined.

(** ** Scene labels *)

Lemma uint_of_zeros (k : nat) (s : string) :
  NilEmpty.uint_of_string (zeros k s)
  = option_map (Nat.iter k Decimal.D0) (NilEmpty.uint_of_string s).
Proof.
  induction k as [|k IH]; simpl.
  - now destruct (NilEmpty.uint_of_string s).
  - rewrite IH. now destruct (NilEmpty.uint_of_string s).
Qed.

Lemma of_uint_leading_zeros (k : nat) (d : Decimal.uint) :
  Nat.of_uint (Nat.iter k Decimal.D0 d) = Nat.of_uint d.
Proof.
  induction k as [|k IH]; [reflexivity|].
  simpl Nat.iter. rewrite <- IH. reflexivity.
Qed.

Lemma length_zeros (k : nat) (s : string) :
  String.length (zeros k s) = (k + String.length s)%nat.
Proof. induction k as [|k IH]; simpl; [reflexivity | now rewrite IH]. Qed.

(** X21.  A scene label has at least two characters and reads back as the
    scene's index plus one, so different scenes have different labels. *)
Theorem scene_label_reads_back (index index' : nat) :
  label_number (scene_label index) = Some (index + 1)%nat
  /\ (2 <= String.length (scene_label index))%nat
  /\ (scene_label index = scene_label index' -> index = index').
Proof.
  assert (Hread : forall i, label_number (scene_label i) = Some (i + 1)%nat).
  { intros i. unfold label_number, scene_label, padStart2, decimal.
    rewrite uint_of_zeros, NilEmpty.usu. simpl option_map.
    rewrite of_uint_leading_zeros.
    now rewrite DecimalNat.Unsigned.of_to. }
  split; [apply Hread|]. split.
  - unfold scene_label, padStart2. rewrite length_zeros. lia.
  - intros H. pose proof (Hread index) as H1. rewrite H, Hread in H1.
    injection H1 as H1. lia.
Qed.

Lemma scene_label_reads_back_witness :
  scene_label 0 = "01"%string /\ scene_label 11 = "12"%string
  /\ (scene_label 0 = scene_label 0 -> 0 = 0)%nat.
Proof.
  split; [reflexivity|]. split; [reflexivity|].
  exact (proj2 (proj2 (scene_label_reads_back 0 0))).
Defined.

(** ** The last caption line *)

(** X23.  The progress of a frame is below 1, and the moment of the last
    line of a caption of two or more lines is 1: that line is never fully
    opaque, while the first line is fully opaque exactly at progress 0. *)
Theorem last_line_never_full (p : R) (n : nat) :
  (0 <= p < 1)%R -> (2 <= n)%nat ->
  line_moment n (n - 1) = 1%R
  /\ (lineAlpha p n (n - 1) < 1)%R
  /\ (lineAlpha p n 0 = 1%R <-> p = 0%R).
Proof.
  intros [Hp0 Hp1] Hn.
  assert (Hm : line_moment n (n - 1) = 1%R).
  { unfold line_moment. rewrite minus_INR by lia. simpl (INR 1).
    assert (H2 : (2 <= INR n)%R).
    { replace 2%R with (INR 2) by (simpl; lra). now apply le_INR. }
    unfold Rmax. destruct (Rle_dec _ _); [field; lra | lra]. }
  assert (H0 : line_moment n 0 = 0%R).
  { unfold line_moment. simpl (INR 0). unfold Rdiv. apply Rmult_0_l. }
  split; [exact Hm|]. split.
  - rewrite (lineAlpha_of_distance p n (n - 1)). cbv zeta. rewrite Hm.
    assert (Hd : (0 < Rabs (p - 1))%R).
    { apply Rabs_pos_lt. lra. }
    unfold Rmax. destruct (Rle_dec _ _); lra.
  - rewrite (lineAlpha_of_distance p n 0). cbv zeta. rewrite H0.
    replace (p - 0)%R with p by ring. rewrite (Rabs_right p) by lra.
    unfold Rmax. destruct (Rle_dec _ _); split; intros; lra.
Qed.

Lemma last_line_never_full_witness :
  (lineAlpha (1 / 2) 3 2 < 1)%R.
Proof.
  apply (proj1 (proj2 (last_line_never_full (1 / 2) 3
                         ltac:(lra) ltac:(lia)))).
Defined.

(* ===================================================================== *)
(** * The render driver in the engine's arithmetic *)
(* ===================================================================== *)

(** ** Rounding to binary64 *)

Section Pow2Facts.
Import Binary64.
Local Open Scope Q_scope.

Lemma two_nonzero : ~ (2 : Q) == 0.
Proof. intros H. discriminate H. Qed.

Lemma pow2_pos (e : Z) : 0 < pow2 e.
Proof. apply Qpower_0_lt. reflexivity. Qed.

Lemma pow2_add (a b : Z) : pow2 (a + b) == pow2 a * pow2 b.
Proof. apply Qpower_plus, two_nonzero. Qed.

Lemma pow2_succ (a : Z) : pow2 (a + 1) == 2 * pow2 a.
Proof. rewrite pow2_add. change (pow2 1) with (2 : Q). ring. Qed.

Lemma pow2_le (a b : Z) : (a <= b)%Z -> pow2 a <= pow2 b.
Proof. intros H. apply Qpower_le_compat_l; [exact H | discriminate]. Qed.

Lemma pow2_lt_inv (a b : Z) : pow2 a < pow2 b -> (a < b)%Z.
Proof. intros H. apply (Qpower_lt_compat_l_inv 2); [exact H | reflexivity]. Qed.

Lemma pow2_Z (e : Z) : (0 <= e)%Z -> pow2 e == inject_Z (2 ^ e).
Proof. intros H. unfold pow2. now rewrite Zpower_Qpower. Qed.

End Pow2Facts.

Section Ilog2Facts.
Import Binary64.
Local Open Scope Q_scope.

Lemma ilog2_spec (q : Q) :
  0 < q -> pow2 (ilog2 q) <= q /\ q < pow2 (ilog2 q + 1).
Proof.
  intros Hq. destruct q as [n d].
  assert (Hn : (0 < n)%Z).
  { unfold Qlt in Hq. simpl in Hq. lia. }
  unfold ilog2. cbn [Qnum Qden].
  set (a := Z.log2 n). set (b := Z.log2 (Z.pos d)).
  assert (Ha0 : (0 <= a)%Z) by apply Z.log2_nonneg.
  assert (Hb0 : (0 <= b)%Z) by apply Z.log2_nonneg.
  destruct (Z.log2_spec n Hn) as [Ha1 Ha2]. fold a in Ha1, Ha2.
  destruct (Z.log2_spec (Z.pos d) (Pos2Z.is_pos d)) as [Hb1 Hb2].
  fold b in Hb1, Hb2.
  rewrite <- Z.add_1_r in Ha2, Hb2.
  pose proof (pow2_pos a) as HA. pose proof (pow2_pos b) as HB.
  pose proof (pow2_pos (a - b)) as HE.
  assert (HEq : pow2 (a - b) * pow2 b == pow2 a).
  { rewrite <- pow2_add. now replace (a - b + b)%Z with a by lia. }
  assert (Hq' : (n # d) * inject_Z (Z.pos d) == inject_Z n).
  { unfold Qeq, Qmult, inject_Z. simpl. lia. }
  assert (Hd : 0 < inject_Z (Z.pos d)).
  { change 0 with (inject_Z 0). rewrite <- Zlt_Qlt. lia. }
  assert (HA1 : pow2 a <= inject_Z n).
  { rewrite pow2_Z by exact Ha0. now rewrite <- Zle_Qle. }
  assert (HA2 : inject_Z n < 2 * pow2 a).
  { rewrite <- pow2_succ, pow2_Z by lia. now rewrite <- Zlt_Qlt. }
  assert (HB1 : pow2 b <= inject_Z (Z.pos d)).
  { rewrite pow2_Z by exact Hb0. now rewrite <- Zle_Qle. }
  assert (HB2 : inject_Z (Z.pos d) < 2 * pow2 b).
  { rewrite <- pow2_succ, pow2_Z by lia. now rewrite <- Zlt_Qlt. }
  set (x := n # d) in *. set (D := inject_Z (Z.pos d)) in *.
  set (N := inject_Z n) in *.
  set (A := pow2 a) in *. set (B := pow2 b) in *. set (E := pow2 (a - b)) in *.
  destruct (Qle_bool E x) eqn:Hc.
  - apply Qle_bool_iff in Hc. split; [exact Hc|].
    rewrite pow2_succ. fold E.
    apply Qnot_le_lt. intros Hle. nra.
  - assert (Hlt : x < E).
    { apply Qnot_le_lt. intros Hle. apply Qle_bool_iff in Hle. congruence. }
    replace (a - b - 1 + 1)%Z with (a - b)%Z by lia. fold E.
    split; [|exact Hlt].
    assert (HE' : E == 2 * pow2 (a - b - 1)).
    { unfold E. rewrite <- pow2_succ.
      now replace (a - b - 1 + 1)%Z with (a - b)%Z by lia. }
    apply Qnot_lt_le. intros Hc'. nra.
Qed.

Lemma ilog2_unique (q : Q) (e : Z) :
  0 < q -> pow2 e <= q -> q < pow2 (e + 1) -> ilog2 q = e.
Proof.
  intros Hq H1 H2. destruct (ilog2_spec q Hq) as [H3 H4].
  assert (Ha : (e < ilog2 q + 1)%Z).
  { apply pow2_lt_inv. eapply Qle_lt_trans; eassumption. }
  assert (Hb : (ilog2 q < e + 1)%Z).
  { apply pow2_lt_inv. eapply Qle_lt_trans; eassumption. }
  lia.
Qed.

Lemma ilog2_comp (x y : Q) : 0 < x -> x == y -> ilog2 x = ilog2 y.
Proof.
  intros Hx Hxy. assert (Hy : 0 < y) by now rewrite <- Hxy.
  destruct (ilog2_spec y Hy) as [H1 H2].
  apply ilog2_unique; [exact Hx | now rewrite Hxy | now rewrite Hxy].
Qed.

Lemma ilog2_mono (x y : Q) : 0 < x -> x <= y -> (ilog2 x <= ilog2 y)%Z.
Proof.
  intros Hx Hxy. assert (Hy : 0 < y) by (eapply Qlt_le_trans; eassumption).
  destruct (ilog2_spec x Hx) as [H1 _].
  destruct (ilog2_spec y Hy) as [_ H2].
  assert (H : (ilog2 x < ilog2 y + 1)%Z).
  { apply pow2_lt_inv. eapply Qle_lt_trans; [exact H1|].
    eapply Qle_lt_trans; eassumption. }
  lia.
Qed.

End Ilog2Facts.

Section RoundFacts.
Import Binary64.
Local Open Scope Q_scope.

Lemma round_half_even_comp (x y : Q) :
  x == y -> round_half_even x = round_half_even y.
Proof.
  intros H. unfold round_half_even.
  assert (E : Qfloor x = Qfloor y) by now rewrite H.
  rewrite E.
  assert (C : Qcompare (x - inject_Z (Qfloor y)) (1 # 2)
              = Qcompare (y - inject_Z (Qfloor y)) (1 # 2))
    by now rewrite H.
  now rewrite C.
Qed.

Lemma round_half_even_Z (z : Z) : round_half_even (inject_Z z) = z.
Proof.
  unfold round_half_even. rewrite Qfloor_Z.
  assert (C : Qcompare (inject_Z z - inject_Z z) (1 # 2) = Lt).
  { rewrite <- Qlt_alt. ring_simplify (inject_Z z - inject_Z z). reflexivity. }
  now rewrite C.
Qed.

Lemma round_half_even_bounds (q : Q) :
  (Qfloor q <= round_half_even q <= Qfloor q + 1)%Z.
Proof.
  unfold round_half_even.
  destruct (Qcompare _ _); [destruct (Z.even _)| |]; lia.
Qed.

Lemma round_half_even_mono (x y : Q) :
  x <= y -> (round_half_even x <= round_half_even y)%Z.
Proof.
  intros H. pose proof (Qfloor_resp_le _ _ H) as Hf.
  destruct (Z.eq_dec (Qfloor x) (Qfloor y)) as [E|NE].
  - unfold round_half_even. rewrite E.
    set (f := Qfloor y) in *.
    destruct (Qcompare (x - inject_Z f) (1 # 2)) eqn:Cx;
      destruct (Qcompare (y - inject_Z f) (1 # 2)) eqn:Cy;
      try (destruct (Z.even f)); try lia; exfalso;
      try apply Qeq_alt in Cx; try apply Qeq_alt in Cy;
      try rewrite <- Qlt_alt in Cx; try rewrite <- Qlt_alt in Cy;
      try rewrite <- Qgt_alt in Cx; try rewrite <- Qgt_alt in Cy; lra.
  - pose proof (round_half_even_bounds x). pose proof (round_half_even_bounds y).
    lia.
Qed.

Lemma quantum_le (q : Q) : (ilog2 q - 52 <= quantum q)%Z.
Proof. unfold quantum. lia. Qed.

Lemma round_pos_comp (x y : Q) :
  0 < x -> x == y -> round_pos x == round_pos y.
Proof.
  intros Hx H. unfold round_pos, quantum.
  rewrite (ilog2_comp x y Hx H).
  set (c := Z.max (ilog2 y - 52) (-1074)).
  rewrite (round_half_even_comp (x / pow2 c) (y / pow2 c)) by now rewrite H.
  reflexivity.
Qed.

Lemma scaled_le (x y : Q) (c : Z) : x <= y -> x / pow2 c <= y / pow2 c.
Proof.
  intros H. pose proof (pow2_pos c) as Hc.
  apply Qle_shift_div_l; [exact Hc|].
  unfold Qdiv. rewrite <- Qmult_assoc, (Qmult_comm (/ pow2 c)).
  rewrite Qmult_inv_r, Qmult_1_r by lra. exact H.
Qed.

(** The rounded value of a positive [q] is at most the next power of two
    above [q], counted from the quantum. *)
Lemma round_pos_upper (q : Q) :
  0 < q -> round_pos q <= pow2 (quantum q + 53).
Proof.
  intros Hq. unfold round_pos. set (c := quantum q).
  pose proof (pow2_pos c) as Hc.
  destruct (ilog2_spec q Hq) as [_ Hhi].
  assert (Hle : q <= pow2 (c + 53)).
  { apply Qlt_le_weak. eapply Qlt_le_trans; [exact Hhi|].
    apply pow2_le. pose proof (quantum_le q). fold c in H. lia. }
  assert (Hs : q / pow2 c <= inject_Z (2 ^ 53)).
  { rewrite <- pow2_Z by lia.
    apply Qle_shift_div_r; [exact Hc|].
    rewrite <- pow2_add. now rewrite Z.add_comm. }
  apply round_half_even_mono in Hs. rewrite round_half_even_Z in Hs.
  rewrite Zle_Qle in Hs. rewrite <- pow2_Z in Hs by lia.
  rewrite (Z.add_comm c 53), pow2_add.
  apply Qmult_le_compat_r; [exact Hs | lra].
Qed.

(** In the normal range the rounded value is at least the power of two
    below [q]. *)
Lemma round_pos_lower (q : Q) :
  0 < q -> quantum q = (ilog2 q - 52)%Z -> pow2 (quantum q + 52) <= round_pos q.
Proof.
  intros Hq Hn. unfold round_pos. set (c := quantum q) in *.
  pose proof (pow2_pos c) as Hc.
  destruct (ilog2_spec q Hq) as [Hlo _].
  replace (ilog2 q) with (52 + c)%Z in Hlo by lia.
  assert (Hs : inject_Z (2 ^ 52) <= q / pow2 c).
  { rewrite <- pow2_Z by lia.
    apply Qle_shift_div_l; [exact Hc|].
    now rewrite <- pow2_add. }
  apply round_half_even_mono in Hs. rewrite round_half_even_Z in Hs.
  rewrite Zle_Qle in Hs. rewrite <- pow2_Z in Hs by lia.
  rewrite (Z.add_comm c 52), pow2_add.
  apply Qmult_le_compat_r; [exact Hs | lra].
Qed.

Lemma round_pos_nonneg (q : Q) : 0 < q -> 0 <= round_pos q.
Proof.
  intros Hq. unfold round_pos. set (c := quantum q).
  pose proof (pow2_pos c) as Hc.
  assert (Hs : 0 <= q / pow2 c).
  { apply Qle_shift_div_l; [exact Hc | lra]. }
  apply round_half_even_mono in Hs.
  change 0 with (inject_Z 0) in Hs at 1. rewrite round_half_even_Z in Hs.
  rewrite Zle_Qle in Hs. change (inject_Z 0) with 0 in Hs.
  apply Qmult_le_0_compat; lra.
Qed.

Lemma round_pos_mono (x y : Q) :
  0 < x -> x <= y -> round_pos x <= round_pos y.
Proof.
  intros Hx Hxy. assert (Hy : 0 < y) by (eapply Qlt_le_trans; eassumption).
  pose proof (ilog2_mono x y Hx Hxy) as He.
  destruct (Z.eq_dec (quantum x) (quantum y)) as [E|NE].
  - unfold round_pos. rewrite E. set (c := quantum y).
    pose proof (pow2_pos c) as Hc.
    apply Qmult_le_compat_r; [|lra].
    rewrite <- Zle_Qle. apply round_half_even_mono. now apply scaled_le.
  - assert (Hlt : (quantum x < quantum y)%Z) by (unfold quantum in *; lia).
    assert (Hn : quantum y = (ilog2 y - 52)%Z) by (unfold quantum in *; lia).
    eapply Qle_trans; [apply round_pos_upper, Hx|].
    eapply Qle_trans; [|apply round_pos_lower; assumption].
    apply pow2_le. lia.
Qed.

(** A number of at most 53 bits at an exponent of at least -1074 is a
    binary64 number: rounding leaves it as it is. *)
Lemma round_pos_fix (q : Q) (M t : Z) :
  (0 < M < 2 ^ 53)%Z -> (-1074 <= t)%Z -> q == inject_Z M * pow2 t ->
  round_pos q == q.
Proof.
  intros [HM0 HM1] Ht Hq.
  pose proof (pow2_pos t) as Hpt.
  assert (HMq : 0 < inject_Z M).
  { change 0 with (inject_Z 0). now rewrite <- Zlt_Qlt. }
  assert (Hpos : 0 < q).
  { rewrite Hq. apply Qmult_lt_0_compat; assumption. }
  destruct (ilog2_spec q Hpos) as [Hlo _].
  assert (Hup : q < pow2 (53 + t)).
  { rewrite Hq, pow2_add, (pow2_Z 53) by lia.
    apply Qmult_lt_compat_r; [exact Hpt|]. now rewrite <- Zlt_Qlt. }
  assert (He : (ilog2 q < 53 + t)%Z).
  { apply pow2_lt_inv. eapply Qle_lt_trans; eassumption. }
  unfold round_pos. set (c := quantum q).
  assert (Hc : (c <= t)%Z) by (unfold c, quantum; lia).
  pose proof (pow2_pos c) as Hpc.
  assert (Hsc : q / pow2 c == inject_Z (M * 2 ^ (t - c))).
  { rewrite inject_Z_mult, <- pow2_Z by lia.
    rewrite Hq. replace t with ((t - c) + c)%Z at 1 by lia.
    rewrite pow2_add. field. lra. }
  rewrite (round_half_even_comp _ _ Hsc), round_half_even_Z.
  rewrite inject_Z_mult, <- pow2_Z by lia.
  rewrite Hq. replace t with ((t - c) + c)%Z at 2 by lia.
  rewrite pow2_add. ring.
Qed.

Lemma f64_comp (x y : Q) : x == y -> f64 x = f64 y.
Proof.
  intros H. unfold f64. apply Qred_complete.
  assert (C : Qcompare x 0 = Qcompare y 0) by now rewrite H.
  rewrite C. destruct (Qcompare y 0) eqn:Cy; [reflexivity| |].
  - rewrite <- Qlt_alt in Cy.
    apply Qopp_comp, round_pos_comp; [rewrite H; lra | now rewrite H].
  - rewrite <- Qgt_alt in Cy.
    apply round_pos_comp; [now rewrite H | exact H].
Qed.

Lemma f64_of_pos (q : Q) : 0 < q -> f64 q == round_pos q.
Proof.
  intros H. unfold f64. rewrite Qred_correct.
  rewrite Qgt_alt in H. now rewrite H.
Qed.

Lemma f64_of_neg (q : Q) : q < 0 -> f64 q == - round_pos (- q).
Proof.
  intros H. unfold f64. rewrite Qred_correct.
  rewrite Qlt_alt in H. now rewrite H.
Qed.

Lemma f64_of_zero (q : Q) : q == 0 -> f64 q == 0.
Proof.
  intros H. unfold f64. rewrite Qred_correct.
  rewrite Qeq_alt in H. now rewrite H.
Qed.

Lemma f64_sign (q : Q) : (0 <= q -> 0 <= f64 q) /\ (q <= 0 -> f64 q <= 0).
Proof.
  destruct (Q_dec q 0) as [[Hn|Hp]|Hz].
  - rewrite (f64_of_neg q Hn).
    assert (H : 0 <= round_pos (- q)) by (apply round_pos_nonneg; lra).
    split; intros; lra.
  - rewrite (f64_of_pos q Hp).
    pose proof (round_pos_nonneg q Hp). split; intros; lra.
  - rewrite (f64_of_zero q Hz). split; intros; lra.
Qed.

(** Rounding keeps the order. *)
Lemma f64_monotone (x y : Q) : x <= y -> f64 x <= f64 y.
Proof.
  intros H.
  destruct (Q_dec x 0) as [[Hn|Hp]|Hz].
  - destruct (Qlt_le_dec y 0) as [Hy|Hy].
    + rewrite (f64_of_neg x Hn), (f64_of_neg y Hy).
      assert (Hm : round_pos (- y) <= round_pos (- x))
        by (apply round_pos_mono; lra).
      lra.
    + apply Qle_trans with 0;
        [apply (f64_sign x); lra | apply (f64_sign y); exact Hy].
  - rewrite (f64_of_pos x Hp), (f64_of_pos y) by lra.
    now apply round_pos_mono.
  - rewrite (f64_of_zero x Hz). apply (f64_sign y). lra.
Qed.

(** Binary64 numbers are fixed points of the rounding. *)
Lemma f64_fix (q : Q) (M t : Z) :
  (Z.abs M < 2 ^ 53)%Z -> (-1074 <= t)%Z -> q == inject_Z M * pow2 t ->
  f64 q == q.
Proof.
  intros HM Ht Hq. pose proof (pow2_pos t) as Hpt.
  destruct (Z.lt_trichotomy M 0) as [Hneg|[Hz|Hpos]].
  - assert (HMq : inject_Z M < 0).
    { change 0 with (inject_Z 0). now rewrite <- Zlt_Qlt. }
    assert (Hlt : q < 0) by (rewrite Hq; nra).
    rewrite (f64_of_neg q Hlt).
    rewrite (round_pos_fix (- q) (- M) t); [ring | lia | exact Ht|].
    rewrite Hq, inject_Z_opp. ring.
  - subst M. assert (H0 : q == 0) by (rewrite Hq; change (inject_Z 0) with 0; ring).
    rewrite (f64_of_zero q H0). now symmetry.
  - assert (HMq : 0 < inject_Z M).
    { change 0 with (inject_Z 0). now rewrite <- Zlt_Qlt. }
    assert (Hgt : 0 < q) by (rewrite Hq; nra).
    rewrite (f64_of_pos q Hgt).
    apply (round_pos_fix q M t); [lia | exact Ht | exact Hq].
Qed.

Lemma Qred_inject_Z (z : Z) : Qred (inject_Z z) = inject_Z z.
Proof.
  unfold Qred, inject_Z.
  generalize (Z.ggcd_gcd z 1) (Z.ggcd_correct_divisors z 1).
  destruct (Z.ggcd z 1) as [g [a b]]. simpl.
  intros Hg [Ha Hb]. rewrite Z.gcd_1_r in Hg. subst g.
  assert (E1 : a = z) by lia. assert (E2 : b = 1%Z) by lia.
  rewrite E1, E2. reflexivity.
Qed.

Lemma f64_Z (z : Z) : (Z.abs z < 2 ^ 53)%Z -> f64 (inject_Z z) = inject_Z z.
Proof.
  intros Hz.
  assert (H : f64 (inject_Z z) == inject_Z z).
  { apply (f64_fix _ z 0); [exact Hz | lia|].
    change (pow2 0) with 1. ring. }
  unfold f64 in *. rewrite Qred_correct in H.
  rewrite (Qred_complete _ _ H). apply Qred_inject_Z.
Qed.

End RoundFacts.

Section FloatCheck.
Import PrimFloat.

(** [f64] against the kernel's binary64 numbers, on the literals, the
    products and the quotients of the runs looked at below. *)
Example f64_agrees_with_floats :
  Binary64.Q_of_float 0x1.999999999999ap-2%float
  = Some (Binary64.f64 (2 # 5))
  /\ Binary64.Q_of_float (30.5 * 0x1.999999999999ap-2)%float
     = Some (Binary64.f64 ((61 # 2) * Binary64.f64 (2 # 5)))
  /\ Binary64.Q_of_float (61 / (30.5 * 0x1.999999999999ap-2))%float
     = Some (Binary64.f64
               (61 / Binary64.f64 ((61 # 2) * Binary64.f64 (2 # 5))))
  /\ Binary64.Q_of_float (69 / 120)%float = Some (Binary64.f64 (69 # 120))
  /\ Binary64.Q_of_float (69 / 120 * 100)%float
     = Some (Binary64.f64 (Binary64.f64 (69 # 120) * 100))
  /\ Binary64.Q_of_float (1280 * 0x1.6666666666666p-1)%float
     = Some (Binary64.f64 (1280 * Binary64.f64 (7 # 10)))
  /\ Binary64.Q_of_float (1 / 3)%float = Some (Binary64.f64 (1 # 3))
  /\ Binary64.Q_of_float (0x1p-1074 / 2)%float
     = Some (Binary64.f64 (Binary64.pow2 (-1075)))
  /\ Binary64.Q_of_float (0x1p-1074 * 0.75)%float
     = Some (Binary64.f64 (Binary64.pow2 (-1074) * (3 # 4))).
Proof. vm_compute. repeat split. Qed.

End FloatCheck.

(** ** Quotients of whole numbers, rounded *)

Section DoubleQuotients.
Import Binary64.
Local Open Scope Q_scope.

Lemma inject_Z_pos (z : Z) : (0 < z)%Z -> 0 < inject_Z z.
Proof. intros H. change 0 with (inject_Z 0). now rewrite <- Zlt_Qlt. Qed.

Lemma inject_Z_nonneg (z : Z) : (0 <= z)%Z -> 0 <= inject_Z z.
Proof. intros H. change 0 with (inject_Z 0). now rewrite <- Zle_Qle. Qed.

(** A double at or above a whole number stays there. *)
Lemma f64_above (z : Z) (x : Q) :
  (Z.abs z < 2 ^ 53)%Z -> inject_Z z <= x -> inject_Z z <= f64 x.
Proof.
  intros Hz H. rewrite <- (f64_Z z Hz). now apply f64_monotone.
Qed.

Lemma f64_below (z : Z) (x : Q) :
  (Z.abs z < 2 ^ 53)%Z -> x <= inject_Z z -> f64 x <= inject_Z z.
Proof.
  intros Hz H. rewrite <- (f64_Z z Hz). now apply f64_monotone.
Qed.

(** The quotient of a whole [a] by a whole [F], when below the whole
    number [u], is still below [u] after rounding: there is a double
    between the two. *)
Lemma f64_quotient_lt (a F u : Z) :
  (0 < F)%Z -> (0 < u)%Z -> (a < u * F)%Z -> (u * F <= 2 ^ 52)%Z ->
  f64 (inject_Z a / inject_Z F) < inject_Z u.
Proof.
  intros HF Hu Ha Hb.
  set (j := Z.log2_up F).
  assert (Hj0 : (0 <= j)%Z) by apply Z.log2_up_nonneg.
  assert (HP : (F <= 2 ^ j /\ 2 ^ j < 2 * F)%Z).
  { destruct (Z.eq_dec F 1) as [->|HF1]; [simpl; lia|].
    destruct (Z.log2_up_spec F) as [H1 H2]; [lia|]. fold j in H1, H2.
    split; [exact H2|].
    replace j with (Z.succ (Z.pred j)) by lia.
    rewrite Z.pow_succ_r; [lia|].
    assert (0 < j)%Z by (apply Z.log2_up_pos; lia). lia. }
  destruct HP as [HP1 HP2]. set (P := (2 ^ j)%Z) in *.
  assert (Hj : (j <= 52)%Z).
  { assert (Hlt : (2 ^ j < 2 ^ 53)%Z).
    { fold P. assert (F <= 2 ^ 52)%Z by nia. lia. }
    apply Z.pow_lt_mono_r_iff in Hlt; lia. }
  assert (HPq : pow2 (- j) * inject_Z P == 1).
  { unfold P. rewrite <- pow2_Z by exact Hj0. rewrite <- pow2_add.
    now replace (- j + j)%Z with 0%Z by lia. }
  pose proof (pow2_pos (- j)) as Hpj.
  pose proof (inject_Z_pos F HF) as HFq.
  pose proof (inject_Z_pos P ltac:(lia)) as HPpos.
  set (d := inject_Z (u * P - 1) * pow2 (- j)).
  assert (Hd : f64 d == d).
  { apply (f64_fix d (u * P - 1) (- j)); [|lia|reflexivity].
    assert (0 < u * P)%Z by nia. assert (u * P < 2 ^ 53)%Z by nia. lia. }
  assert (Hdu : d < inject_Z u).
  { unfold d. unfold Zminus. rewrite inject_Z_plus, inject_Z_mult, inject_Z_opp.
    change (inject_Z 1) with 1.
    set (U := inject_Z u) in *. set (Pq := inject_Z P) in *.
    set (p := pow2 (- j)) in *.
    assert (E : (U * Pq + - (1)) * p == U * (p * Pq) - p) by ring.
    rewrite E, HPq. lra. }
  assert (Hxd : inject_Z a / inject_Z F <= d).
  { apply Qle_shift_div_r; [exact HFq|].
    unfold d.
    assert (Hz : (a * P <= (u * P - 1) * F)%Z) by nia.
    rewrite Zle_Qle, !inject_Z_mult in Hz.
    set (A := inject_Z a) in *. set (Pq := inject_Z P) in *.
    set (p := pow2 (- j)) in *. set (Fq := inject_Z F) in *.
    set (M := inject_Z (u * P - 1)) in *.
    assert (E1 : A == A * Pq * p) by (rewrite <- Qmult_assoc, (Qmult_comm Pq), HPq; ring).
    assert (E2 : M * p * Fq == M * Fq * p) by ring.
    rewrite E1, E2. apply Qmult_le_compat_r; [exact Hz | lra]. }
  apply Qle_lt_trans with d; [|exact Hdu].
  rewrite <- Hd. now apply f64_monotone.
Qed.

Lemma Qfloor_between (z : Z) (x : Q) :
  inject_Z z <= x -> x < inject_Z (z + 1) -> Qfloor x = z.
Proof.
  intros Hlo Hhi.
  pose proof (Qfloor_le x) as H1. pose proof (Qlt_floor x) as H2.
  assert (Ha : (Qfloor x < z + 1)%Z).
  { rewrite Zlt_Qlt. eapply Qle_lt_trans; eassumption. }
  assert (Hb : (z < Qfloor x + 1)%Z).
  { rewrite Zlt_Qlt. eapply Qle_lt_trans; eassumption. }
  lia.
Qed.

(** [Math.floor(currentFrame / segmentFrames)] on whole numbers is the
    whole quotient, rounding or not. *)
Lemma double_sliceIndex (k F : Z) :
  (0 <= k)%Z -> (0 < F)%Z -> (k + F <= 2 ^ 52)%Z ->
  Qfloor (f64 (inject_Z k / inject_Z F)) = (k / F)%Z.
Proof.
  intros Hk HF Hb.
  pose proof (inject_Z_pos F HF) as HFq.
  assert (Hq0 : (0 <= k / F)%Z) by (apply Z.div_pos; lia).
  assert (Hmul : (F * (k / F) <= k)%Z) by (apply Z.mul_div_le; lia).
  assert (Hlt : (k < F * Z.succ (k / F))%Z)
    by (apply Z.mul_succ_div_gt; lia).
  assert (Hlo : inject_Z (k / F) <= f64 (inject_Z k / inject_Z F)).
  { apply f64_above; [nia|].
    apply Qle_shift_div_l; [exact HFq|].
    rewrite <- inject_Z_mult, <- Zle_Qle. lia. }
  assert (Hhi : f64 (inject_Z k / inject_Z F) < inject_Z (k / F + 1)).
  { apply f64_quotient_lt; [exact HF | lia | lia | nia]. }
  now apply Qfloor_between.
Qed.

(** The intra-scene progress, rounded, is still in [[0, 1)]. *)
Lemma double_sliceProgress (r F : Z) :
  (0 <= r < F)%Z -> (F <= 2 ^ 52)%Z ->
  0 <= f64 (inject_Z r / inject_Z F) < 1.
Proof.
  intros [Hr0 Hr1] Hb.
  pose proof (inject_Z_pos F ltac:(lia)) as HFq. split.
  - change 0 with (inject_Z 0). apply f64_above; [simpl; lia|].
    apply quotient_nonneg; [now apply inject_Z_nonneg | exact HFq].
  - change 1 with (inject_Z 1). apply f64_quotient_lt; lia.
Qed.

(** The counter stays a whole number. *)
Lemma double_increment (k : Z) :
  (0 <= k)%Z -> (k + 1 < 2 ^ 53)%Z ->
  f64 (inject_Z k + 1) = inject_Z (k + 1).
Proof.
  intros Hk Hb.
  rewrite (f64_comp (inject_Z k + 1) (inject_Z (k + 1)))
    by (rewrite inject_Z_plus; reflexivity).
  apply f64_Z. lia.
Qed.

(** A report is the rounded ratio of two whole numbers, and lies in
    [[0, 1]]; the ratio of a number to itself is reported as 1. *)
Lemma double_report_range (k N : Z) :
  (0 <= k <= N)%Z -> (0 < N)%Z ->
  0 <= f64 (inject_Z k / inject_Z N) <= 1.
Proof.
  intros [Hk0 Hk1] HN. pose proof (inject_Z_pos N HN) as HNq. split.
  - change 0 with (inject_Z 0). apply f64_above; [simpl; lia|].
    apply quotient_nonneg; [now apply inject_Z_nonneg | exact HNq].
  - change 1 with (inject_Z 1). apply f64_below; [simpl; lia|].
    apply Qle_shift_div_r; [exact HNq|].
    change (inject_Z 1) with 1. rewrite Qmult_1_l, <- Zle_Qle. exact Hk1.
Qed.

Lemma double_report_last (N : Z) :
  (0 < N)%Z -> f64 (inject_Z N / inject_Z N) = 1.
Proof.
  intros HN. pose proof (inject_Z_pos N HN) as HNq.
  rewrite (f64_comp _ (inject_Z 1)) by (change (inject_Z 1) with 1; field; lra).
  apply f64_Z. simpl. lia.
Qed.

Lemma double_report_monotone (i j N : Z) :
  (i <= j)%Z -> (0 < N)%Z ->
  f64 (inject_Z i / inject_Z N) <= f64 (inject_Z j / inject_Z N).
Proof.
  intros Hij HN. pose proof (inject_Z_pos N HN) as HNq.
  apply f64_monotone. apply Qmult_le_compat_r.
  - now rewrite <- Zle_Qle.
  - apply Qlt_le_weak, Qinv_lt_0_compat, HNq.
Qed.

Lemma double_reports_cons (N : Z) (n : nat) (k : Z) :
  double_reports N (S n) k
  = f64 (inject_Z (k + 1) / inject_Z N) :: double_reports N n (k + 1).
Proof.
  unfold double_reports. cbn [seq map]. f_equal.
  - now rewrite Z.add_0_r.
  - rewrite <- seq_shift, map_map. apply map_ext. intros i.
    now replace (k + 1 + Z.of_nat (S i))%Z
      with (k + 1 + 1 + Z.of_nat i)%Z by lia.
Qed.

Lemma double_reports_length (N : Z) (n : nat) (k : Z) :
  length (double_reports N n k) = n.
Proof. unfold double_reports. now rewrite length_map, length_seq. Qed.

Lemma double_reports_nth (N : Z) (n : nat) (k : Z) (i : nat) :
  (i < n)%nat ->
  nth i (double_reports N n k) 0
  = f64 (inject_Z (k + 1 + Z.of_nat i) / inject_Z N).
Proof.
  intros Hi. unfold double_reports.
  set (g := fun i : nat => f64 (inject_Z (k + 1 + Z.of_nat i) / inject_Z N)).
  rewrite (nth_indep _ 0 (g 0%nat)) by now rewrite length_map, length_seq.
  rewrite (map_nth g), seq_nth by exact Hi. reflexivity.
Qed.

End DoubleQuotients.

(** ** The loop, turn by turn *)

Section DoubleLoop.
Import Binary64.
Local Open Scope Q_scope.

Variable canvas : Canvas.
Variable timeline : list TimelineSlice.
Variable F : Z.
Hypothesis F_pos : (0 < F)%Z.
Hypothesis timeline_ok : palettes_defined timeline.

Let N : Z := (F * Z.of_nat (length timeline))%Z.

Hypothesis frames_bound : (N + F <= 2 ^ 52)%Z.

Lemma double_loop_frames (n : nat) :
  forall (k : Z) (log : RenderLog) (fuel : nat),
    (0 <= k)%Z -> (N - k = Z.of_nat n)%Z -> (n <= fuel)%nat ->
    exists fs,
      Doubles.render_loop fuel canvas timeline (inject_Z F) (inject_Z N)
                          (inject_Z k) log
      = Some (Normal (mkLog (frames log ++ fs)
                            (reports log ++ double_reports N n k)))
      /\ length fs = n
      /\ (forall j f, nth_error fs j = Some f ->
                      double_frame canvas timeline F (k + Z.of_nat j) f).
Proof.
  induction n as [|n IH]; intros k log fuel Hk Hn Hfuel.
  - assert (Hstop : Qltb (inject_Z k) (inject_Z N) = false).
    { apply Qltb_false_iff. rewrite <- Zle_Qle. lia. }
    exists []. split; [|split; [reflexivity|]];
      [|intros j f Hj; destruct j; discriminate Hj].
    destruct log as [fr rp]. unfold double_reports.
    simpl frames; simpl reports. simpl map. rewrite !app_nil_r.
    destruct fuel; cbn [Doubles.render_loop]; now rewrite Hstop.
  - assert (Hgo : Qltb (inject_Z k) (inject_Z N) = true).
    { apply Qltb_true. rewrite <- Zlt_Qlt. lia. }
    destruct fuel as [|fuel]; [lia|].
    cbn [Doubles.render_loop]. rewrite Hgo.
    rewrite (double_sliceIndex k F Hk F_pos) by lia.
    assert (Hi : (0 <= k / F < Z.of_nat (length timeline))%Z).
    { split; [apply Z.div_pos; lia|].
      apply Z.div_lt_upper_bound; [exact F_pos | fold N; lia]. }
    assert (Hget : exists sl,
               nth_error timeline (Z.to_nat (k / F)) = Some sl).
    { destruct (nth_error timeline (Z.to_nat (k / F))) as [sl|] eqn:E;
        [now exists sl|].
      apply nth_error_None in E. lia. }
    destruct Hget as [sl Hsl].
    unfold array_get.
    destruct (Z.ltb_spec (k / F) 0) as [Hneg|_]; [lia|].
    rewrite Hsl. cbv zeta.
    assert (Hpal : exists g, palette sl = Some g).
    { unfold palettes_defined in timeline_ok.
      rewrite Forall_forall in timeline_ok.
      apply nth_error_In in Hsl as Hin. specialize (timeline_ok sl Hin).
      destruct (palette sl) as [g|]; [now exists g | contradiction]. }
    destruct Hpal as [g Hg]. rewrite Hg.
    rewrite (double_increment k Hk) by lia.
    assert (Hp : f64 (js_rem (inject_Z k) (inject_Z F) / inject_Z F)
                 = f64 (inject_Z (k mod F) / inject_Z F)).
    { apply f64_comp.
      apply (whole_sliceProgress (inject_Z F) F k);
        [reflexivity | exact F_pos | exact Hk]. }
    rewrite Hp.
    destruct (IH (k + 1)%Z
                (mkLog (frames log
                          ++ [mkFrame (k / F)
                                (f64 (inject_Z (k mod F) / inject_Z F)) sl g
                                (wrapLines (measureText canvas) (sentence sl)
                                   (Doubles.textAreaWidth canvas))])
                       (reports log
                          ++ [f64 (inject_Z (k + 1) / inject_Z N)]))
                fuel)
      as [fs [Hrun [Hlen Hfs]]]; [lia | lia | lia|].
    eexists (_ :: fs). split; [|split].
    + rewrite Hrun. simpl frames; simpl reports.
      rewrite <- !app_assoc, double_reports_cons. reflexivity.
    + simpl. now rewrite Hlen.
    + intros j f Hj. destruct j as [|j].
      * injection Hj as <-. unfold double_frame. simpl.
        rewrite Z.add_0_r. repeat split; assumption.
      * simpl in Hj. specialize (Hfs j f Hj).
        replace (k + Z.of_nat (S j))%Z with (k + 1 + Z.of_nat j)%Z by lia.
        exact Hfs.
Qed.

End DoubleLoop.

(** ** The run, for whole settings *)

Lemma list_eq_dec_nil {A : Type} (l : list A) : {l = []} + {l <> []}.
Proof. destruct l; [now left | now right]. Qed.

Section DoubleRun.
Import Binary64.
Local Open Scope Q_scope.

Variable canvas : Canvas.
Variable timeline : list TimelineSlice.
Variable settings : GenerationSettings.
Variables f s : Z.
Hypothesis has_context : context_available canvas = true.
Hypothesis timeline_ok : palettes_defined timeline.
Hypothesis fps_whole : fps settings == inject_Z f.
Hypothesis seconds_whole : segmentSeconds settings == inject_Z s.
Hypothesis f_pos : (0 < f)%Z.
Hypothesis s_pos : (0 < s)%Z.
Hypothesis frames_bound :
  (f * s * Z.of_nat (length timeline) <= 2 ^ 51)%Z.

Let F : Z := (f * s)%Z.
Let N : Z := (F * Z.of_nat (length timeline))%Z.

Lemma double_totalFrames : Doubles.totalFrames settings timeline = inject_Z N.
Proof.
  unfold Doubles.totalFrames, Doubles.segmentFrames.
  destruct timeline as [|sl rest] eqn:E.
  - unfold N. simpl length. rewrite Z.mul_0_r.
    rewrite (f64_comp _ (inject_Z 0)) by (simpl Z.of_nat; change (inject_Z 0) with 0; ring).
    reflexivity.
  - assert (HF : (0 < F)%Z) by (unfold F; nia).
    assert (Hn : (1 <= Z.of_nat (length (sl :: rest)))%Z) by (simpl; lia).
    assert (HFb : (F <= 2 ^ 51)%Z) by (unfold F in *; nia).
    rewrite (f64_comp (fps settings * segmentSeconds settings) (inject_Z F))
      by (unfold F; now rewrite fps_whole, seconds_whole, inject_Z_mult).
    rewrite (f64_Z F) by lia.
    rewrite (f64_comp _ (inject_Z N))
      by (unfold N; now rewrite inject_Z_mult).
    apply f64_Z. unfold N, F in *. lia.
Qed.

Lemma double_segmentFrames :
  timeline <> [] -> Doubles.segmentFrames settings = inject_Z F.
Proof.
  intros Hne. unfold Doubles.segmentFrames.
  assert (Hn : (1 <= Z.of_nat (length timeline))%Z)
    by (destruct timeline; [contradiction | simpl; lia]).
  assert (HF : (0 < F)%Z) by (unfold F; nia).
  assert (HFb : (F <= 2 ^ 51)%Z) by (unfold F in *; nia).
  rewrite (f64_comp (fps settings * segmentSeconds settings) (inject_Z F))
    by (unfold F; now rewrite fps_whole, seconds_whole, inject_Z_mult).
  apply f64_Z. lia.
Qed.

(** The run in doubles returns; its frames are those of the counter
    values 0, 1, ..., [N - 1], its reports the rounded ratios [1 / N],
    ..., [N / N]. *)
Lemma double_run :
  exists fs,
    Doubles.renderTimelineToVideo canvas timeline settings
    = Some (Normal (mkLog fs (double_reports N (Z.to_nat N) 0)))
    /\ length fs = Z.to_nat N
    /\ (forall j fr, nth_error fs j = Some fr ->
                     double_frame canvas timeline F (Z.of_nat j) fr).
Proof.
  unfold Doubles.renderTimelineToVideo. rewrite has_context. cbv zeta.
  rewrite double_totalFrames.
  assert (Hfuel : enough_fuel (inject_Z N) = Z.to_nat N).
  { unfold enough_fuel. now rewrite Qceiling_Z. }
  rewrite Hfuel.
  destruct (list_eq_dec_nil timeline) as [Hnil|Hne].
  - exists []. assert (HN : N = 0%Z) by (unfold N; rewrite Hnil; simpl; lia).
    rewrite HN. simpl Z.to_nat. split; [reflexivity|].
    split; [reflexivity|]. intros j fr Hj. destruct j; discriminate Hj.
  - rewrite (double_segmentFrames Hne).
    assert (Hn : (1 <= Z.of_nat (length timeline))%Z)
      by (destruct timeline; [contradiction | simpl; lia]).
    assert (HF : (0 < F)%Z) by (unfold F; nia).
    assert (HNb : (N + F <= 2 ^ 52)%Z) by (unfold N, F in *; nia).
    assert (HN0 : (0 <= N)%Z) by (unfold N; nia).
    destruct (double_loop_frames canvas timeline F HF timeline_ok HNb
                (Z.to_nat N) 0%Z (mkLog [] []) (Z.to_nat N))
      as [fs [Hrun [Hlen Hfs]]]; [lia | unfold N in *; lia | lia|].
    exists fs. split; [exact Hrun|]. split; [exact Hlen|].
    intros j fr Hj. specialize (Hfs j fr Hj).
    now rewrite Z.add_0_l in Hfs.
Qed.

End DoubleRun.

(** ** Frames of a run in doubles *)

(** X22.  With whole positive frames per second [f] and seconds per scene
    [s], and no more than [2 ^ 51] frames in all, the driver computing in
    doubles returns after [f * s] frames per scene.  Every frame is of a
    scene that exists in the timeline, frame [k] of scene [k / (f * s)], at
    a progress in [[0, 1)], namely the double nearest
    [(k mod (f * s)) / (f * s)]; the first frame is of scene 0 at
    progress 0.  No read goes past the timeline. *)
Theorem frames_are_valid (canvas : Canvas) (timeline : list TimelineSlice)
        (settings : GenerationSettings) (f s : Z) :
  context_available canvas = true -> palettes_defined timeline ->
  (fps settings == inject_Z f)%Q -> (segmentSeconds settings == inject_Z s)%Q ->
  (0 < f)%Z -> (0 < s)%Z ->
  (f * s * Z.of_nat (length timeline) <= 2 ^ 51)%Z ->
  exists log,
    Doubles.renderTimelineToVideo canvas timeline settings
    = Some (Normal log)
    /\ length (frames log) = (Z.to_nat (f * s) * length timeline)%nat
    /\ Forall (frame_ok timeline) (frames log)
    /\ (forall k fr,
           nth_error (frames log) k = Some fr ->
           sliceIndex fr = (Z.of_nat k / (f * s))%Z
           /\ sliceProgress fr
              = Binary64.f64 (inject_Z (Z.of_nat k mod (f * s))
                              / inject_Z (f * s)))
    /\ (forall fr rest, frames log = fr :: rest ->
                        sliceIndex fr = 0%Z /\ sliceProgress fr = 0%Q).
Proof.
  intros Hctx Hpal Hf Hs Hfpos Hspos Hb.
  destruct (double_run canvas timeline settings f s
              Hctx Hpal Hf Hs Hfpos Hspos Hb)
    as [fs [Hrun [Hlen Hfs]]].
  eexists. split; [exact Hrun|]. simpl frames.
  assert (HF : (0 < f * s)%Z) by nia.
  assert (Hin : forall k fr, nth_error fs k = Some fr ->
                  (Z.of_nat k < f * s * Z.of_nat (length timeline))%Z).
  { intros k fr Hk.
    assert (k < length fs)%nat by (apply nth_error_Some; congruence).
    lia. }
  split; [rewrite Hlen; nia|]. split; [|split].
  - apply Forall_forall. intros fr Hfr.
    apply In_nth_error in Hfr as [k Hk].
    pose proof (Hin k fr Hk) as Hlt.
    destruct (Hfs k fr Hk) as [Hi [Hp [Hsl _]]].
    assert (Hn : (1 <= Z.of_nat (length timeline))%Z) by nia.
    unfold frame_ok. rewrite Hi, Hp. split; [|split; [exact Hsl|]].
    + split; [apply Z.div_pos; lia|].
      apply Z.div_lt_upper_bound; [exact HF | lia].
    + apply double_sliceProgress; [apply Z.mod_pos_bound; exact HF | nia].
  - intros k fr Hk. destruct (Hfs k fr Hk) as [Hi [Hp _]]. now split.
  - intros fr rest E. destruct (Hfs 0%nat fr) as [Hi [Hp _]];
      [now rewrite E|].
    simpl Z.of_nat in Hi, Hp. rewrite Hi, Hp.
    rewrite Z.div_0_l, Z.mod_0_l by lia. split; [reflexivity|].
    rewrite (f64_comp (inject_Z 0 / inject_Z (f * s)) 0)
      by (change (inject_Z 0) with 0%Q; unfold Qdiv; ring).
    reflexivity.
Qed.

Lemma frames_are_valid_witness :
  exists log,
    Doubles.renderTimelineToVideo demo_canvas demo_timeline
      (mkSettings 24 3 cosmic) = Some (Normal log)
    /\ length (frames log) = (Z.to_nat (24 * 3) * 1)%nat
    /\ Forall (frame_ok demo_timeline) (frames log).
Proof.
  destruct (frames_are_valid demo_canvas demo_timeline
              (mkSettings 24 3 cosmic) 24 3 eq_refl
              (createPaletteTimeline_palettes_defined [lit "a"] cosmic)
              (Qeq_refl _) (Qeq_refl _) eq_refl eq_refl)
    as [log [Hrun [Hlen [Hok _]]]].
  - simpl. lia.
  - exists log. split; [exact Hrun|]. split; [exact Hlen | exact Hok].
Defined.

(** ** The percentage shown under the progress bar *)

Lemma percent_monotone (a b : Q) : (a <= b)%Q -> (percent a <= percent b)%Z.
Proof.
  intros H. unfold percent. apply Qfloor_resp_le.
  assert (Hm : (Binary64.f64 (a * 100) <= Binary64.f64 (b * 100))%Q)
    by (apply f64_monotone; lra).
  lra.
Qed.

Lemma percent_range (a : Q) :
  (0 <= a <= 1)%Q -> (0 <= percent a <= 100)%Z.
Proof.
  intros [H0 H1]. split.
  - change 0%Z with (percent 0). now apply percent_monotone.
  - change 100%Z with (percent 1). now apply percent_monotone.
Qed.

(** The page rounds twice, to a double and then to an integer: at 69 of
    120 frames the ratio times 100 is 57.5 exactly, the double product is
    just below, and 57 is shown. *)
Example percent_of_the_double :
  percent (Binary64.f64 (69 # 120)) = 57%Z
  /\ Qfloor ((69 # 120) * 100 + (1 # 2)) = 58%Z.
Proof. split; vm_compute; reflexivity. Qed.

(** X11.  Over a run in doubles with whole positive frames per second and
    seconds per scene and no more than [2 ^ 51] frames, the percentage
    shown, [Math.round(progress * 100)], is 0 at progress 0, never
    decreases from one report to the next, stays within 0 and 100, and is
    100 at the last report. *)
Theorem percent_shown (canvas : Canvas) (timeline : list TimelineSlice)
        (settings : GenerationSettings) (f s : Z) :
  context_available canvas = true -> palettes_defined timeline ->
  (fps settings == inject_Z f)%Q -> (segmentSeconds settings == inject_Z s)%Q ->
  (0 < f)%Z -> (0 < s)%Z -> timeline <> [] ->
  (f * s * Z.of_nat (length timeline) <= 2 ^ 51)%Z ->
  exists log,
    Doubles.renderTimelineToVideo canvas timeline settings
    = Some (Normal log)
    /\ Z.of_nat (length (reports log))
       = (f * s * Z.of_nat (length timeline))%Z
    /\ percent 0 = 0%Z
    /\ Forall (fun r => (0 <= percent r <= 100)%Z) (reports log)
    /\ (forall i j, (i <= j < length (reports log))%nat ->
                    (percent (nth i (reports log) 0%Q)
                     <= percent (nth j (reports log) 0%Q))%Z)
    /\ percent (last (reports log) 0%Q) = 100%Z.
Proof.
  intros Hctx Hpal Hf Hs Hfpos Hspos Hne Hb.
  destruct (double_run canvas timeline settings f s
              Hctx Hpal Hf Hs Hfpos Hspos Hb)
    as [fs [Hrun _]].
  eexists. split; [exact Hrun|]. simpl reports.
  set (N := (f * s * Z.of_nat (length timeline))%Z) in *.
  assert (Hn : (1 <= Z.of_nat (length timeline))%Z)
    by (destruct timeline; [contradiction | simpl; lia]).
  assert (HN : (0 < N)%Z) by (unfold N; nia).
  rewrite double_reports_length.
  split; [lia|]. split; [reflexivity|]. split; [|split].
  - apply Forall_forall. intros r Hr.
    apply (In_nth _ _ 0%Q) in Hr as [i [Hi <-]].
    rewrite double_reports_length in Hi.
    rewrite double_reports_nth by exact Hi.
    apply percent_range, double_report_range; lia.
  - intros i j Hij. rewrite !double_reports_nth by lia.
    apply percent_monotone, double_report_monotone; lia.
  - rewrite last_as_nth, double_reports_length.
    rewrite double_reports_nth by lia.
    replace (0 + 1 + Z.of_nat (Z.to_nat N - 1))%Z with N by lia.
    now rewrite double_report_last.
Qed.

Lemma percent_shown_witness :
  exists log,
    Doubles.renderTimelineToVideo demo_canvas demo_timeline
      (mkSettings 24 3 cosmic) = Some (Normal log)
    /\ percent (last (reports log) 0%Q) = 100%Z.
Proof.
  destruct (percent_shown demo_canvas demo_timeline (mkSettings 24 3 cosmic)
              24 3 eq_refl
              (createPaletteTimeline_palettes_defined [lit "a"] cosmic)
              (Qeq_refl _) (Qeq_refl _) eq_refl eq_refl)
    as [log [Hrun [_ [_ [_ [_ Hlast]]]]]].
  - discriminate.
  - simpl. lia.
  - exists log. split; [exact Hrun | exact Hlast].
Defined.

(** ** The exact loop against the loop in doubles *)

Lemma reports_rounded (total : Q) (N : Z) (n : nat) :
  (total == inject_Z N)%Q ->
  forall (cur : Q) (k : Z),
    (cur == inject_Z k)%Q ->
    map Binary64.f64 (reports_from total n cur) = double_reports N n k.
Proof.
  intros Ht. induction n as [|n IH]; intros cur k Hc; [reflexivity|].
  rewrite double_reports_cons. cbn [reports_from map]. f_equal.
  - apply f64_comp. rewrite Ht, Hc, inject_Z_plus. reflexivity.
  - apply IH. rewrite Hc, inject_Z_plus. reflexivity.
Qed.

(** X24.  For whole positive frames per second and seconds per scene, and
    no more than [2 ^ 51] frames, rounding changes nothing in the course of
    the run: the driver in doubles and the driver over the exact rationals
    both return, after the same number of frames, frame by frame with the
    same scene and gradient; the progress of a frame in doubles is the
    rounded exact progress, and so is every report. *)
Theorem doubles_follow_exact (canvas : Canvas) (timeline : list TimelineSlice)
        (settings : GenerationSettings) (f s : Z) :
  context_available canvas = true -> palettes_defined timeline ->
  (fps settings == inject_Z f)%Q -> (segmentSeconds settings == inject_Z s)%Q ->
  (0 < f)%Z -> (0 < s)%Z ->
  (f * s * Z.of_nat (length timeline) <= 2 ^ 51)%Z ->
  exists log logd,
    renderTimelineToVideo canvas timeline settings = Some (Normal log)
    /\ Doubles.renderTimelineToVideo canvas timeline settings
       = Some (Normal logd)
    /\ length (frames logd) = length (frames log)
    /\ (forall k fr frd,
           nth_error (frames log) k = Some fr ->
           nth_error (frames logd) k = Some frd ->
           sliceIndex frd = sliceIndex fr
           /\ slice frd = slice fr
           /\ colors frd = colors fr
           /\ sliceProgress frd = Binary64.f64 (sliceProgress fr))
    /\ reports logd = map Binary64.f64 (reports log).
Proof.
  intros Hctx Hpal Hf Hs Hfpos Hspos Hb.
  destruct (double_run canvas timeline settings f s
              Hctx Hpal Hf Hs Hfpos Hspos Hb)
    as [fsd [Hrund [Hlend Hfsd]]].
  assert (HF : (segmentFrames settings == inject_Z (f * s))%Q).
  { unfold segmentFrames. now rewrite Hf, Hs, inject_Z_mult. }
  assert (HFpos : (0 < f * s)%Z) by nia.
  assert (Hseg : (0 < segmentFrames settings)%Q).
  { rewrite HF. change 0%Q with (inject_Z 0). now rewrite <- Zlt_Qlt. }
  assert (Htot : (totalFrames settings timeline
                  == inject_Z (f * s * Z.of_nat (length timeline)))%Q).
  { unfold totalFrames. now rewrite HF, <- inject_Z_mult. }
  assert (Hturns : Z.to_nat (Qceiling (totalFrames settings timeline))
                   = Z.to_nat (f * s * Z.of_nat (length timeline))).
  { now rewrite Htot, Qceiling_Z. }
  destruct (render_loop_frames canvas timeline (segmentFrames settings)
              (totalFrames settings timeline) Hseg (Qeq_refl _) Hpal
              (Z.to_nat (Qceiling (totalFrames settings timeline)))
              0%Z 0%Q (mkLog [] [])
              (enough_fuel (totalFrames settings timeline)))
    as [fs [Hrun [Hlen Hfs]]].
  - reflexivity.
  - lia.
  - now rewrite Z.sub_0_r.
  - unfold enough_fuel. lia.
  - eexists. eexists. split; [|split; [exact Hrund|]].
    + unfold renderTimelineToVideo. rewrite Hctx. exact Hrun.
    + simpl frames. simpl reports.
      split; [rewrite Hlen, Hlend; now rewrite Hturns|]. split.
      * intros k fr frd Hk Hkd.
        destruct (Hfs k fr Hk) as [Hi [Hp [Hsl [Hc _]]]].
        destruct (Hfsd k frd Hkd) as [Hid [Hpd [Hsld [Hcd _]]]].
        rewrite Z.add_0_l in Hi, Hp.
        rewrite (whole_sliceIndex _ (f * s)) in Hi by assumption.
        rewrite (whole_sliceProgress _ (f * s)) in Hp by (assumption || lia).
        assert (Ei : sliceIndex frd = sliceIndex fr) by congruence.
        assert (Es : slice frd = slice fr).
        { rewrite Hi in Hsl. congruence. }
        split; [exact Ei|]. split; [exact Es|]. split.
        -- rewrite Es in Hcd. congruence.
        -- rewrite Hpd. apply f64_comp. now symmetry.
      * rewrite Hturns. symmetry. now apply reports_rounded.
Qed.

Lemma doubles_follow_exact_witness :
  exists log logd,
    renderTimelineToVideo demo_canvas demo_timeline (mkSettings 24 3 cosmic)
    = Some (Normal log)
    /\ Doubles.renderTimelineToVideo demo_canvas demo_timeline
         (mkSettings 24 3 cosmic) = Some (Normal logd)
    /\ reports logd = map Binary64.f64 (reports log).
Proof.
  destruct (doubles_follow_exact demo_canvas demo_timeline
              (mkSettings 24 3 cosmic) 24 3 eq_refl
              (createPaletteTimeline_palettes_defined [lit "a"] cosmic)
              (Qeq_refl _) (Qeq_refl _) eq_refl eq_refl)
    as [log [logd [Hrun [Hrund [_ [_ Hrep]]]]]].
  - simpl. lia.
  - exists log, logd. split; [exact Hrun|]. split; [exact Hrund | exact Hrep].
Defined.

(** On the page's canvas, 1280 wide, the text width is 896 either way. *)
Example textAreaWidth_of_the_page :
  Doubles.textAreaWidth demo_canvas = 896%Q
  /\ (textAreaWidth demo_canvas == 896)%Q.
Proof. split; vm_compute; reflexivity. Qed.

(** ** Settings that are not whole *)

(** X25.  Positive settings are not enough for the run to end well.  At
    30.5 frames per second and the literal 0.4 seconds per scene, on any
    canvas and any five scenes, the products are 12.200000000000001 and
    61.00000000000001 in doubles: the loop takes a turn at counter value
    61, where the quotient rounds to 5, [timeline[5]] is [undefined], and
    the read of its palette throws. *)
Theorem off_whole_settings_throw (canvas : Canvas)
        (timeline : list TimelineSlice) (st : VisualStyle) :
  context_available canvas = true -> palettes_defined timeline ->
  length timeline = 5%nat ->
  let settings := mkSettings (61 # 2) (Binary64.f64 (2 # 5)) st in
  (0 < fps settings)%Q /\ (0 < segmentSeconds settings)%Q
  /\ Qfloor (Binary64.f64 (61 / Doubles.segmentFrames settings)) = 5%Z
  /\ Qltb 61 (Doubles.totalFrames settings timeline) = true
  /\ Doubles.renderTimelineToVideo canvas timeline settings
     = Some (Throw
         "TypeError: Cannot read properties of undefined (reading 'palette')").
Proof.
  intros Hctx Hpal Hlen settings.
  split; [reflexivity|]. split; [reflexivity|].
  split; [vm_compute; reflexivity|].
  destruct timeline as [|a [|b [|c [|d [|e [|x rest]]]]]]; try discriminate Hlen.
  unfold palettes_defined in Hpal.
  repeat match goal with
         | H : Forall _ (_ :: _) |- _ => inversion H; subst; clear H
         end.
  destruct a as [sa ia [ga|]]; [|contradiction].
  destruct b as [sb ib [gb|]]; [|contradiction].
  destruct c as [sc ic [gc|]]; [|contradiction].
  destruct d as [sd id [gd|]]; [|contradiction].
  destruct e as [se ie [ge|]]; [|contradiction].
  split; [vm_compute; reflexivity|].
  unfold Doubles.renderTimelineToVideo. rewrite Hctx.
  vm_compute. reflexivity.
Qed.

Lemma off_whole_settings_throw_witness :
  Doubles.renderTimelineToVideo demo_canvas five_scenes off_whole
  = Some (Throw
      "TypeError: Cannot read properties of undefined (reading 'palette')").
Proof.
  exact (proj2 (proj2 (proj2 (proj2
           (off_whole_settings_throw demo_canvas five_scenes cosmic eq_refl
              (createPaletteTimeline_palettes_defined _ cosmic)
              eq_refl))))).
Defined.
